(** * geerpc client: call correlation and connection lifecycle

    A shallow embedding of the RPC client (package [geerpc], file
    [client.go]): the [Call] unit, the pending-call registry and its
    lifecycle flags, the serialized send path, the inbound dispatch loop,
    [Close], option resolution, the HTTP tunnel bootstrap and the dial
    functions ([dialTimeout], [Dial], [DialHTTP], [XDial]).

    Conventions of the embedding:
    - a [*Call] is an index into a heap of [Call] records, a [chan *Call]
      an index into a table of bounded queues; allocation appends;
    - the codec is an external collaborator: the results of its [Write],
      [ReadHeader], [ReadBody] and [Close] are inputs of the functions that
      call it, and every invocation is appended to the [wire] log;
    - [uint64] values are [Z] with the wrap-around of [++] written out;
    - a channel send on a full queue blocks: the function returns
      [Blocked]; [log.Panic] returns [Panic];
    - [signals] is a history variable: the sequence of completed
      [call.done()] sends. *)

From stdpp Require Import gmap strings list fin_maps.
From Stdlib Require Import ZArith Lia.

Set Default Proof Using "Type".

(** ** Results of possibly blocking or panicking code *)

Inductive result (A : Type) : Type :=
| Ok (a : A)
| Blocked
| Panic (msg : string).
Arguments Ok {A} a.
Arguments Blocked {A}.
Arguments Panic {A} msg.

Definition result_bind {A B} (f : A → result B) (r : result A) : result B :=
  match r with
  | Ok a => f a
  | Blocked => Blocked
  | Panic msg => Panic msg
  end.

Notation "x ←r y ; z" := (result_bind (λ x, z) y)
  (at level 20, y at level 100, z at level 200, only parsing).
Notation "' x ←r y ; z" := (result_bind (λ x, z) y)
  (at level 20, x pattern, y at level 100, z at level 200, only parsing).

(** A nil dereference panics in Go; the heap and channel lookups of the
    model return [Panic] on a dangling reference. *)
Definition deref {A} (o : option A) : result A :=
  match o with
  | Some a => Ok a
  | None => Panic "invalid memory address or nil pointer dereference"
  end.

(** ** Data model *)

(** Go [error] values are identified by their message; [interface{}]
    arguments and replies are opaque to the client; a [*Call] and a
    [chan *Call] are indices. *)
Abbreviation gerror := string (only parsing).
Abbreviation payload := string (only parsing).
Abbreviation ptr := nat (only parsing).
Abbreviation chanref := nat (only parsing).

(** [uint64] arithmetic. *)
Definition two64 : Z := 2 ^ 64.
Definition wrap64 (z : Z) : Z := (z mod two64)%Z.

(** The line feed character. *)
Definition LF : string :=
  String (Ascii.Ascii false true false true false false false false) EmptyString.

Module codec.
(** Modelled from the spec: the struct [codec.Header] is declared in the
    package [geerpc/codec], outside client.go; its fields are the ones the
    specification lists (service-and-method name, sequence number, error
    string), which are the ones client.go reads and writes. *)
Record Header := mkHeader {
  ServiceMethod : string;
  Seq : Z;
  Error : string
}.

(** The methods of the interface [codec.Codec] that the client calls:
    an invocation of each, with the header and body written or the call
    whose reply slot is the target of the read ([None] for nil). *)
Inductive Op :=
| OpWrite (h : Header) (body : payload)
| OpReadHeader
| OpReadBody (target : option ptr)
| OpClose.

(** What the codec answers to [ReadHeader] and [ReadBody]. *)
Inductive HeaderRes := HeaderOk (h : Header) | HeaderErr (e : gerror).
Inductive BodyRes := BodyOk (v : payload) | BodyErr (e : gerror).
End codec.

(** [Call]. [Reply] is the content of the caller's reply slot, which
    [ReadBody] fills. *)
Record Call := mkCall {
  Seq : Z;
  ServiceMethod : string;
  Args : payload;
  Reply : payload;
  Error : option gerror;
  Done : chanref
}.

(** A [chan *Call]: its capacity and the calls it buffers, oldest
    first. *)
Record Chan := mkChan {
  ccap : nat;
  cbuf : list ptr
}.

(** [Client]: the registry part of the struct. The codec [cc] is the [wire]
    log of [State]; the locks [mu] and [sending] appear in the interleaving
    model below. *)
Record Client := mkClient {
  header : codec.Header;
  seq : Z;
  pending : gmap Z ptr;
  closing : bool;
  shutdown : bool
}.

(** The client, the calls and queues allocated so far, the invocations
    of the codec and the completed sends of [call.done()], in order. *)
Record State := mkState {
  client : Client;
  heap : list Call;
  chans : list Chan;
  wire : list codec.Op;
  signals : list ptr
}.

(** Field updates. *)

Definition set_Seq (s : Z) (c : Call) : Call :=
  mkCall s (ServiceMethod c) (Args c) (Reply c) (Error c) (Done c).
Definition set_Reply (v : payload) (c : Call) : Call :=
  mkCall (Seq c) (ServiceMethod c) (Args c) v (Error c) (Done c).
Definition set_Error (e : gerror) (c : Call) : Call :=
  mkCall (Seq c) (ServiceMethod c) (Args c) (Reply c) (Some e) (Done c).

Definition with_client (f : Client → Client) (st : State) : State :=
  mkState (f (client st)) (heap st) (chans st) (wire st) (signals st).
Definition with_call (c : ptr) (f : Call → Call) (st : State) : State :=
  mkState (client st) (alter f c (heap st)) (chans st) (wire st) (signals st).
Definition log_op (o : codec.Op) (st : State) : State :=
  mkState (client st) (heap st) (chans st) (wire st ++ [o]) (signals st).

Definition set_header (h : codec.Header) (cl : Client) : Client :=
  mkClient h (seq cl) (pending cl) (closing cl) (shutdown cl).
Definition set_seq (s : Z) (cl : Client) : Client :=
  mkClient (header cl) s (pending cl) (closing cl) (shutdown cl).
Definition set_pending (m : gmap Z ptr) (cl : Client) : Client :=
  mkClient (header cl) (seq cl) m (closing cl) (shutdown cl).
Definition set_closing (b : bool) (cl : Client) : Client :=
  mkClient (header cl) (seq cl) (pending cl) b (shutdown cl).
Definition set_shutdown (b : bool) (cl : Client) : Client :=
  mkClient (header cl) (seq cl) (pending cl) (closing cl) b.

(** [&Call{...}] and [make(chan *Call, n)]. *)
Definition new_call (c : Call) (st : State) : ptr * State :=
  (length (heap st),
   mkState (client st) (heap st ++ [c]) (chans st) (wire st) (signals st)).
Definition make_chan (n : nat) (st : State) : chanref * State :=
  (length (chans st),
   mkState (client st) (heap st) (chans st ++ [mkChan n []]) (wire st) (signals st)).

(** ** Call *)

(** [func (call *Call) done() { call.Done <- call }] *)
Definition done (c : ptr) (st : State) : result State :=
  call ←r deref (heap st !! c);
  ch ←r deref (chans st !! Done call);
  if decide (length (cbuf ch) < ccap ch) then
    Ok (mkState (client st) (heap st)
          (<[Done call := mkChan (ccap ch) (cbuf ch ++ [c])]> (chans st))
          (wire st) (signals st ++ [c]))
  else Blocked.

(** ** Registry *)

Definition ErrShutdown : gerror := "connection is shutdown".

(** [registerCall]: returns the pair [(uint64, error)] of the source. *)
Definition registerCall (c : ptr) (st : State) : Z * option gerror * State :=
  if closing (client st) || shutdown (client st) then (0%Z, Some ErrShutdown, st)
  else
    let s := seq (client st) in
    let st1 := with_call c (set_Seq s) st in
    let st2 := with_client (λ cl, set_pending (<[s := c]> (pending cl)) cl) st1 in
    let st3 := with_client (λ cl, set_seq (wrap64 (seq cl + 1)) cl) st2 in
    (s, None, st3).

Definition removeCall (s : Z) (st : State) : option ptr * State :=
  (pending (client st) !! s,
   with_client (λ cl, set_pending (delete s (pending cl)) cl) st).

(** The body of [for _, call := range client.pending] over the entries in
    the order the runtime yields them. *)
Fixpoint terminate_range (err : gerror) (entries : list (Z * ptr)) (st : State)
  : result State :=
  match entries with
  | [] => Ok st
  | (_, c) :: rest =>
      st' ←r done c (with_call c (set_Error err) st);
      terminate_range err rest st'
  end.

(** [terminateCalls]. Go leaves the iteration order of a map unspecified:
    [range] is the order chosen by the runtime, a permutation of the
    entries of the map. *)
Definition terminateCalls (range : gmap Z ptr → list (Z * ptr))
    (err : gerror) (st : State) : result State :=
  let st1 := with_client (set_shutdown true) st in
  terminate_range err (range (pending (client st1))) st1.

Definition range_ok (range : gmap Z ptr → list (Z * ptr)) : Prop :=
  ∀ m, range m ≡ₚ map_to_list m.

(** ** Sending *)

(** [send] up to the result of [registerCall]: on an error the call is
    completed and [send] returns ([None]); otherwise the sequence number
    is handed to the rest of [send]. *)
Definition send_begin (c : ptr) (st : State) : result (option Z * State) :=
  let '(s, err, st1) := registerCall c st in
  match err with
  | Some e =>
      st2 ←r done c (with_call c (set_Error e) st1);
      Ok (None, st2)
  | None => Ok (Some s, st1)
  end.

(** The rest of [send]: the header, [client.cc.Write], whose result is
    [wres], and the removal of the call when the write failed. *)
Definition send_end (wres : option gerror) (c : ptr) (s : Z) (st : State)
  : result State :=
  call ←r deref (heap st !! c);
  let st1 := with_client
    (set_header (codec.mkHeader (ServiceMethod call) s EmptyString)) st in
  let st2 := log_op (codec.OpWrite (header (client st1)) (Args call)) st1 in
  match wres with
  | None => Ok st2
  | Some e =>
      let '(c', st3) := removeCall s st2 in
      match c' with
      | Some c' => done c' (with_call c' (set_Error e) st3)
      | None => Ok st3
      end
  end.

Definition send (wres : option gerror) (c : ptr) (st : State) : result State :=
  '(registered, st1) ←r send_begin c st;
  match registered with
  | None => Ok st1
  | Some s => send_end wres c s st1
  end.

(** [Go] up to the call of [send]; [doneq] is the caller's completion
    queue ([None] for [nil]). *)
Definition Go_call (serviceMethod : string) (args reply : payload)
    (doneq : option chanref) (st : State) : result (ptr * State) :=
  '(d, st1) ←r
     match doneq with
     | None => Ok (make_chan 10 st)
     | Some d =>
         ch ←r deref (chans st !! d);
         if decide (ccap ch = 0) then
           Panic "[Go] rpc client: done channel is unbuffered"
         else Ok (d, st)
     end;
  Ok (new_call (mkCall 0 serviceMethod args reply None d) st1).

Definition Go (serviceMethod : string) (args reply : payload)
    (doneq : option chanref) (wres : option gerror) (st : State)
  : result (ptr * State) :=
  '(c, st1) ←r Go_call serviceMethod args reply doneq st;
  st2 ←r send wres c st1;
  Ok (c, st2).

(** ** Receiving *)

Definition body_err (b : codec.BodyRes) : option gerror :=
  match b with
  | codec.BodyOk _ => None
  | codec.BodyErr e => Some e
  end.

(** The [switch] of [receive] on the call that [removeCall] returned;
    [bres] is what the codec answers to [ReadBody]. The result is the
    value of the loop variable [err]. *)
Definition receive_body (h : codec.Header) (call : option ptr)
    (bres : codec.BodyRes) (st : State) : result (option gerror * State) :=
  match call with
  | None =>
      Ok (body_err bres, log_op (codec.OpReadBody None) st)
  | Some c =>
      if decide (codec.Error h ≠ EmptyString) then
        let st1 := with_call c (set_Error (codec.Error h)) st in
        let st2 := log_op (codec.OpReadBody None) st1 in
        st3 ←r done c st2;
        Ok (body_err bres, st3)
      else
        let st1 := log_op (codec.OpReadBody (Some c)) st in
        match bres with
        | codec.BodyOk v =>
            st2 ←r done c (with_call c (set_Reply v) st1);
            Ok (None, st2)
        | codec.BodyErr e =>
            let st2 := with_call c (set_Error ("reading body" +:+ e)) st1 in
            st3 ←r done c st2;
            Ok (Some e, st3)
        end
  end.

(** One iteration of the loop of [receive]; [hres] is what the codec
    answers to [ReadHeader]. *)
Definition receive_iter (hres : codec.HeaderRes) (bres : codec.BodyRes)
    (st : State) : result (option gerror * State) :=
  let st1 := log_op codec.OpReadHeader st in
  match hres with
  | codec.HeaderErr e => Ok (Some e, st1)
  | codec.HeaderOk h =>
      let '(call, st2) := removeCall (codec.Seq h) st1 in
      receive_body h call bres st2
  end.

(** The loop [for err == nil] over the frames the codec delivers. When the
    frames run out with [err == nil] the goroutine waits in [ReadHeader]:
    the loop has not exited and the result is [None]. *)
Fixpoint receive_loop (frames : list (codec.HeaderRes * codec.BodyRes))
    (st : State) : result (option gerror * State) :=
  match frames with
  | [] => Ok (None, st)
  | (hres, bres) :: rest =>
      '(err, st1) ←r receive_iter hres bres st;
      match err with
      | Some e => Ok (Some e, st1)
      | None => receive_loop rest st1
      end
  end.

(** [receive]: the loop, then [terminateCalls(err)] once it has exited. *)
Definition receive (range : gmap Z ptr → list (Z * ptr))
    (frames : list (codec.HeaderRes * codec.BodyRes)) (st : State)
  : result (option gerror * State) :=
  '(err, st1) ←r receive_loop frames st;
  match err with
  | Some e => st2 ←r terminateCalls range e st1; Ok (Some e, st2)
  | None => Ok (None, st1)
  end.

(** ** Synchronous invocation *)

(** The context of [Call]: live, or done with [ctx.Err().Error()]. *)
Inductive Ctx := CtxLive | CtxDone (e : string).

(** When both cases of the [select] of [Call] are ready Go takes one of
    them at random: [Pick] is the one taken. *)
Inductive Pick := PickCtx | PickDone.

(** The case the [select] takes: that of the context, with its error, or
    that of the queue, with the call received and what stays queued. *)
Inductive SelectCase :=
| CaseCtx (e : string)
| CaseDone (c' : ptr) (rest : list ptr).

(** With neither case ready the caller waits. *)
Definition select_case (ctx : Ctx) (pick : Pick) (buf : list ptr)
  : option SelectCase :=
  match ctx, buf with
  | CtxLive, [] => None
  | CtxLive, c' :: rest => Some (CaseDone c' rest)
  | CtxDone e, [] => Some (CaseCtx e)
  | CtxDone e, c' :: rest =>
      match pick with
      | PickCtx => Some (CaseCtx e)
      | PickDone => Some (CaseDone c' rest)
      end
  end.

(** The [select] of [Call]. *)
Definition Call_select (ctx : Ctx) (pick : Pick) (c : ptr) (st : State)
  : result (option gerror * State) :=
  call ←r deref (heap st !! c);
  ch ←r deref (chans st !! Done call);
  match select_case ctx pick (cbuf ch) with
  | None => Blocked
  | Some (CaseCtx e) =>
      let '(_, st1) := removeCall (Seq call) st in
      Ok (Some ("rpc client: call failed: " +:+ e), st1)
  | Some (CaseDone c' rest) =>
      let st1 := mkState (client st) (heap st)
                   (<[Done call := mkChan (ccap ch) rest]> (chans st))
                   (wire st) (signals st) in
      call' ←r deref (heap st1 !! c');
      Ok (Error call', st1)
  end.

(** [Client.Call]: [Go] with a fresh queue of capacity 1, then the
    [select]. *)
Definition Client_Call (ctx : Ctx) (pick : Pick) (serviceMethod : string)
    (args reply : payload) (wres : option gerror) (st : State)
  : result (option gerror * State) :=
  let '(d, st1) := make_chan 1 st in
  '(c, st2) ←r Go serviceMethod args reply (Some d) wres st1;
  Call_select ctx pick c st2.

(** ** Closing *)

(** [Close]; [cres] is the result of [client.cc.Close()]. *)
Definition Close (cres : option gerror) (st : State) : option gerror * State :=
  if closing (client st) then (Some ErrShutdown, st)
  else (cres, log_op codec.OpClose (with_client (set_closing true) st)).

Definition IsAvailable (st : State) : bool :=
  negb (shutdown (client st)) && negb (closing (client st)).

(** [newClientCodec]: the state of a client just created. *)
Definition newClientCodec : State :=
  mkState (mkClient (codec.mkHeader EmptyString 0 EmptyString) 0 ∅ false false) [] [] [] [].

(** ** Interleavings

    The goroutines of one client, interleaved. A step is a critical
    section of the lock [mu] ([registerCall], [removeCall], [Close]),
    together with what the goroutine does before and after it to data no
    other goroutine holds (a call it has just allocated or taken out of
    [pending], the header buffer under the lock [sending], its side of the
    codec), or one channel operation: a [call.done()], the [select] of
    [Client.Call], a receive on a completion queue by a caller of [Go].
    [terminateCalls] takes [sending] and [mu], and keeps them while it
    ranges over [pending], one step for each entry. A step that would
    block, on a full queue or on a lock, or panic is not enabled. *)
Module Conc.

(** Where a caller that holds the lock [sending] stands in [send]:
    after [registerCall] returned the sequence number [n] for the call
    [c], before [Write]; or before the [call.done()] of [c'], after which
    [send] returns for the call [c]. [sync] tells that [Go] was called by
    [Client.Call]. *)
Inductive Sender :=
| SendIdle
| SendWrite (c : ptr) (n : Z) (sync : bool)
| SendDone (c' : ptr) (c : ptr) (sync : bool).

(** Where the goroutine of [receive] stands: before [ReadHeader]; after
    [removeCall], before [ReadBody]; before the [call.done()] of [c], with
    the loop variable [err]; out of the loop, before [terminateCalls];
    in the loop of [terminateCalls], with the entries still to visit;
    returned. *)
Inductive Recv :=
| RecvHeader
| RecvBody (h : codec.Header) (call : option ptr)
| RecvDone (c : ptr) (err : option gerror)
| RecvExit (e : gerror)
| RecvRange (e : gerror) (rest : list (Z * ptr))
| RecvReturned.

Record Sys := mkSys {
  st : State;
  sender : Sender;
  recv : Recv;
  (** calls of [Client.Call] at the [select] *)
  selecting : list ptr;
  (** queues made by [Client.Call] *)
  owned : list chanref;
  (** history: the sequence numbers [registerCall] returned with a nil
      error, in order *)
  issued : list Z
}.

Inductive Event :=
| EvMakeChan (n : nat)
| EvGo (serviceMethod : string) (args reply : payload) (doneq : option chanref)
| EvCall (serviceMethod : string) (args reply : payload)
| EvWrite (wres : option gerror)
| EvSendDone
| EvReadHeader (hres : codec.HeaderRes)
| EvReadBody (bres : codec.BodyRes)
| EvRecvDone
| EvTerminate (order : list (Z * ptr))
| EvRange
| EvReturn
| EvSelect (c : ptr) (ctx : Ctx) (pick : Pick)
| EvDequeue (d : chanref)
| EvClose (cres : option gerror).

Definition init : Sys :=
  mkSys newClientCodec SendIdle RecvHeader [] [] [].

Definition ok {A} (r : result A) : option A :=
  match r with
  | Ok a => Some a
  | _ => None
  end.

(** [terminateCalls] holds [mu] and [sending]. *)
Definition ranging (r : Recv) : bool :=
  match r with
  | RecvRange _ _ => true
  | _ => false
  end.

(** [send] returns: the caller releases [sending], and a caller from
    [Client.Call] goes on to its [select]. *)
Definition returned (c : ptr) (sync : bool) (st1 : State) (s : Sys) : Sys :=
  mkSys st1 SendIdle (recv s)
    (if sync then c :: selecting s else selecting s) (owned s) (issued s).

(** A caller takes [sending] and calls [registerCall] for the call [c] it
    has built. *)
Definition enter (sync : bool) (c : ptr) (st1 : State) (s : Sys) : Sys :=
  let '(n, err, st2) := registerCall c st1 in
  match err with
  | Some e =>
      mkSys (with_call c (set_Error e) st2) (SendDone c c sync) (recv s)
        (selecting s) (owned s) (issued s)
  | None =>
      mkSys st2 (SendWrite c n sync) (recv s) (selecting s) (owned s)
        (issued s ++ [n])
  end.

(** The rest of [send] up to its [call.done()]. *)
Definition write (wres : option gerror) (c : ptr) (n : Z) (sync : bool)
    (s : Sys) : option Sys :=
  call ← heap (st s) !! c;
  let st1 := with_client
    (set_header (codec.mkHeader (ServiceMethod call) n EmptyString)) (st s) in
  let st2 := log_op (codec.OpWrite (header (client st1)) (Args call)) st1 in
  match wres with
  | None => Some (returned c sync st2 s)
  | Some e =>
      let '(c', st3) := removeCall n st2 in
      match c' with
      | Some c' =>
          Some (mkSys (with_call c' (set_Error e) st3) (SendDone c' c sync)
                  (recv s) (selecting s) (owned s) (issued s))
      | None => Some (returned c sync st3 s)
      end
  end.

(** The loop of [receive] goes on, or ends. *)
Definition next (err : option gerror) : Recv :=
  match err with
  | Some e => RecvExit e
  | None => RecvHeader
  end.

(** The [switch] of [receive] up to its [call.done()]. *)
Definition read_body (h : codec.Header) (call : option ptr)
    (bres : codec.BodyRes) (st : State) : State * Recv :=
  match call with
  | None => (log_op (codec.OpReadBody None) st, next (body_err bres))
  | Some c =>
      if decide (codec.Error h ≠ EmptyString) then
        (log_op (codec.OpReadBody None)
           (with_call c (set_Error (codec.Error h)) st),
         RecvDone c (body_err bres))
      else
        let st1 := log_op (codec.OpReadBody (Some c)) st in
        match bres with
        | codec.BodyOk v => (with_call c (set_Reply v) st1, RecvDone c None)
        | codec.BodyErr e =>
            (with_call c (set_Error ("reading body" +:+ e)) st1,
             RecvDone c (Some e))
        end
  end.

(** The [select] of the call [c] takes the case of the context. *)
Definition takes_ctx (ctx : Ctx) (pick : Pick) (c : ptr) (st : State) : bool :=
  match heap st !! c with
  | Some call =>
      match chans st !! Done call with
      | Some ch =>
          match select_case ctx pick (cbuf ch) with
          | Some (CaseCtx _) => true
          | _ => false
          end
      | None => false
      end
  | None => false
  end.

(** The queue was made by [Client.Call]: no caller of [Go] has it. *)
Definition is_owned (doneq : option chanref) (s : Sys) : bool :=
  match doneq with
  | Some d => bool_decide (d ∈ owned s)
  | None => false
  end.

Definition step (ev : Event) (s : Sys) : option Sys :=
  match ev with
  | EvMakeChan n =>
      Some (mkSys (snd (make_chan n (st s))) (sender s) (recv s)
              (selecting s) (owned s) (issued s))
  | EvGo sm args reply doneq =>
      match sender s, ranging (recv s) with
      | SendIdle, false =>
          if is_owned doneq s then None
          else '(c, st1) ← ok (Go_call sm args reply doneq (st s));
               Some (enter false c st1 s)
      | _, _ => None
      end
  | EvCall sm args reply =>
      match sender s, ranging (recv s) with
      | SendIdle, false =>
          let '(d, st1) := make_chan 1 (st s) in
          '(c, st2) ← ok (Go_call sm args reply (Some d) st1);
          Some (enter true c st2
                  (mkSys (st s) SendIdle (recv s) (selecting s)
                     (d :: owned s) (issued s)))
      | _, _ => None
      end
  | EvWrite wres =>
      match sender s with
      | SendWrite c n sync => write wres c n sync s
      | _ => None
      end
  | EvSendDone =>
      match sender s with
      | SendDone c' c sync =>
          st1 ← ok (done c' (st s));
          Some (returned c sync st1 s)
      | _ => None
      end
  | EvReadHeader hres =>
      match recv s with
      | RecvHeader =>
          let st1 := log_op codec.OpReadHeader (st s) in
          match hres with
          | codec.HeaderErr e =>
              Some (mkSys st1 (sender s) (RecvExit e) (selecting s)
                      (owned s) (issued s))
          | codec.HeaderOk h =>
              let '(call, st2) := removeCall (codec.Seq h) st1 in
              Some (mkSys st2 (sender s) (RecvBody h call) (selecting s)
                      (owned s) (issued s))
          end
      | _ => None
      end
  | EvReadBody bres =>
      match recv s with
      | RecvBody h call =>
          let '(st1, r) := read_body h call bres (st s) in
          Some (mkSys st1 (sender s) r (selecting s) (owned s) (issued s))
      | _ => None
      end
  | EvRecvDone =>
      match recv s with
      | RecvDone c err =>
          st1 ← ok (done c (st s));
          Some (mkSys st1 (sender s) (next err) (selecting s) (owned s)
                  (issued s))
      | _ => None
      end
  | EvTerminate order =>
      match recv s, sender s with
      | RecvExit e, SendIdle =>
          if decide (order ≡ₚ map_to_list (pending (client (st s)))) then
            Some (mkSys (with_client (set_shutdown true) (st s)) SendIdle
                    (RecvRange e order) (selecting s) (owned s) (issued s))
          else None
      | _, _ => None
      end
  | EvRange =>
      match recv s with
      | RecvRange e (entry :: rest) =>
          st1 ← ok (terminate_range e [entry] (st s));
          Some (mkSys st1 (sender s) (RecvRange e rest) (selecting s)
                  (owned s) (issued s))
      | _ => None
      end
  | EvReturn =>
      match recv s with
      | RecvRange e [] =>
          Some (mkSys (st s) (sender s) RecvReturned (selecting s) (owned s)
                  (issued s))
      | _ => None
      end
  | EvSelect c ctx pick =>
      if decide (c ∈ selecting s) then
        if ranging (recv s) && takes_ctx ctx pick c (st s) then None
        else
          '(_, st1) ← ok (Call_select ctx pick c (st s));
          Some (mkSys st1 (sender s) (recv s)
                  (filter (λ c', c' ≠ c) (selecting s)) (owned s) (issued s))
      else None
  | EvDequeue d =>
      if decide (d ∈ owned s) then None
      else
        ch ← chans (st s) !! d;
        match cbuf ch with
        | [] => None
        | _ :: rest =>
            Some (mkSys (mkState (client (st s)) (heap (st s))
                           (<[d := mkChan (ccap ch) rest]> (chans (st s)))
                           (wire (st s)) (signals (st s)))
                    (sender s) (recv s) (selecting s) (owned s) (issued s))
        end
  | EvClose cres =>
      if ranging (recv s) then None
      else Some (mkSys (snd (Close cres (st s))) (sender s) (recv s)
                   (selecting s) (owned s) (issued s))
  end.

Fixpoint run (evs : list Event) (s : Sys) : option Sys :=
  match evs with
  | [] => Some s
  | ev :: rest => s' ← step ev s; run rest s'
  end.

(** The states a client can be in. *)
Definition reachable (s : Sys) : Prop := ∃ evs, run evs init = Some s.

(** The calls a goroutine has in hand for a [call.done()]. *)
Definition recv_held (r : Recv) : list ptr :=
  match r with
  | RecvBody _ (Some c) => [c]
  | RecvDone c _ => [c]
  | _ => []
  end.

Definition send_held (w : Sender) : list ptr :=
  match w with
  | SendDone c' _ _ => [c']
  | _ => []
  end.

Definition held (s : Sys) : list ptr :=
  recv_held (recv s) ++ send_held (sender s).

(** The entries [terminateCalls] has still to visit. *)
Definition to_visit (r : Recv) : list (Z * ptr) :=
  match r with
  | RecvRange _ rest => rest
  | _ => []
  end.

(** [terminateCalls] has not begun. *)
Definition live (r : Recv) : bool :=
  match r with
  | RecvRange _ _ | RecvReturned => false
  | _ => true
  end.

End Conc.

(** ** Dialling *)

Module Dial.

(** Modelled from the spec: the struct [Option] is declared outside
    client.go; these are the fields client.go reads and writes
    ([MagicNumber], [CodecType], [ConnectTimeout]), which are the fields
    the specification lists. *)
Record Option := mkOption {
  MagicNumber : Z;
  CodecType : string;
  ConnectTimeout : Z
}.

Definition set_MagicNumber (n : Z) (o : Option) : Option :=
  mkOption n (CodecType o) (ConnectTimeout o).
Definition set_CodecType (t : string) (o : Option) : Option :=
  mkOption (MagicNumber o) t (ConnectTimeout o).

(** An [*Option] is an index into the store of [Option] objects. *)
Abbreviation optr := nat (only parsing).

(** [parseOptions(options ...*Option)]: [DefaultOption] is the address of
    the package-level default, [options] the variadic arguments ([None]
    for a nil pointer), [mem] the store. The assignments go through the
    caller's pointer. *)
Definition parseOptions (DefaultOption : optr) (options : list (option optr))
    (mem : list Option) : result (option optr * option gerror * list Option) :=
  match options with
  | [] | None :: _ => Ok (Some DefaultOption, None, mem)
  | Some opt :: _ =>
      if decide (length options ≠ 1) then
        Ok (None, Some "[parseOptions] number of options is more than 1", mem)
      else
        d ←r deref (mem !! DefaultOption);
        let mem1 := alter (set_MagicNumber (MagicNumber d)) opt mem in
        o ←r deref (mem1 !! opt);
        if decide (CodecType o = EmptyString) then
          d' ←r deref (mem1 !! DefaultOption);
          Ok (Some opt, None, alter (set_CodecType (CodecType d')) opt mem1)
        else Ok (Some opt, None, mem1)
  end.

(** What is done to the connection, in order. *)
Inductive ConnOp :=
| ConnWrite (s : string)
| ConnEncode (o : Option)
| ConnClose.

(** What [http.ReadResponse] returns: a response with its [Status], or
    an error. *)
Inductive Response := RespOk (status : string) | RespErr (e : gerror).

Section Constants.
(** Declared outside client.go: the RPC path, the expected status
    text, and the keys of [codec.NewCodecFuncMap]. *)
Variable defaultRPCPath : string.
Variable connected : string.
Variable NewCodecFuncMap : string → bool.

(** [NewClient]; [eres] is the result of encoding the option on the
    connection. The client returned is [newClientCodec]. *)
Definition NewClient (eres : option gerror) (conn : list ConnOp) (opt : Option)
  : option State * option gerror * list ConnOp :=
  if NewCodecFuncMap (CodecType opt) then
    match eres with
    | Some e => (None, Some e, conn ++ [ConnEncode opt; ConnClose])
    | None => (Some newClientCodec, None, conn ++ [ConnEncode opt])
    end
  else (None, Some ("invalid codec type " +:+ CodecType opt), conn).

(** [NewHTTPClient]; [resp] is the result of [http.ReadResponse]. *)
Definition NewHTTPClient (resp : Response) (eres : option gerror)
    (conn : list ConnOp) (opt : Option)
  : option State * option gerror * list ConnOp :=
  let conn1 :=
    conn ++ [ConnWrite ("CONNECT " +:+ defaultRPCPath +:+ " HTTP/1.0 " +:+ LF +:+ LF)] in
  match resp with
  | RespOk status =>
      if decide (status = connected) then NewClient eres conn1 opt
      else (None, Some ("unexpected HTTP response: " +:+ status), conn1)
  | RespErr e => (None, Some e, conn1)
  end.
End Constants.

(** The library function [strings.Split(s, sep)] at a separator of one
    byte: the substrings of [s] between the occurrences of [sep], one more
    than there are occurrences. *)
Fixpoint Split (sep : Ascii.ascii) (s : string) : list string :=
  match s with
  | EmptyString => [EmptyString]
  | String a rest =>
      if decide (a = sep) then EmptyString :: Split sep rest
      else
        match Split sep rest with
        | part :: parts => String a part :: parts
        | [] => [String a EmptyString]
        end
  end.

(** The byte of the separator [@] of [XDial]. *)
Definition at_sign : Ascii.ascii :=
  Ascii.Ascii false false false false false false true false.

(** The [select] of [dialTimeout] on [time.After] and the channel of the
    goroutine that runs [clientFunc]: which of the two came first. *)
Inductive Race := TimerFirst | ResultFirst.

(** [newClientFunc], with the results of its reads and writes on the
    connection fixed: what it returns and what it has done to the
    connection. *)
Definition newClientFunc : Type :=
  list ConnOp → Option → option State * option gerror * list ConnOp.

(** What [dialTimeout] has done besides returning. *)
Record Dialled := mkDialled {
  (** the arguments of [net.DialTimeout], when it was called *)
  connect : option (string * string * Z);
  (** what [clientFunc] returned and did to the connection in its
      goroutine, when that was started *)
  handshake : option (option State * option gerror * list ConnOp);
  (** the send [ch <- clientResult{...}] of the goroutine found its
      receiver; otherwise the goroutine stays blocked in it *)
  received : bool;
  (** the deferred function closed the connection *)
  closed : bool
}.

Definition not_connected : Dialled := mkDialled None None false false.

Section Dialling.
Variable defaultRPCPath : string.
Variable connected : string.
Variable NewCodecFuncMap : string → bool.
(** Declared outside client.go: the address of the package-level default
    option; how [%s] prints a [time.Duration]. *)
Variable DefaultOption : optr.
Variable Duration_String : Z → string.

(** [dialTimeout]; [dres] is the error of [net.DialTimeout] ([None] when
    it returns a connection), [race] the case its [select] takes. The
    named result [err] is what the deferred function tests. *)
Definition dialTimeout (clientFunc : newClientFunc) (network address : string)
    (opts : list (option optr)) (mem : list Option) (dres : option gerror)
    (race : Race)
  : result (option State * option gerror * list Option * Dialled) :=
  '(options, err, mem1) ←r parseOptions DefaultOption opts mem;
  match err with
  | Some e => Ok (None, Some e, mem1, not_connected)
  | None =>
      o ←r deref (options ≫= λ p, mem1 !! p);
      let dialled := Some (network, address, ConnectTimeout o) in
      match dres with
      | Some e => Ok (None, Some e, mem1, mkDialled dialled None false false)
      | None =>
          let r := clientFunc [] o in
          let receives :=
            Ok (r.1.1, r.1.2, mem1,
                mkDialled dialled (Some r) true (bool_decide (is_Some r.1.2))) in
          if decide (ConnectTimeout o = 0%Z) then receives
          else
            match race with
            | TimerFirst =>
                Ok (None,
                    Some ("rpc client: connect timeout: expect within " +:+
                          Duration_String (ConnectTimeout o)),
                    mem1, mkDialled dialled (Some r) false true)
            | ResultFirst => receives
            end
      end
  end.

(** [Dial] and [DialHTTP]; [eres] and [resp] are the results of encoding
    the option on the connection and of [http.ReadResponse]. *)
Definition Dial (eres : option gerror) :=
  dialTimeout (NewClient NewCodecFuncMap eres).

Definition DialHTTP (resp : Response) (eres : option gerror) :=
  dialTimeout (NewHTTPClient defaultRPCPath connected NewCodecFuncMap resp eres).

(** [XDial]. *)
Definition XDial (resp : Response) (eres : option gerror) (rpcAddr : string)
    (options : list (option optr)) (mem : list Option) (dres : option gerror)
    (race : Race)
  : result (option State * option gerror * list Option * Dialled) :=
  let parts := Split at_sign rpcAddr in
  if decide (length parts ≠ 2) then
    Ok (None,
        Some ("[XDial] rpc client err: wrong format '" +:+ rpcAddr +:+
              "', expect protocol@addr"),
        mem, not_connected)
  else
    protocol ←r deref (parts !! 0);
    addr ←r deref (parts !! 1);
    if decide (protocol = "http") then
      DialHTTP resp eres "tcp" addr options mem dres race
    else Dial eres protocol addr options mem dres race.
End Dialling.

End Dial.

(** ** Observations on states *)

(** The call [c] sits in its completion queue. *)
Definition queued (c : ptr) (st : State) : Prop :=
  ∃ call ch,
    heap st !! c = Some call ∧ chans st !! Done call = Some ch ∧ c ∈ cbuf ch.

(** The number of [entries] whose call has the queue [d]. *)
Definition load (st : State) (entries : list (Z * ptr)) (d : chanref) : nat :=
  length (filter (λ e, Done <$> heap st !! e.2 = Some d) entries).

(** Every call of [entries] has a queue, and every queue has room for the
    calls of [entries] that use it. *)
Definition has_room (st : State) (entries : list (Z * ptr)) : Prop :=
  (∀ e, e ∈ entries →
     ∃ call ch, heap st !! e.2 = Some call ∧ chans st !! Done call = Some ch) ∧
  (∀ d ch, chans st !! d = Some ch →
     length (cbuf ch) + load st entries d ≤ ccap ch).

(** What a frame makes the loop variable [err] of [receive]: the error of
    [ReadHeader], or else that of [ReadBody]. *)
Definition read_err (f : codec.HeaderRes * codec.BodyRes) : option gerror :=
  match f.1 with
  | codec.HeaderErr e => Some e
  | codec.HeaderOk _ => body_err f.2
  end.

(** What a response does to the call it is for. *)
Definition deliver (h : codec.Header) (bres : codec.BodyRes) (call : Call)
  : Call :=
  if decide (codec.Error h ≠ EmptyString) then set_Error (codec.Error h) call
  else
    match bres with
    | codec.BodyOk v => set_Reply v call
    | codec.BodyErr e => set_Error ("reading body" +:+ e) call
    end.

(** The number of times [ReadHeader] was called. *)
Definition is_ReadHeader (o : codec.Op) : bool :=
  match o with
  | codec.OpReadHeader => true
  | _ => false
  end.

Definition headers_read (st : State) : nat :=
  length (filter is_ReadHeader (wire st)).

(** The sequence numbers of the requests written on the codec, in the
    order of the writes. *)
Definition written (w : list codec.Op) : list Z :=
  omap (λ o, match o with
             | codec.OpWrite h _ => Some (codec.Seq h)
             | _ => None
             end) w.

(** How many times the codec was closed. *)
Definition is_Close (o : codec.Op) : bool :=
  match o with
  | codec.OpClose => true
  | _ => false
  end.

Definition closes (w : list codec.Op) : nat := length (filter is_Close w).

(** The sequence number that [registerCall] returned to the caller in
    [send] whose request is not written yet. *)
Definition in_flight (w : Conc.Sender) : list Z :=
  match w with
  | Conc.SendWrite _ n _ => [n]
  | _ => []
  end.

(** What the codec was asked to do after it was first closed. *)
Fixpoint after_close (w : list codec.Op) : list codec.Op :=
  match w with
  | [] => []
  | codec.OpClose :: rest => rest
  | _ :: rest => after_close rest
  end.

(** The number of occurrences of a byte in a string. *)
Fixpoint occurrences (sep : Ascii.ascii) (s : string) : nat :=
  match s with
  | EmptyString => 0
  | String a rest => (if decide (a = sep) then 1 else 0) + occurrences sep rest
  end.

(** A [newClientFunc] returns a client or an error, not both, and not
    neither. *)
Definition client_xor_error (f : Dial.newClientFunc) : Prop :=
  ∀ conn o,
    ((f conn o).1.1 = Some newClientCodec ∧ (f conn o).1.2 = None) ∨
    ((f conn o).1.1 = None ∧ is_Some (f conn o).1.2).

(** ** Invariants of the interleavings *)

(** What holds of the registry in every state a client reaches: no call
    was completed twice; a pending call is stored under its own sequence
    number and, until [terminateCalls] begins, was not completed; the
    entries [terminateCalls] has still to visit are pending calls, each
    once, not completed; a call a goroutine has in hand for its
    [call.done()] is not completed and not pending, and no two goroutines
    have the same; [shutdown] is set exactly when [terminateCalls] has
    begun, which it has not while a sender is about to write; the
    counter is the number of registrations modulo 2^64 and the numbers
    returned are the successive values of the counter. *)
Record registry_inv (s : Conc.Sys) : Prop := mk_registry_inv {
  inv_nodup : NoDup (signals (Conc.st s));
  inv_signalled : ∀ c,
    c ∈ signals (Conc.st s) → c < length (heap (Conc.st s));
  inv_pending : ∀ k c,
    pending (client (Conc.st s)) !! k = Some c →
    Seq <$> heap (Conc.st s) !! c = Some k;
  inv_unsignalled :
    Conc.live (Conc.recv s) = true →
    ∀ k c, pending (client (Conc.st s)) !! k = Some c →
      c ∉ signals (Conc.st s);
  inv_to_visit_nodup : NoDup (Conc.to_visit (Conc.recv s)).*2;
  inv_to_visit : ∀ k c,
    (k, c) ∈ Conc.to_visit (Conc.recv s) →
    pending (client (Conc.st s)) !! k = Some c ∧ c ∉ signals (Conc.st s);
  inv_held_nodup : NoDup (Conc.held s);
  inv_held : ∀ c,
    c ∈ Conc.held s →
    (c ∉ signals (Conc.st s)) ∧ (c < length (heap (Conc.st s))) ∧
    ∀ k, pending (client (Conc.st s)) !! k ≠ Some c;
  inv_live :
    shutdown (client (Conc.st s)) = negb (Conc.live (Conc.recv s));
  inv_writing : ∀ c n sync,
    Conc.sender s = Conc.SendWrite c n sync → Conc.live (Conc.recv s) = true;
  inv_seq :
    seq (client (Conc.st s)) = wrap64 (Z.of_nat (length (Conc.issued s)));
  inv_issued :
    Conc.issued s =
      (λ i, wrap64 (Z.of_nat i)) <$> List.seq 0 (length (Conc.issued s))
}.

(** The call [c] exists, was not completed, is not pending and is in no
    goroutine's hands. *)
Definition abandoned (c : ptr) (s : Conc.Sys) : Prop :=
  (c < length (heap (Conc.st s))) ∧
  (c ∉ signals (Conc.st s)) ∧
  (∀ k, pending (client (Conc.st s)) !! k ≠ Some c) ∧
  (c ∉ Conc.held s) ∧
  (c ∉ (Conc.to_visit (Conc.recv s)).*2).

(** What holds while a caller stands in [send] between [registerCall],
    which returned [n] for its call [c], and [Write]: the call exists and
    carries [n], and [pending] holds under [n] that call or nothing. *)
Definition writing_inv (s : Conc.Sys) : Prop :=
  ∀ c n sync, Conc.sender s = Conc.SendWrite c n sync →
    Seq <$> heap (Conc.st s) !! c = Some n ∧
    ∀ c', pending (client (Conc.st s)) !! n = Some c' → c' = c.

(** What holds of the codec log in every state a client reaches: the
    requests were written in the order of their registration, each once,
    and all but the one of the caller now in [send]; the codec was closed
    once if [closing] is set, and never otherwise; after the codec was
    closed at most one request was written, that of the caller that was
    in [send] at that time. *)
Record wire_inv (s : Conc.Sys) : Prop := mk_wire_inv {
  inv_written :
    written (wire (Conc.st s)) ++ in_flight (Conc.sender s) = Conc.issued s;
  inv_closes :
    closes (wire (Conc.st s)) = if closing (client (Conc.st s)) then 1 else 0;
  inv_after_close :
    length (written (after_close (wire (Conc.st s)))) +
      length (in_flight (Conc.sender s)) ≤ 1
}.

(** What holds of the queues that [Client.Call] makes, in every state a
    client reaches: such a queue has capacity 1; the queue of a call
    exists; no two calls have the same queue of [Client.Call]; the queue of
    a call of [Client.Call] that was not completed is empty. *)
Record queue_inv (s : Conc.Sys) : Prop := mk_queue_inv {
  q_cap : ∀ d, d ∈ Conc.owned s →
    ccap <$> chans (Conc.st s) !! d = Some 1;
  q_done : ∀ c d, Done <$> heap (Conc.st s) !! c = Some d →
    d < length (chans (Conc.st s));
  q_one : ∀ c1 c2 d,
    Done <$> heap (Conc.st s) !! c1 = Some d →
    Done <$> heap (Conc.st s) !! c2 = Some d →
    d ∈ Conc.owned s → c1 = c2;
  q_empty : ∀ c d,
    Done <$> heap (Conc.st s) !! c = Some d → d ∈ Conc.owned s →
    c ∉ signals (Conc.st s) →
    cbuf <$> chans (Conc.st s) !! d = Some []
}.

(** Once [terminateCalls] has begun, every pending call was completed or
    is still to be visited by its loop. *)
Definition swept (s : Conc.Sys) : Prop :=
  Conc.live (Conc.recv s) = false →
  ∀ k c, pending (client (Conc.st s)) !! k = Some c →
    c ∈ signals (Conc.st s) ∨ (k, c) ∈ Conc.to_visit (Conc.recv s).

(** ** Example states *)

(** A fresh client after [Go] was called twice with a nil queue and both
    writes succeeded: calls 0 and 1 are pending. *)
Definition two_in_flight : State :=
  mkState
    (mkClient (codec.mkHeader "Foo.Sum" 1 EmptyString) 2
       (<[1%Z := 1]> (<[0%Z := 0]> ∅)) false false)
    [mkCall 0 "Foo.Sum" "1" "0" None 0; mkCall 1 "Foo.Sum" "2" "0" None 1]
    [mkChan 10 []; mkChan 10 []]
    [codec.OpWrite (codec.mkHeader "Foo.Sum" 0 EmptyString) "1";
     codec.OpWrite (codec.mkHeader "Foo.Sum" 1 EmptyString) "2"]
    [].

(** The response to call 0, with a body that cannot be decoded. *)
Definition undecodable_reply_0 : list (codec.HeaderRes * codec.BodyRes) :=
  [(codec.HeaderOk (codec.mkHeader "Foo.Sum" 0 EmptyString),
    codec.BodyErr "unexpected EOF")].

(** One call registered and its write failed, one completed by its
    response, one left pending when [ReadHeader] fails. *)
Definition sample_run : list Conc.Event :=
  [Conc.EvGo "Foo.Sum" "1" "0" None; Conc.EvWrite (Some "broken pipe");
   Conc.EvSendDone;
   Conc.EvGo "Foo.Sum" "2" "0" None; Conc.EvWrite None;
   Conc.EvGo "Foo.Sum" "3" "0" None; Conc.EvWrite None;
   Conc.EvReadHeader (codec.HeaderOk (codec.mkHeader "Foo.Sum" 1 EmptyString));
   Conc.EvReadBody (codec.BodyOk "2"); Conc.EvRecvDone;
   Conc.EvReadHeader (codec.HeaderErr "EOF");
   Conc.EvTerminate [(2%Z, 2)]; Conc.EvRange; Conc.EvReturn;
   Conc.EvGo "Foo.Sum" "4" "0" None; Conc.EvSendDone].

(** Three callers register before any request is written out. *)
Definition three_registrations : list Conc.Event :=
  [Conc.EvGo "Foo.Sum" "1" "0" None; Conc.EvWrite None;
   Conc.EvCall "Foo.Sum" "2" "0"; Conc.EvWrite None;
   Conc.EvGo "Foo.Sum" "3" "0" None].

(** [n] calls of [Go] with a nil queue, the request of each written
    before the next call. *)
Definition registrations (n : nat) : list Conc.Event :=
  mjoin (replicate n [Conc.EvGo "Foo.Sum" "1" "0" None; Conc.EvWrite None]).

(** The response to call 0 arrives while its caller is still in
    [Write]. *)
Definition answered_before_written : list Conc.Event :=
  [Conc.EvCall "Foo.Sum" "1" "0";
   Conc.EvReadHeader (codec.HeaderOk (codec.mkHeader "Foo.Sum" 0 EmptyString))].

(** A fresh client and one call allocated for it, with a queue of its
    own of capacity 1. *)
Definition one_call : State :=
  mkState (mkClient (codec.mkHeader EmptyString 0 EmptyString) 0 ∅ false false)
    [mkCall 0 "Foo.Sum" "1" "0" None 0] [mkChan 1 []] [] [].

(** Call 1 is pending; its queue, of capacity 1, still holds call 0. *)
Definition full_queue : State :=
  mkState
    (mkClient (codec.mkHeader "Foo.Sum" 1 EmptyString) 2 {[1%Z := 1]} false false)
    [mkCall 0 "Foo.Sum" "1" "3" None 0; mkCall 1 "Foo.Sum" "2" "0" None 0]
    [mkChan 1 [0]]
    [codec.OpWrite (codec.mkHeader "Foo.Sum" 0 EmptyString) "1";
     codec.OpWrite (codec.mkHeader "Foo.Sum" 1 EmptyString) "2";
     codec.OpReadHeader; codec.OpReadBody (Some 0)]
    [0].

(** The options of the examples: the default, with no timeout, and one
    of a caller, with a timeout and no codec type. *)
Definition sample_options : list Dial.Option :=
  [Dial.mkOption 3927900 "application/gob" 0; Dial.mkOption 0 EmptyString 10].

(** A call is registered and written; then the client is closed. *)
Definition closed_with_call_0 : list Conc.Event :=
  [Conc.EvGo "Foo.Sum" "1" "0" None; Conc.EvWrite None; Conc.EvClose None].

(** A call of [Client.Call] whose response was read and is about to be
    completed. *)
Definition reply_in_hand : list Conc.Event :=
  [Conc.EvCall "Foo.Sum" "1" "0"; Conc.EvWrite None;
   Conc.EvReadHeader (codec.HeaderOk (codec.mkHeader "Foo.Sum" 0 EmptyString));
   Conc.EvReadBody (codec.BodyOk "3")].

(** * Properties *)

(** ** Basic facts *)

Lemma done_inv c st st' :
  done c st = Ok st' →
  ∃ call ch,
    heap st !! c = Some call ∧ chans st !! Done call = Some ch ∧
    length (cbuf ch) < ccap ch ∧
    st' = mkState (client st) (heap st)
            (<[Done call := mkChan (ccap ch) (cbuf ch ++ [c])]> (chans st))
            (wire st) (signals st ++ [c]).
Proof.
  unfold done. destruct (heap st !! c) as [call|] eqn:Hc; [|done]. simpl.
  destruct (chans st !! Done call) as [ch|] eqn:Hch; [|done]. simpl.
  case_decide; [|done]. intros [= <-]. by exists call, ch.
Qed.

Lemma done_Ok c st call ch :
  heap st !! c = Some call → chans st !! Done call = Some ch →
  length (cbuf ch) < ccap ch →
  done c st = Ok (mkState (client st) (heap st)
                    (<[Done call := mkChan (ccap ch) (cbuf ch ++ [c])]> (chans st))
                    (wire st) (signals st ++ [c])).
Proof.
  intros Hc Hch Hlt. unfold done. rewrite Hc. simpl. rewrite Hch. simpl.
  by rewrite decide_True.
Qed.

Lemma registerCall_unavailable c st :
  closing (client st) || shutdown (client st) = true →
  registerCall c st = (0%Z, Some ErrShutdown, st).
Proof. intros H. unfold registerCall. by rewrite H. Qed.

Lemma registerCall_available c st :
  closing (client st) = false → shutdown (client st) = false →
  registerCall c st =
    (seq (client st), None,
     mkState
       (mkClient (header (client st)) (wrap64 (seq (client st) + 1))
          (<[seq (client st) := c]> (pending (client st))) false false)
       (alter (set_Seq (seq (client st))) c (heap st))
       (chans st) (wire st) (signals st)).
Proof.
  intros Hc Hs. unfold registerCall. rewrite Hc, Hs. simpl.
  unfold with_client, with_call, set_seq, set_pending. simpl.
  by rewrite Hc, Hs.
Qed.

Lemma wrap64_small z : (0 ≤ z < two64)%Z → wrap64 z = z.
Proof. intros. unfold wrap64. by apply Z.mod_small. Qed.

Lemma lookup_alter_heap (f : Call → Call) (c : ptr) (h : list Call) call :
  h !! c = Some call → alter f c h !! c = Some (f call).
Proof. intros H. by rewrite list_lookup_alter_eq, H. Qed.

Lemma done_with_call c f st call ch :
  heap st !! c = Some call →
  Done (f call) = Done call →
  chans st !! Done call = Some ch →
  length (cbuf ch) < ccap ch →
  done c (with_call c f st) =
    Ok (mkState (client st) (alter f c (heap st))
          (<[Done call := mkChan (ccap ch) (cbuf ch ++ [c])]> (chans st))
          (wire st) (signals st ++ [c])).
Proof.
  intros Hc Hf Hch Hlt.
  rewrite (done_Ok c _ (f call) ch); simpl; rewrite ?Hf; try done.
  by apply lookup_alter_heap.
Qed.

(** ** The serialized send path *)

Lemma send_unavailable wres c st call ch :
  heap st !! c = Some call →
  chans st !! Done call = Some ch →
  length (cbuf ch) < ccap ch →
  closing (client st) || shutdown (client st) = true →
  send wres c st =
    Ok (mkState (client st) (alter (set_Error ErrShutdown) c (heap st))
          (<[Done call := mkChan (ccap ch) (cbuf ch ++ [c])]> (chans st))
          (wire st) (signals st ++ [c])).
Proof.
  intros Hc Hch Hlt Hdown. unfold send, send_begin.
  rewrite (registerCall_unavailable _ _ Hdown).
  by rewrite (done_with_call c _ st call ch).
Qed.

Lemma send_written c st call :
  heap st !! c = Some call →
  closing (client st) = false → shutdown (client st) = false →
  send None c st =
    Ok (mkState
          (mkClient
             (codec.mkHeader (ServiceMethod call) (seq (client st)) EmptyString)
             (wrap64 (seq (client st) + 1))
             (<[seq (client st) := c]> (pending (client st))) false false)
          (alter (set_Seq (seq (client st))) c (heap st))
          (chans st)
          (wire st ++
             [codec.OpWrite
                (codec.mkHeader (ServiceMethod call) (seq (client st)) EmptyString)
                (Args call)])
          (signals st)).
Proof.
  intros Hc Hcl Hsh. unfold send, send_begin.
  rewrite (registerCall_available _ _ Hcl Hsh). simpl.
  unfold send_end. simpl.
  by rewrite (lookup_alter_heap _ _ _ _ Hc).
Qed.

Lemma send_write_failed e c st call ch :
  heap st !! c = Some call →
  chans st !! Done call = Some ch →
  length (cbuf ch) < ccap ch →
  closing (client st) = false → shutdown (client st) = false →
  send (Some e) c st =
    Ok (mkState
          (mkClient
             (codec.mkHeader (ServiceMethod call) (seq (client st)) EmptyString)
             (wrap64 (seq (client st) + 1))
             (delete (seq (client st)) (pending (client st))) false false)
          (alter (set_Error e) c (alter (set_Seq (seq (client st))) c (heap st)))
          (<[Done call := mkChan (ccap ch) (cbuf ch ++ [c])]> (chans st))
          (wire st ++
             [codec.OpWrite
                (codec.mkHeader (ServiceMethod call) (seq (client st)) EmptyString)
                (Args call)])
          (signals st ++ [c])).
Proof.
  intros Hc Hch Hlt Hcl Hsh. unfold send, send_begin.
  rewrite (registerCall_available _ _ Hcl Hsh). simpl.
  unfold send_end. simpl.
  rewrite (lookup_alter_heap _ _ _ _ Hc). simpl.
  rewrite lookup_insert_eq.
  erewrite (done_with_call c _ _ (set_Seq (seq (client st)) call) ch); simpl;
    eauto using lookup_alter_heap.
  by rewrite delete_insert_eq.
Qed.

(** ** Allocation *)

Lemma lookup_last {A} (l : list A) (x : A) : (l ++ [x]) !! length l = Some x.
Proof. by apply list_lookup_middle. Qed.

Lemma alter_last {A} (f : A → A) (l : list A) (x : A) :
  alter f (length l) (l ++ [x]) = l ++ [f x].
Proof.
  replace (length l) with (length l + 0) at 1 by lia.
  by rewrite alter_app_r.
Qed.

Lemma insert_last {A} (l : list A) (x y : A) :
  <[length l := y]> (l ++ [x]) = l ++ [y].
Proof.
  replace (length l) with (length l + 0) at 1 by lia.
  by rewrite insert_app_r.
Qed.

(** ** Closing *)

(** On a closed client [Client.Call] never reaches the codec; it returns
    [ErrShutdown] unless the [select] takes the case of the context. *)
Lemma Client_Call_closing ctx pick sm args reply wres st :
  closing (client st) = true →
  ∃ r st',
    Client_Call ctx pick sm args reply wres st = Ok (r, st') ∧
    wire st' = wire st ∧
    (ctx = CtxLive ∨ pick = PickDone → r = Some ErrShutdown) ∧
    (r = Some ErrShutdown ∨
     ∃ e, ctx = CtxDone e ∧ r = Some ("rpc client: call failed: " +:+ e)).
Proof.
  intros Hcl. unfold Client_Call, make_chan, Go, Go_call. simpl.
  rewrite lookup_last. simpl.
  unfold send, send_begin.
  rewrite registerCall_unavailable by (simpl; by rewrite Hcl).
  erewrite done_Ok; simpl.
  2:{ rewrite alter_last. apply lookup_last. }
  2:{ apply lookup_last. }
  2:{ simpl. lia. }
  simpl. unfold Call_select. simpl.
  rewrite alter_last, lookup_last. simpl.
  rewrite insert_last, lookup_last. simpl.
  destruct ctx as [|e]; [|destruct pick]; simpl.
  - rewrite insert_last, lookup_last. simpl. eexists _, _. repeat split; eauto.
  - eexists _, _. repeat split; eauto; try (intros [?|?]; done).
  - rewrite insert_last, lookup_last. simpl. eexists _, _. repeat split; eauto.
Qed.

(** ** The completion queue of [Go] *)

Lemma send_fresh_queue wres st call n :
  Done call = length (chans st) → 0 < n →
  ∃ st' call',
    send wres (length (heap st))
      (mkState (client st) (heap st ++ [call]) (chans st ++ [mkChan n []])
         (wire st) (signals st)) = Ok st' ∧
    heap st' !! length (heap st) = Some call' ∧
    Done call' = Done call ∧
    ccap <$> chans st' !! length (chans st) = Some n.
Proof.
  intros Hd Hn.
  set (st2 := mkState _ _ _ _ _).
  assert (Hc : heap st2 !! length (heap st) = Some call) by apply lookup_last.
  assert (Hch : chans st2 !! Done call = Some (mkChan n [])).
  { rewrite Hd. apply lookup_last. }
  destruct (closing (client st2) || shutdown (client st2)) eqn:Hav.
  - rewrite (send_unavailable wres _ st2 call (mkChan n [])) by (simpl; done || lia).
    eexists _, _. split; [done|]. simpl. rewrite alter_last, lookup_last.
    split; [done|]. split; [done|]. by rewrite Hd, insert_last, lookup_last.
  - apply orb_false_elim in Hav as [Hcl Hsh]. destruct wres as [e|].
    + rewrite (send_write_failed e _ st2 call (mkChan n [])) by (simpl; done || lia).
      eexists _, _. split; [done|]. simpl. rewrite !alter_last, lookup_last.
      split; [done|]. split; [done|]. by rewrite Hd, insert_last, lookup_last.
    + rewrite (send_written _ st2 call) by done.
      eexists _, _. split; [done|]. simpl. rewrite alter_last, lookup_last.
      split; [done|]. split; [done|]. by rewrite lookup_last.
Qed.

(** [send] only appends to the queues and keeps the queue of each call. *)
Lemma done_keeps c st st' :
  done c st = Ok st' →
  heap st' = heap st ∧
  ∀ d ch, chans st !! d = Some ch →
    ∃ ch', chans st' !! d = Some ch' ∧ ccap ch' = ccap ch.
Proof.
  intros (call & ch0 & Hc & Hch & Hlt & ->)%done_inv. simpl. split; [done|].
  intros d ch Hd. destruct (decide (d = Done call)) as [->|Hne].
  - rewrite list_lookup_insert_eq by (by eapply lookup_lt_Some).
    eexists. split; [done|]. simpl. congruence.
  - rewrite list_lookup_insert_ne by done. eauto.
Qed.

Lemma send_keeps wres c st st' call :
  send wres c st = Ok st' →
  heap st !! c = Some call →
  (∃ call', heap st' !! c = Some call' ∧ Done call' = Done call) ∧
  ∀ d ch, chans st !! d = Some ch →
    ∃ ch', chans st' !! d = Some ch' ∧ ccap ch' = ccap ch.
Proof.
  intros Hsend Hc. unfold send, send_begin, registerCall in Hsend.
  destruct (closing (client st) || shutdown (client st)); simpl in Hsend.
  - destruct (done c _) as [st1| |] eqn:Hdone; simplify_eq/=.
    apply done_keeps in Hdone as [Hh Hq]. simpl in *. split; [|done].
    rewrite Hh, (lookup_alter_heap _ _ _ _ Hc). eauto.
  - unfold send_end in Hsend. simpl in Hsend.
    rewrite (lookup_alter_heap _ _ _ _ Hc) in Hsend. simpl in Hsend.
    destruct wres as [e|]; simplify_eq/=.
    + rewrite lookup_insert_eq in Hsend.
      apply done_keeps in Hsend as [Hh Hq]. simpl in *. split; [|done].
      rewrite Hh, list_alter_alter_eq, (lookup_alter_heap _ _ _ _ Hc). eauto.
    + split; [|eauto]. rewrite (lookup_alter_heap _ _ _ _ Hc). eauto.
Qed.

(** C8, as the code has it. [Go] with a nil queue makes one of capacity
    10; with a queue of capacity 0 it panics before anything is sent; a
    queue of capacity at least 1 becomes the queue of the call, with its
    capacity. *)
Theorem Go_completion_queue (serviceMethod : string) (args reply : payload)
    (wres : option gerror) (st : State) :
  (∃ c st' call,
     Go serviceMethod args reply None wres st = Ok (c, st') ∧
     heap st' !! c = Some call ∧
     chans st !! Done call = None ∧
     ccap <$> chans st' !! Done call = Some 10)
  ∧
  (∀ d ch, chans st !! d = Some ch → ccap ch = 0 →
     Go serviceMethod args reply (Some d) wres st =
       Panic "[Go] rpc client: done channel is unbuffered")
  ∧
  (∀ d ch, chans st !! d = Some ch → 1 ≤ ccap ch →
     Go_call serviceMethod args reply (Some d) st =
       Ok (new_call (mkCall 0 serviceMethod args reply None d) st) ∧
     ∀ c st', Go serviceMethod args reply (Some d) wres st = Ok (c, st') →
       ∃ call ch', heap st' !! c = Some call ∧ Done call = d ∧
         chans st' !! d = Some ch' ∧ ccap ch' = ccap ch).
Proof.
  split; [|split].
  - unfold Go, Go_call, make_chan, new_call. simpl.
    destruct (send_fresh_queue wres st
                (mkCall 0 serviceMethod args reply None (length (chans st))) 10)
      as (st' & call' & Hsend & Hc & Hd & Hcap); [done|lia|].
    simpl in Hsend. rewrite Hsend. simpl.
    exists (length (heap st)), st', call'. rewrite Hd. simpl.
    repeat split; try done. apply lookup_ge_None. lia.
  - intros d ch Hd Hcap. unfold Go, Go_call. rewrite Hd. simpl.
    by rewrite decide_True.
  - intros d ch Hd Hcap. unfold Go, Go_call. rewrite Hd. simpl.
    rewrite decide_False by lia. split; [done|]. simpl.
    intros c st' Hgo.
    destruct (send wres _ _) as [st1| |] eqn:Hsend; simplify_eq/=.
    eapply send_keeps in Hsend as [(call' & Hc' & Hd') Hq].
    2:{ simpl. apply lookup_last. }
    destruct (Hq d ch) as (ch' & Hch' & Hcap'); [done|].
    exists call', ch'. by repeat split.
Qed.

(** The theorem at a fresh client, with a queue of capacity 3. *)
Lemma Go_completion_queue_witness :
  chans (snd (make_chan 3 newClientCodec)) !! 0 = Some (mkChan 3 []) ∧
  1 ≤ ccap (mkChan 3 []) ∧
  Go_call "Foo.Sum" "1" "0" (Some 0) (snd (make_chan 3 newClientCodec)) =
    Ok (new_call (mkCall 0 "Foo.Sum" "1" "0" None 0)
          (snd (make_chan 3 newClientCodec))).
Proof.
  split; [reflexivity|]. split; [simpl; lia|].
  destruct (Go_completion_queue "Foo.Sum" "1" "0" None
              (snd (make_chan 3 newClientCodec))) as (_ & _ & H).
  destruct (H 0 (mkChan 3 []) eq_refl ltac:(simpl; lia)) as [H' _]. exact H'.
Defined.

(** C8, as stated, fails: the queue [Go] makes for a nil argument has
    capacity 10, not 1. *)
Lemma Go_default_capacity_is_not_1 :
  ∃ c st' call ch,
    Go "Foo.Sum" "1" "0" None None newClientCodec = Ok (c, st') ∧
    heap st' !! c = Some call ∧
    chans st' !! Done call = Some ch ∧
    ccap ch = 10 ∧ ccap ch ≠ 1.
Proof.
  eexists _, _, _, _. split; [vm_compute; reflexivity|].
  split; [reflexivity|]. split; [reflexivity|]. split; [reflexivity|].
  simpl. lia.
Qed.

(** ** Bulk termination *)

Lemma done_with_call_inv c f st st1 :
  done c (with_call c f st) = Ok st1 →
  ∃ call ch,
    heap st !! c = Some call ∧ chans st !! Done (f call) = Some ch ∧
    length (cbuf ch) < ccap ch ∧
    st1 = mkState (client st) (alter f c (heap st))
            (<[Done (f call) := mkChan (ccap ch) (cbuf ch ++ [c])]> (chans st))
            (wire st) (signals st ++ [c]).
Proof.
  intros (call' & ch & Hc & Hch & Hlt & ->)%done_inv. simpl in *.
  rewrite list_lookup_alter_eq in Hc.
  destruct (heap st !! c) as [call|] eqn:Hc0; simplify_eq/=.
  by exists call, ch.
Qed.

Lemma set_Error_Done e call : Done (set_Error e call) = Done call.
Proof. done. Qed.

Lemma lookup_alter_Done (f : Call → Call) c (h : list Call) c' :
  (∀ x, Done (f x) = Done x) →
  Done <$> alter f c h !! c' = Done <$> h !! c'.
Proof.
  intros Hf. rewrite list_lookup_alter. case_decide; [subst|done].
  destruct (h !! c'); simpl; by rewrite ?Hf.
Qed.

Lemma lookup_alter_Seq (f : Call → Call) c (h : list Call) c' :
  (∀ x, Seq (f x) = Seq x) →
  Seq <$> alter f c h !! c' = Seq <$> h !! c'.
Proof.
  intros Hf. rewrite list_lookup_alter. case_decide; [subst|done].
  destruct (h !! c'); simpl; by rewrite ?Hf.
Qed.

(** Completing a call keeps every call that is queued in its queue. *)
Lemma queued_done_with_call c f st st1 c' :
  (∀ x, Done (f x) = Done x) →
  done c (with_call c f st) = Ok st1 →
  (queued c' st ∨ c' = c) → queued c' st1.
Proof.
  intros Hf (call & ch & Hc & Hch & Hlt & ->)%done_with_call_inv Hq.
  rewrite Hf in *. unfold queued. simpl.
  assert (Hd : Done call < length (chans st)) by by eapply lookup_lt_Some.
  destruct Hq as [(call' & ch' & Hc' & Hch' & Hin)| ->].
  - pose proof (lookup_alter_Done f c (heap st) c' Hf) as HD.
    rewrite Hc' in HD. simpl in HD.
    destruct (alter f c (heap st) !! c') as [call2|] eqn:H2; simplify_eq/=.
    exists call2. rewrite HD.
    destruct (decide (Done call' = Done call)) as [Heq|Hne].
    + rewrite Heq, list_lookup_insert_eq by done. eexists. split; [done|].
      split; [done|]. simpl. rewrite Heq in Hch'. simplify_eq. set_solver.
    + rewrite list_lookup_insert_ne by done. eauto.
  - exists (f call). rewrite (lookup_alter_heap _ _ _ _ Hc), Hf.
    rewrite list_lookup_insert_eq by done. eexists. split; [done|].
    split; [done|]. simpl. set_solver.
Qed.

Lemma terminate_range_inv err entries st st' :
  terminate_range err entries st = Ok st' →
  client st' = client st ∧ wire st' = wire st ∧
  signals st' = signals st ++ entries.*2 ∧
  length (heap st') = length (heap st) ∧
  (∀ c, Seq <$> heap st' !! c = Seq <$> heap st !! c) ∧
  (∀ c, Done <$> heap st' !! c = Done <$> heap st !! c) ∧
  (∀ c, c ∈ entries.*2 → Error <$> heap st' !! c = Some (Some err)) ∧
  (∀ c, c ∉ entries.*2 → heap st' !! c = heap st !! c) ∧
  (∀ c, queued c st ∨ c ∈ entries.*2 → queued c st').
Proof.
  revert st. induction entries as [|[k c] rest IH]; intros st Hrun.
  - simpl in Hrun. simplify_eq. rewrite app_nil_r.
    repeat split; try done.
    + intros c Hin. by apply elem_of_nil in Hin.
    + intros c [?|Hin]; [done|]. by apply elem_of_nil in Hin.
  - simpl in Hrun.
    destruct (done c _) as [st1| |] eqn:Hdone; simplify_eq/=.
    pose proof (λ c', queued_done_with_call c _ st st1 c'
                        (set_Error_Done err) Hdone) as Hq1.
    pose proof Hdone as (call & ch & Hc & Hch & Hlt & ->)%done_with_call_inv.
    destruct (IH _ Hrun) as (Hcl & Hw & Hs & Hlen & Hseq & Hdn & Herr & Hfr & Hq).
    simpl in *. rewrite Hcl, Hw, Hs, Hlen, length_alter, <- app_assoc.
    repeat split; try done.
    + intros c'. rewrite Hseq. by apply lookup_alter_Seq.
    + intros c'. rewrite Hdn. by apply lookup_alter_Done.
    + intros c' Hin. destruct (decide (c' ∈ rest.*2)) as [?|Hnin]; [by apply Herr|].
      apply elem_of_cons in Hin as [->|?]; [|done].
      by rewrite (Hfr _ Hnin), (lookup_alter_heap _ _ _ _ Hc).
    + intros c' Hnin. apply not_elem_of_cons in Hnin as [Hne Hnin].
      by rewrite (Hfr _ Hnin), list_lookup_alter_ne.
    + intros c' Hc'. apply Hq.
      destruct (decide (c' ∈ rest.*2)) as [?|Hnin]; [by right|]. left.
      apply Hq1. destruct Hc' as [?|Hin]; [by left|].
      apply elem_of_cons in Hin as [->|?]; [by right|done].
Qed.

Lemma load_cons st e rest d :
  load st (e :: rest) d =
    (if decide (Done <$> heap st !! e.2 = Some d) then 1 else 0) + load st rest d.
Proof. unfold load. rewrite filter_cons. by case_decide. Qed.

Lemma load_ext st st1 entries d :
  (∀ c, Done <$> heap st1 !! c = Done <$> heap st !! c) →
  load st1 entries d = load st entries d.
Proof.
  intros H. unfold load. f_equal. apply list_filter_iff. intros e. by rewrite H.
Qed.

Lemma has_room_perm st l1 l2 : l1 ≡ₚ l2 → has_room st l1 → has_room st l2.
Proof.
  intros Hp [Hv Hr]. split.
  - intros e He. apply Hv. by rewrite Hp.
  - intros d ch Hd. unfold load. rewrite <- Hp. by apply Hr.
Qed.

Lemma terminate_range_returns err entries st :
  has_room st entries → ∃ st', terminate_range err entries st = Ok st'.
Proof.
  revert st. induction entries as [|[k c] rest IH]; intros st [Hv Hr].
  - by eexists.
  - destruct (Hv (k, c)) as (call & ch & Hc & Hch); [by left|]. simpl in *.
    assert (Hlt : length (cbuf ch) < ccap ch).
    { pose proof (Hr _ _ Hch) as Hle. rewrite load_cons in Hle. simpl in Hle.
      rewrite Hc in Hle. simpl in Hle. rewrite decide_True in Hle by done. lia. }
    rewrite (done_with_call c _ st call ch) by done. simpl.
    apply IH. split; simpl.
    + intros e He. destruct (Hv e) as (call' & ch' & Hc' & Hch'); [by right|].
      pose proof (lookup_alter_Done (set_Error err) c (heap st) e.2
                    (set_Error_Done err)) as HD.
      rewrite Hc' in HD. simpl in HD.
      destruct (alter (set_Error err) c (heap st) !! e.2) as [call2|];
        simplify_eq/=.
      exists call2. rewrite HD.
      apply lookup_lt_Some in Hch'.
      destruct (lookup_lt_is_Some_2
                  (<[Done call:=mkChan (ccap ch) (cbuf ch ++ [c])]> (chans st))
                  (Done call')) as [ch2 Hch2]; [by rewrite length_insert|].
      eauto.
    + intros d ch' Hd.
      rewrite (load_ext st) by (intros; by apply lookup_alter_Done).
      destruct (decide (d = Done call)) as [->|Hne].
      * rewrite list_lookup_insert_eq in Hd by (by eapply lookup_lt_Some).
        simplify_eq/=. pose proof (Hr _ _ Hch) as Hle.
        rewrite load_cons in Hle. simpl in Hle. rewrite Hc in Hle. simpl in Hle.
        rewrite decide_True in Hle by done. rewrite length_app. simpl. lia.
      * rewrite list_lookup_insert_ne in Hd by done.
        pose proof (Hr _ _ Hd) as Hle. rewrite load_cons in Hle. lia.
Qed.

Lemma terminateCalls_inv range err st st' :
  range_ok range →
  terminateCalls range err st = Ok st' →
  shutdown (client st') = true ∧
  pending (client st') = pending (client st) ∧
  closing (client st') = closing (client st) ∧
  wire st' = wire st ∧
  ∀ k c, pending (client st) !! k = Some c →
    Error <$> heap st' !! c = Some (Some err) ∧ queued c st' ∧ c ∈ signals st'.
Proof.
  intros Hrange Hrun. unfold terminateCalls in Hrun.
  apply terminate_range_inv in Hrun
    as (Hcl & Hw & Hs & _ & _ & _ & Herr & _ & Hq).
  simpl in *. rewrite Hcl. simpl. repeat split; try done.
  all: assert (Hin : c ∈ (range (pending (client st))).*2)
    by (apply list_elem_of_fmap; exists (k, c); split; [done|];
        rewrite (Hrange _); by apply elem_of_map_to_list).
  - by apply Herr.
  - apply Hq; by right.
  - rewrite Hs. apply elem_of_app. by right.
Qed.

(** C3, as the code has it. After [terminateCalls(err)] has run,
    [shutdown] is set and every call that was in [pending] has [err] as its
    error and sits in its completion queue; [pending] is left as it was.
    It runs to its end when the queues have room for the pending calls. *)
Theorem terminateCalls_effect (range : gmap Z ptr → list (Z * ptr))
    (err : gerror) (st : State) :
  range_ok range →
  (∀ st', terminateCalls range err st = Ok st' →
     shutdown (client st') = true ∧
     (∀ k c, pending (client st) !! k = Some c →
        Error <$> heap st' !! c = Some (Some err) ∧
        queued c st' ∧ c ∈ signals st') ∧
     pending (client st') = pending (client st))
  ∧
  (has_room st (map_to_list (pending (client st))) →
   ∃ st', terminateCalls range err st = Ok st').
Proof.
  intros Hrange. split.
  - intros st' Hrun.
    destruct (terminateCalls_inv _ _ _ _ Hrange Hrun) as (? & ? & _ & _ & ?).
    done.
  - intros Hroom. unfold terminateCalls. apply terminate_range_returns. simpl.
    eapply has_room_perm; [symmetry; apply Hrange|]. done.
Qed.

(** The theorem at a client with one pending call. *)
Lemma terminateCalls_effect_witness :
  ∃ st',
    terminateCalls map_to_list "EOF"
      (mkState (mkClient (codec.mkHeader "Foo.Sum" 0 EmptyString) 1
                  {[0%Z := 0]} false false)
         [mkCall 0 "Foo.Sum" "1" "0" None 0] [mkChan 1 []] [] []) = Ok st' ∧
    shutdown (client st') = true.
Proof.
  destruct (terminateCalls_effect map_to_list "EOF"
    (mkState (mkClient (codec.mkHeader "Foo.Sum" 0 EmptyString) 1
                {[0%Z := 0]} false false)
       [mkCall 0 "Foo.Sum" "1" "0" None 0] [mkChan 1 []] [] [])) as [H1 H2].
  - intros m. reflexivity.
  - destruct H2 as [st' Hst'].
    + simpl. rewrite map_to_list_singleton. split.
      * intros e ->%list_elem_of_singleton. by eexists _, _.
      * intros [|d] ch Hd; simplify_eq/=. vm_compute. lia.
    + exists st'. split; [exact Hst'|]. by destruct (H1 st' Hst').
Defined.

(** C3, as stated, fails: [terminateCalls] does not clear [pending]. *)
Lemma terminateCalls_keeps_pending :
  ∃ st',
    terminateCalls map_to_list "EOF"
      (mkState (mkClient (codec.mkHeader "Foo.Sum" 0 EmptyString) 1
                  {[0%Z := 0]} false false)
         [mkCall 0 "Foo.Sum" "1" "0" None 0] [mkChan 1 []] [] []) = Ok st' ∧
    pending (client st') !! 0%Z = Some 0 ∧
    pending (client st') ≠ ∅.
Proof.
  eexists. split; [vm_compute; reflexivity|].
  match goal with |- ?m !! _ = _ ∧ _ =>
    assert (H0 : m !! 0%Z = Some 0) by (vm_compute; reflexivity)
  end.
  split; [exact H0|]. intros He. rewrite He in H0. by rewrite lookup_empty in H0.
Qed.

(** ** The inbound dispatch loop *)

Lemma receive_body_inv h call bres st err st' :
  receive_body h call bres st = Ok (err, st') →
  err = body_err bres ∧
  client st' = client st ∧
  signals st' = signals st ++ option_list call ∧
  length (heap st') = length (heap st) ∧
  (∀ c, Seq <$> heap st' !! c = Seq <$> heap st !! c) ∧
  (∀ c, Done <$> heap st' !! c = Done <$> heap st !! c) ∧
  (∀ c, call ≠ Some c → heap st' !! c = heap st !! c) ∧
  (∀ c, queued c st ∨ call = Some c → queued c st') ∧
  wire st' = wire st ++
    [codec.OpReadBody
       (if decide (codec.Error h ≠ EmptyString) then None else call)].
Proof.
  unfold receive_body. destruct call as [c|]; simpl.
  2:{ intros [= <- <-]. simpl. rewrite app_nil_r. case_decide;
      repeat split; try done; intros c [?|?]; done. }
  assert (Hgen : ∀ f o st1 e,
    (∀ x, Done (f x) = Done x) → (∀ x, Seq (f x) = Seq x) →
    (st3 ←r done c (with_call c f (log_op o st)); Ok (e, st3)) = Ok (err, st1) →
    err = e ∧ client st1 = client st ∧ signals st1 = signals st ++ [c] ∧
    length (heap st1) = length (heap st) ∧
    (∀ c', Seq <$> heap st1 !! c' = Seq <$> heap st !! c') ∧
    (∀ c', Done <$> heap st1 !! c' = Done <$> heap st !! c') ∧
    (∀ c', Some c ≠ Some c' → heap st1 !! c' = heap st !! c') ∧
    (∀ c', queued c' st ∨ Some c = Some c' → queued c' st1) ∧
    wire st1 = wire st ++ [o]).
  { intros f o st1 e HfD HfS Hrun.
    destruct (done c _) as [st2| |] eqn:Hdone; simplify_eq/=.
    pose proof (λ c', queued_done_with_call c f _ st1 c' HfD Hdone) as Hq.
    apply done_with_call_inv in Hdone as (call & ch & Hc & Hch & Hlt & ->).
    simpl in *. rewrite length_alter. repeat split; try done.
    - intros c'. by apply lookup_alter_Seq.
    - intros c'. by apply lookup_alter_Done.
    - intros c' Hne. apply list_lookup_alter_ne. congruence.
    - intros c' [Hq'|[= ->]]; apply Hq; [left|by right].
      destruct Hq' as (call' & ch' & ? & ? & ?). by exists call', ch'. }
  case_decide as Herr.
  - intros Hrun. by apply (Hgen (set_Error (codec.Error h))) in Hrun.
  - destruct bres as [v|e]; intros Hrun.
    + by apply (Hgen (set_Reply v)) in Hrun.
    + by apply (Hgen (set_Error ("reading body" +:+ e))) in Hrun.
Qed.

Lemma receive_iter_inv hres bres st err st' :
  receive_iter hres bres st = Ok (err, st') →
  err = read_err (hres, bres) ∧
  shutdown (client st') = shutdown (client st) ∧
  closing (client st') = closing (client st) ∧
  pending (client st') =
    match hres with
    | codec.HeaderOk h => delete (codec.Seq h) (pending (client st))
    | codec.HeaderErr _ => pending (client st)
    end.
Proof.
  unfold receive_iter, read_err. destruct hres as [h|e]; simpl.
  - intros (-> & Hcl & _)%receive_body_inv. by rewrite Hcl.
  - by intros [= <- <-].
Qed.

Lemma receive_loop_inv frames st err st' :
  receive_loop frames st = Ok (err, st') →
  err = head (omap read_err frames) ∧
  shutdown (client st') = shutdown (client st) ∧
  closing (client st') = closing (client st).
Proof.
  revert st. induction frames as [|[hres bres] rest IH]; intros st Hrun.
  - by simplify_eq/=.
  - simpl in Hrun.
    destruct (receive_iter hres bres st) as [[err1 st1]| |] eqn:Hiter;
      simplify_eq/=.
    apply receive_iter_inv in Hiter as (-> & Hsh & Hcl & _).
    destruct (read_err (hres, bres)) as [e|] eqn:He; simplify_eq/=.
    + done.
    + apply IH in Hrun as (-> & -> & ->). done.
Qed.

Lemma receive_loop_cons hres bres rest st :
  receive_loop ((hres, bres) :: rest) st =
    result_bind
      (λ r, match r.1 with
            | Some e => Ok (Some e, r.2)
            | None => receive_loop rest r.2
            end)
      (receive_iter hres bres st).
Proof.
  change (receive_loop ((hres, bres) :: rest) st) with
    ('(err, st1) ←r receive_iter hres bres st;
     match err with
     | Some e => Ok (Some e, st1)
     | None => receive_loop rest st1
     end).
  by destruct (receive_iter hres bres st) as [[? ?]| |].
Qed.

(** A response with an empty error whose body cannot be decoded. *)
Lemma receive_iter_decode_failure h c e st err st1 :
  pending (client st) !! codec.Seq h = Some c →
  codec.Error h = EmptyString →
  receive_iter (codec.HeaderOk h) (codec.BodyErr e) st = Ok (err, st1) →
  err = Some e ∧
  Error <$> heap st1 !! c = Some (Some ("reading body" +:+ e)) ∧
  queued c st1 ∧
  signals st1 = signals st ++ [c] ∧
  pending (client st1) = delete (codec.Seq h) (pending (client st)).
Proof.
  intros Hp Herr Hrun.
  pose proof (receive_iter_inv _ _ _ _ _ Hrun) as (-> & _ & _ & Hpend).
  split; [done|]. unfold receive_iter in Hrun. simpl in Hrun. rewrite Hp in Hrun.
  pose proof (receive_body_inv _ _ _ _ _ _ Hrun)
    as (_ & _ & Hsig & _ & _ & _ & _ & Hq & _).
  unfold receive_body in Hrun. rewrite decide_False in Hrun by (by intros []).
  destruct (done c _) as [st2| |] eqn:Hdone; simplify_eq/=.
  apply done_with_call_inv in Hdone as (call & ch & Hc & _ & _ & ->). simpl.
  rewrite (lookup_alter_heap _ _ _ _ Hc). repeat split; try done.
  apply Hq. by right.
Qed.

Lemma removeCall_absent s st :
  pending (client st) !! s = None → removeCall s st = (None, st).
Proof.
  intros Hs. unfold removeCall, with_client, set_pending. rewrite Hs.
  rewrite delete_id by done. by destruct st as [[] ? ? ? ?].
Qed.

Lemma deliver_Done h bres call : Done (deliver h bres call) = Done call.
Proof. unfold deliver. case_decide; [done|]. by destruct bres. Qed.

(** One iteration on the response to a pending call whose queue has
    room. *)
Lemma receive_iter_pending h bres st c call ch :
  pending (client st) !! codec.Seq h = Some c →
  heap st !! c = Some call →
  chans st !! Done call = Some ch →
  length (cbuf ch) < ccap ch →
  receive_iter (codec.HeaderOk h) bres st =
    Ok (body_err bres,
        mkState
          (set_pending (delete (codec.Seq h) (pending (client st))) (client st))
          (alter (deliver h bres) c (heap st))
          (<[Done call := mkChan (ccap ch) (cbuf ch ++ [c])]> (chans st))
          (wire st ++
             [codec.OpReadHeader;
              codec.OpReadBody
                (if decide (codec.Error h ≠ EmptyString) then None else Some c)])
          (signals st ++ [c])).
Proof.
  intros Hp Hc Hch Hroom.
  unfold receive_iter, removeCall. simpl. rewrite Hp.
  unfold receive_body, deliver. case_decide.
  - change (log_op (codec.OpReadBody None) (with_call c ?f ?s)) with
      (with_call c f (log_op (codec.OpReadBody None) s)).
    erewrite done_with_call; [|exact Hc|done|exact Hch|exact Hroom].
    simpl. by rewrite <- app_assoc.
  - destruct bres as [v|e];
      (erewrite done_with_call; [|exact Hc|done|exact Hch|exact Hroom]);
      simpl; by rewrite <- app_assoc.
Qed.

(** One iteration on a response to no pending call. *)
Lemma receive_iter_not_pending h bres st :
  pending (client st) !! codec.Seq h = None →
  receive_iter (codec.HeaderOk h) bres st =
    Ok (body_err bres,
        mkState (client st) (heap st) (chans st)
          (wire st ++ [codec.OpReadHeader; codec.OpReadBody None]) (signals st)).
Proof.
  intros Hp. unfold receive_iter.
  rewrite removeCall_absent by done. unfold receive_body, log_op. simpl.
  by rewrite <- app_assoc.
Qed.

Lemma has_room_ext st st1 entries :
  heap st1 = heap st → chans st1 = chans st →
  has_room st entries → has_room st1 entries.
Proof.
  intros Hh Hc [Hv Hr]. split.
  - intros e He. rewrite Hh, Hc. by apply Hv.
  - intros d ch. rewrite Hc. intros Hd. unfold load. rewrite Hh. by apply Hr.
Qed.

(** Completing the first of the calls the queues have room for leaves
    room for the others. *)
Lemma has_room_done c f cl w sg st call ch k rest :
  (∀ x, Done (f x) = Done x) →
  heap st !! c = Some call → chans st !! Done call = Some ch →
  has_room st ((k, c) :: rest) →
  length (cbuf ch) < ccap ch ∧
  has_room (mkState cl (alter f c (heap st))
              (<[Done call := mkChan (ccap ch) (cbuf ch ++ [c])]> (chans st))
              w sg) rest.
Proof.
  intros Hf Hc Hch [Hv Hr].
  assert (Hlt : length (cbuf ch) < ccap ch).
  { pose proof (Hr _ _ Hch) as Hle. rewrite load_cons in Hle. simpl in Hle.
    rewrite Hc in Hle. simpl in Hle. rewrite decide_True in Hle by done. lia. }
  split; [done|]. split; simpl.
  - intros e He. destruct (Hv e) as (call' & ch' & Hc' & Hch'); [by right|].
    pose proof (lookup_alter_Done f c (heap st) e.2 Hf) as HD.
    rewrite Hc' in HD. simpl in HD.
    destruct (alter f c (heap st) !! e.2) as [call2|]; simplify_eq/=.
    exists call2. rewrite HD.
    apply lookup_lt_Some in Hch'.
    destruct (lookup_lt_is_Some_2
                (<[Done call:=mkChan (ccap ch) (cbuf ch ++ [c])]> (chans st))
                (Done call')) as [ch2 Hch2]; [by rewrite length_insert|].
    eauto.
  - intros d ch' Hd.
    rewrite (load_ext st) by (intros; by apply lookup_alter_Done).
    destruct (decide (d = Done call)) as [->|Hne].
    + rewrite list_lookup_insert_eq in Hd by (by eapply lookup_lt_Some).
      simplify_eq/=. pose proof (Hr _ _ Hch) as Hle.
      rewrite load_cons in Hle. simpl in Hle. rewrite Hc in Hle. simpl in Hle.
      rewrite decide_True in Hle by done. rewrite length_app. simpl. lia.
    + rewrite list_lookup_insert_ne in Hd by done.
      pose proof (Hr _ _ Hd) as Hle. rewrite load_cons in Hle. lia.
Qed.

(** An iteration of the loop returns when the queues have room for the
    pending calls, and leaves room for the calls still pending. *)
Lemma receive_iter_returns hres bres st :
  has_room st (map_to_list (pending (client st))) →
  ∃ err st1,
    receive_iter hres bres st = Ok (err, st1) ∧
    has_room st1 (map_to_list (pending (client st1))).
Proof.
  intros Hroom. destruct hres as [h|e].
  - destruct (pending (client st) !! codec.Seq h) as [c|] eqn:Hp.
    + assert (Hperm : map_to_list (pending (client st)) ≡ₚ
                (codec.Seq h, c) :: map_to_list (delete (codec.Seq h) (pending (client st))))
        by (symmetry; by apply map_to_list_delete).
      apply (has_room_perm _ _ _ Hperm) in Hroom.
      destruct (proj1 Hroom (codec.Seq h, c)) as (call & ch & Hc & Hch);
        [by left|]. simpl in Hc.
      destruct (has_room_done c (deliver h bres)
                  (set_pending (delete (codec.Seq h) (pending (client st))) (client st))
                  (wire st ++
                     [codec.OpReadHeader;
                      codec.OpReadBody
                        (if decide (codec.Error h ≠ EmptyString) then None else Some c)])
                  (signals st ++ [c]) st call ch _ _
                  (deliver_Done h bres) Hc Hch Hroom) as [Hlt Hroom'].
      eexists _, _. split; [by apply receive_iter_pending|]. exact Hroom'.
    + eexists _, _. split; [by apply receive_iter_not_pending|].
      by apply (has_room_ext st).
  - eexists _, _. split; [done|]. by apply (has_room_ext st).
Qed.

Lemma receive_loop_returns frames st :
  has_room st (map_to_list (pending (client st))) →
  ∃ err st1,
    receive_loop frames st = Ok (err, st1) ∧
    has_room st1 (map_to_list (pending (client st1))).
Proof.
  revert st. induction frames as [|[hres bres] rest IH]; intros st Hroom.
  - by eexists _, _.
  - destruct (receive_iter_returns hres bres st Hroom)
      as (err & st1 & Hiter & Hroom1).
    rewrite receive_loop_cons, Hiter. simpl.
    destruct err as [e|]; [by eexists _, _|]. by apply IH.
Qed.

(** The loop takes out of [pending] the numbers of the headers it read,
    and no other. *)
Lemma receive_loop_pending frames st err st1 :
  receive_loop frames st = Ok (err, st1) →
  (∀ k c, pending (client st1) !! k = Some c →
     pending (client st) !! k = Some c) ∧
  (∀ k, (∀ h b, (codec.HeaderOk h, b) ∈ frames → codec.Seq h ≠ k) →
     pending (client st1) !! k = pending (client st) !! k).
Proof.
  revert st. induction frames as [|[hres bres] rest IH]; intros st Hloop.
  - by simplify_eq/=.
  - rewrite receive_loop_cons in Hloop.
    destruct (receive_iter hres bres st) as [[err1 st2]| |] eqn:Hiter;
      simplify_eq/=.
    apply receive_iter_inv in Hiter as (-> & _ & _ & Hp).
    assert (Hsub : ∀ k c, pending (client st2) !! k = Some c →
                          pending (client st) !! k = Some c).
    { intros k c. rewrite Hp. destruct hres as [h|e]; [|done].
      by intros [_ ?]%lookup_delete_Some. }
    assert (Hkeep : ∀ k,
      (∀ h b, (codec.HeaderOk h, b) ∈ (hres, bres) :: rest → codec.Seq h ≠ k) →
      pending (client st2) !! k = pending (client st) !! k).
    { intros k Hk. rewrite Hp. destruct hres as [h|e]; [|done].
      apply lookup_delete_ne. apply (Hk h bres). by left. }
    destruct (read_err (hres, bres)) as [e|]; simplify_eq/=; [done|].
    destruct (IH _ Hloop) as [Hsub' Hkeep']. split.
    + intros k c Hk. by apply Hsub, Hsub'.
    + intros k Hk. rewrite Hkeep' by (intros h b Hin; apply (Hk h b); by right).
      by apply Hkeep.
Qed.

(** C4, as the code has it. When the queues have room for the pending
    calls, [receive] runs to its end on the frames it reads. The loop ends,
    and [terminateCalls] runs, exactly when a read fails, be it
    [ReadHeader] or [ReadBody]: [err] is the first read error of the
    frames; with none the loop has not ended and nothing is terminated;
    with one, [terminateCalls] runs with it, sets [shutdown], and every
    call still in [pending], among them every call whose number no
    header carried, has it as its error and is completed. A body that
    cannot be decoded is recorded as the error of its call, which is
    completed; the loop then ends and the calls still pending get the
    decode error. *)
Theorem receive_exits_on_read_error (range : gmap Z ptr → list (Z * ptr))
    (frames : list (codec.HeaderRes * codec.BodyRes)) (st : State) :
  range_ok range →
  has_room st (map_to_list (pending (client st))) →
  ∃ err st1 st',
    receive_loop frames st = Ok (err, st1) ∧
    receive range frames st = Ok (err, st') ∧
    err = head (omap read_err frames) ∧
    (err = None →
       st' = st1 ∧ shutdown (client st') = shutdown (client st)) ∧
    (∀ e, err = Some e →
       terminateCalls range e st1 = Ok st' ∧
       shutdown (client st') = true ∧
       pending (client st') = pending (client st1) ∧
       (∀ k c, pending (client st1) !! k = Some c →
          Error <$> heap st' !! c = Some (Some e) ∧
          queued c st' ∧ c ∈ signals st') ∧
       (∀ k c, pending (client st) !! k = Some c →
          (∀ h b, (codec.HeaderOk h, b) ∈ frames → codec.Seq h ≠ k) →
          pending (client st1) !! k = Some c)) ∧
    (∀ h c e rest,
       frames = (codec.HeaderOk h, codec.BodyErr e) :: rest →
       pending (client st) !! codec.Seq h = Some c →
       codec.Error h = EmptyString →
       err = Some e ∧
       receive_iter (codec.HeaderOk h) (codec.BodyErr e) st = Ok (Some e, st1) ∧
       Error <$> heap st1 !! c = Some (Some ("reading body" +:+ e)) ∧
       queued c st1 ∧
       signals st1 = signals st ++ [c] ∧
       pending (client st1) = delete (codec.Seq h) (pending (client st)) ∧
       ∀ k' c', k' ≠ codec.Seq h → pending (client st) !! k' = Some c' →
         Error <$> heap st' !! c' = Some (Some e) ∧ c' ∈ signals st').
Proof.
  intros Hrange Hroom.
  destruct (receive_loop_returns frames st Hroom) as (err & st1 & Hloop & Hroom1).
  pose proof (receive_loop_inv _ _ _ _ Hloop) as (Herr & Hsh & _).
  pose proof (receive_loop_pending _ _ _ _ Hloop) as [_ Hkeep].
  assert (Hterm : ∀ e, ∃ st', terminateCalls range e st1 = Ok st').
  { intros e. unfold terminateCalls. apply terminate_range_returns. simpl.
    eapply has_room_perm; [symmetry; apply Hrange|]. done. }
  destruct err as [e1|].
  - destruct (Hterm e1) as [st' Hst'].
    pose proof (terminateCalls_inv _ _ _ _ Hrange Hst')
      as (Hdown & Hpend & _ & _ & Hall).
    exists (Some e1), st1, st'. split; [done|]. split.
    { unfold receive. rewrite Hloop. simpl. by rewrite Hst'. }
    split; [done|]. split; [done|]. split.
    + intros e [= <-]. repeat split; try done; try by apply (Hall k).
      intros k c Hk Hno. by rewrite Hkeep.
    + intros h c e rest -> Hp Hhe. rewrite receive_loop_cons in Hloop.
      destruct (receive_iter _ _ st) as [[err2 st3]| |] eqn:Hiter; simplify_eq/=.
      pose proof (receive_iter_decode_failure _ _ _ _ _ _ Hp Hhe Hiter)
        as (-> & HE & Hq & Hs & Hpend').
      simplify_eq/=. repeat split; try done.
      all: apply (Hall k'); rewrite Hpend'; by rewrite lookup_delete_ne.
  - exists None, st1, st1. split; [done|]. split.
    { unfold receive. by rewrite Hloop. }
    split; [done|]. split; [done|]. split; [done|].
    intros h c e rest -> _ _. by simplify_eq/=.
Qed.

Lemma two_in_flight_reached :
  ('(_, st1) ←r Go "Foo.Sum" "1" "0" None None newClientCodec;
   '(_, st2) ←r Go "Foo.Sum" "2" "0" None None st1;
   Ok st2) = Ok two_in_flight.
Proof. vm_compute. reflexivity. Qed.

Lemma two_in_flight_room :
  has_room two_in_flight (map_to_list (pending (client two_in_flight))).
Proof.
  apply (has_room_perm _ [(1%Z, 1); (0%Z, 0)]).
  - simpl. rewrite map_to_list_insert by done.
    by rewrite map_to_list_insert, map_to_list_empty by done.
  - split.
    + intros e [->|[->|[]%elem_of_nil]%elem_of_cons]%elem_of_cons;
        by eexists _, _.
    + intros [|[|d]] ch Hd; simplify_eq/=; vm_compute; lia.
Qed.

(** The theorem at a client with two calls in flight, when the body of the
    response to the first cannot be decoded. *)
Lemma receive_exits_on_read_error_witness :
  ∃ st',
    receive map_to_list undecodable_reply_0 two_in_flight =
      Ok (Some "unexpected EOF", st') ∧
    shutdown (client st') = true ∧
    Error <$> heap st' !! 1 = Some (Some "unexpected EOF") ∧
    1 ∈ signals st'.
Proof.
  destruct (receive_exits_on_read_error map_to_list undecodable_reply_0
              two_in_flight (λ m, reflexivity (map_to_list m)) two_in_flight_room)
    as (err & st1 & st' & _ & Hrun & Herr & _ & _ & Hdec).
  destruct (Hdec (codec.mkHeader "Foo.Sum" 0 EmptyString) 0 "unexpected EOF" []
              eq_refl eq_refl eq_refl) as (_ & _ & _ & _ & _ & _ & Hall).
  destruct (Hall 1%Z 1 ltac:(done) eq_refl) as [HE Hsig].
  exists st'. rewrite Herr in Hrun. split; [exact Hrun|].
  split; [|split; [exact HE|exact Hsig]].
  assert (Hsh : ∀ r, r = Ok (Some "unexpected EOF", st') →
                receive map_to_list undecodable_reply_0 two_in_flight = r →
                shutdown (client st') = true).
  { intros r -> Hr. vm_compute in Hr. by injection Hr as <-. }
  exact (Hsh _ eq_refl Hrun).
Defined.

(** C4, as stated, fails: every [ReadHeader] succeeds, the body of the
    response to call 0 cannot be decoded, and the loop ends all the same:
    [terminateCalls] runs and completes call 1 with the decode error. *)
Lemma receive_decode_failure_terminates_all :
  ∃ st',
    pending (client two_in_flight) !! 1%Z = Some 1 ∧
    receive map_to_list undecodable_reply_0 two_in_flight =
      Ok (Some "unexpected EOF", st') ∧
    shutdown (client st') = true ∧
    Error <$> heap st' !! 0 = Some (Some "reading bodyunexpected EOF") ∧
    Error <$> heap st' !! 1 = Some (Some "unexpected EOF") ∧
    signals st' = [0; 1].
Proof.
  eexists. split; [vm_compute; reflexivity|].
  split; [vm_compute; reflexivity|].
  repeat split; vm_compute; reflexivity.
Qed.

(** ** Cancellation *)

Lemma Call_select_cancelled e pick c st call ch :
  heap st !! c = Some call →
  chans st !! Done call = Some ch →
  cbuf ch = [] →
  Call_select (CtxDone e) pick c st =
    Ok (Some ("rpc client: call failed: " +:+ e),
        with_client (λ cl, set_pending (delete (Seq call) (pending cl)) cl) st).
Proof.
  intros Hc Hch Hbuf. unfold Call_select. rewrite Hc. simpl. rewrite Hch. simpl.
  by rewrite Hbuf.
Qed.

Lemma receive_iter_absent h bres st :
  pending (client st) !! codec.Seq h = None →
  receive_iter (codec.HeaderOk h) bres st =
    Ok (body_err bres,
        mkState (client st) (heap st) (chans st)
          (wire st ++ [codec.OpReadHeader; codec.OpReadBody None]) (signals st)).
Proof.
  intros Hp. unfold receive_iter. simpl. rewrite Hp. simpl.
  unfold log_op, with_client, set_pending. simpl.
  rewrite (delete_id _ _ Hp), <- app_assoc. simpl. by destruct (client st).
Qed.

(** C6. [Client.Call] on a usable client whose write succeeds and whose
    context is done before any completion: the call is registered under
    the current sequence number, removed again, never completed, and the
    error returned is that of the context. A response that arrives for a
    sequence number that is not pending has its body read with a nil
    target and changes neither the client, nor any call, nor any queue. *)
Theorem cancelled_call_and_late_response (st : State) :
  (closing (client st) = false → shutdown (client st) = false →
   ∀ e pick serviceMethod args reply,
   ∃ st' call,
     Client_Call (CtxDone e) pick serviceMethod args reply None st =
       Ok (Some ("rpc client: call failed: " +:+ e), st') ∧
     pending (client st') = delete (seq (client st)) (pending (client st)) ∧
     pending (client st') !! seq (client st) = None ∧
     heap st' !! length (heap st) = Some call ∧
     Seq call = seq (client st) ∧ Error call = None ∧
     signals st' = signals st)
  ∧
  (∀ e pick c call ch,
     heap st !! c = Some call → chans st !! Done call = Some ch → cbuf ch = [] →
     ∃ st',
       Call_select (CtxDone e) pick c st =
         Ok (Some ("rpc client: call failed: " +:+ e), st') ∧
       pending (client st') = delete (Seq call) (pending (client st)) ∧
       heap st' = heap st ∧ chans st' = chans st ∧ signals st' = signals st)
  ∧
  (∀ h bres,
     pending (client st) !! codec.Seq h = None →
     ∃ st',
       receive_iter (codec.HeaderOk h) bres st = Ok (body_err bres, st') ∧
       client st' = client st ∧ heap st' = heap st ∧ chans st' = chans st ∧
       signals st' = signals st ∧
       wire st' = wire st ++ [codec.OpReadHeader; codec.OpReadBody None]).
Proof.
  split; [|split].
  - intros Hcl Hsh e pick sm args reply.
    unfold Client_Call, make_chan, Go, Go_call. simpl.
    rewrite lookup_last. simpl.
    erewrite send_written; simpl; [|apply lookup_last|done|done].
    erewrite Call_select_cancelled; simpl.
    2:{ rewrite alter_last. apply lookup_last. }
    2:{ simpl. apply lookup_last. }
    2:{ done. }
    eexists _, _. split; [done|]. simpl.
    rewrite delete_insert_eq, alter_last, lookup_last.
    repeat split; try done. apply lookup_delete_eq.
  - intros e pick c call ch Hc Hch Hbuf.
    rewrite (Call_select_cancelled e pick c st call ch) by done.
    by eexists.
  - intros h bres Hp. rewrite (receive_iter_absent h bres st Hp). by eexists.
Qed.

(** The theorem at a fresh client: the cancelled call had sequence number
    0, and a response numbered 0 then finds nothing pending. *)
Lemma cancelled_call_and_late_response_witness :
  ∃ st' st'',
    Client_Call (CtxDone "context canceled") PickCtx "Foo.Sum" "1" "0" None
      newClientCodec = Ok (Some "rpc client: call failed: context canceled", st') ∧
    pending (client st') !! 0%Z = None ∧
    receive_iter (codec.HeaderOk (codec.mkHeader "Foo.Sum" 0 EmptyString))
      (codec.BodyOk "3") st' = Ok (None, st'') ∧
    heap st'' = heap st' ∧ signals st'' = [].
Proof.
  destruct (cancelled_call_and_late_response newClientCodec) as (H1 & _ & _).
  destruct (H1 eq_refl eq_refl "context canceled" PickCtx "Foo.Sum" "1" "0")
    as (st' & call & Hcall & _ & Hp & _ & _ & _ & Hs).
  destruct (cancelled_call_and_late_response st') as (_ & _ & H3).
  destruct (H3 (codec.mkHeader "Foo.Sum" 0 EmptyString) (codec.BodyOk "3") Hp)
    as (st'' & Hiter & _ & Hh & _ & Hs' & _).
  exists st', st''. repeat split; try done. by rewrite Hs', Hs.
Defined.

(** ** Resolving the options *)

Module DialFacts.
Import Dial.

(** C9, as the code has it. With one non-nil argument [parseOptions]
    writes through the caller's pointer: the magic number becomes that of
    [DefaultOption], an empty codec type becomes that of [DefaultOption],
    a codec type that is set and the connect timeout stay, and no other
    object of the store changes. With no argument or a nil first argument
    it returns [DefaultOption], with more than one argument an error, and
    the store is left alone. *)
Theorem parseOptions_effect (DefaultOption : optr) (options : list (option optr))
    (mem : list Option) :
  (options = [] ∨ head options = Some None →
   parseOptions DefaultOption options mem = Ok (Some DefaultOption, None, mem))
  ∧
  (∀ opt rest, options = Some opt :: rest → rest ≠ [] →
   parseOptions DefaultOption options mem =
     Ok (None, Some "[parseOptions] number of options is more than 1", mem))
  ∧
  (∀ opt d o, options = [Some opt] →
   mem !! DefaultOption = Some d → mem !! opt = Some o →
   ∃ mem',
     parseOptions DefaultOption options mem = Ok (Some opt, None, mem') ∧
     mem' !! opt =
       Some (mkOption (MagicNumber d)
               (if decide (CodecType o = EmptyString) then CodecType d
                else CodecType o)
               (ConnectTimeout o)) ∧
     ∀ p, p ≠ opt → mem' !! p = mem !! p).
Proof.
  split; [|split].
  - intros [->|Hhd]; [done|]. by destruct options as [|[?|] ?]; simplify_eq/=.
  - intros opt rest -> Hrest. simpl. destruct rest; [done|].
    by rewrite decide_True by (simpl; lia).
  - intros opt d o -> Hd Ho. simpl. rewrite Hd. simpl.
    rewrite list_lookup_alter_eq, Ho. simpl.
    destruct (decide (CodecType o = EmptyString)) as [He|He].
    + assert (Hd' : CodecType <$>
        alter (set_MagicNumber (MagicNumber d)) opt mem !! DefaultOption =
        Some (CodecType d)).
      { rewrite list_lookup_alter. case_decide; subst; by rewrite Hd. }
      destruct (alter _ opt mem !! DefaultOption) as [d'|]; simplify_eq/=.
      eexists. split; [done|].
      rewrite list_alter_alter_eq. split.
      * rewrite list_lookup_alter_eq, Ho. simpl. by rewrite Hd'.
      * intros p Hp. by rewrite list_lookup_alter_ne.
    + eexists. split; [done|]. split.
      * rewrite list_lookup_alter_eq, Ho. simpl. by destruct o.
      * intros p Hp. by rewrite list_lookup_alter_ne.
Qed.

(** The theorem at a store with the default at 0 and the caller's object,
    with no codec type, at 1. *)
Lemma parseOptions_effect_witness :
  ∃ mem',
    parseOptions 0 [Some 1] [mkOption 7 "gob" 10; mkOption 0 EmptyString 3] =
      Ok (Some 1, None, mem') ∧
    mem' !! 1 = Some (mkOption 7 "gob" 3).
Proof.
  destruct (parseOptions_effect 0 [Some 1]
              [mkOption 7 "gob" 10; mkOption 0 EmptyString 3]) as (_ & _ & H).
  destruct (H 1 (mkOption 7 "gob" 10) (mkOption 0 EmptyString 3)
              eq_refl eq_refl eq_refl) as (mem' & Hrun & Hopt & _).
  by exists mem'.
Defined.

(** C9, as stated, fails: whatever the default is, there is an option that
    [parseOptions] changes in the caller's store. *)
Lemma parseOptions_mutates_caller_option :
  ¬ ∃ d : Option, ∀ (o : Option) r mem',
      parseOptions 0 [Some 1] [d; o] = Ok r → mem' = r.2 →
      mem' !! 1 = Some o.
Proof.
  intros [d H].
  specialize (H (mkOption (MagicNumber d + 1) "gob" 0) _ _ eq_refl eq_refl).
  change (Some (mkOption (MagicNumber d) "gob" 0) =
          Some (mkOption (MagicNumber d + 1) "gob" 0)) in H.
  injection H. lia.
Qed.

(** ** The HTTP tunnel *)

(** C10. [NewHTTPClient] returns what [NewClient] returns on the
    connection, after the CONNECT line, when [http.ReadResponse] gives a
    response whose status is [connected], and only then: on another status
    it returns the error "unexpected HTTP response: " followed by the
    status, on a read error that error, and nothing more is done on the
    connection. With a registered codec type the option is encoded on the
    connection exactly when the status is [connected]. *)
Theorem NewHTTPClient_status (defaultRPCPath connected : string)
    (NewCodecFuncMap : string → bool) (resp : Response) (eres : option gerror)
    (conn : list ConnOp) (opt : Option) :
  let conn1 :=
    conn ++ [ConnWrite ("CONNECT " +:+ defaultRPCPath +:+ " HTTP/1.0 " +:+ LF +:+ LF)] in
  let r := NewHTTPClient defaultRPCPath connected NewCodecFuncMap resp eres conn opt in
  (resp = RespOk connected → r = NewClient NewCodecFuncMap eres conn1 opt)
  ∧
  (∀ status, resp = RespOk status → status ≠ connected →
     r = (None, Some ("unexpected HTTP response: " +:+ status), conn1))
  ∧
  (∀ e, resp = RespErr e → r = (None, Some e, conn1))
  ∧
  (NewCodecFuncMap (CodecType opt) = true →
     (∃ rest, r.2 = conn1 ++ ConnEncode opt :: rest) ↔ resp = RespOk connected).
Proof.
  intros conn1 r. subst r. unfold NewHTTPClient. fold conn1.
  split; [|split; [|split]].
  - intros ->. by rewrite decide_True.
  - intros status -> Hne. by rewrite decide_False.
  - by intros e ->.
  - intros Hcodec. unfold NewClient. rewrite Hcodec.
    destruct resp as [status|e]; [case_decide; subst|].
    + split; [done|]. intros _. destruct eres; simpl; eauto.
    + simpl. split; [|congruence].
      intros [rest Hrest]. rewrite <- (app_nil_r conn1) in Hrest at 1.
      by apply app_inv_head in Hrest.
    + simpl. split; [|done].
      intros [rest Hrest]. rewrite <- (app_nil_r conn1) in Hrest at 1.
      by apply app_inv_head in Hrest.
Qed.

(** The theorem at a response with status "404 Not Found". *)
Lemma NewHTTPClient_status_witness :
  NewHTTPClient "/_geerpc_" "200 Connected" (λ _, true)
    (RespOk "404 Not Found") None [] (mkOption 7 "gob" 0) =
  (None, Some "unexpected HTTP response: 404 Not Found",
   [ConnWrite ("CONNECT /_geerpc_ HTTP/1.0 " +:+ LF +:+ LF)]).
Proof.
  destruct (NewHTTPClient_status "/_geerpc_" "200 Connected" (λ _, true)
              (RespOk "404 Not Found") None [] (mkOption 7 "gob" 0))
    as (_ & H & _).
  apply (H "404 Not Found" eq_refl). intros Heq. discriminate Heq.
Defined.

End DialFacts.

(** ** What each piece of the client changes *)

Lemma Go_call_inv sm args reply doneq st c st1 :
  Go_call sm args reply doneq st = Ok (c, st1) →
  c = length (heap st) ∧ client st1 = client st ∧
  signals st1 = signals st ∧ wire st1 = wire st ∧
  ∃ d, heap st1 = heap st ++ [mkCall 0 sm args reply None d].
Proof.
  unfold Go_call. destruct doneq as [d|]; simpl.
  - destruct (chans st !! d) as [ch|]; simpl; [|done].
    case_decide; [done|]. simpl. intros [= <- <-]. simpl. eauto 10.
  - intros [= <- <-]. simpl. eauto 10.
Qed.

Lemma send_begin_inv c st r st' :
  send_begin c st = Ok (r, st') →
  (r = None ∧ closing (client st) || shutdown (client st) = true ∧
   client st' = client st ∧ wire st' = wire st ∧
   signals st' = signals st ++ [c] ∧
   heap st' = alter (set_Error ErrShutdown) c (heap st) ∧
   c < length (heap st))
  ∨
  (r = Some (seq (client st)) ∧
   closing (client st) = false ∧ shutdown (client st) = false ∧
   wire st' = wire st ∧ signals st' = signals st ∧ chans st' = chans st ∧
   heap st' = alter (set_Seq (seq (client st))) c (heap st) ∧
   client st' =
     mkClient (header (client st)) (wrap64 (seq (client st) + 1))
       (<[seq (client st) := c]> (pending (client st))) false false).
Proof.
  unfold send_begin.
  destruct (closing (client st) || shutdown (client st)) eqn:Hav.
  - rewrite (registerCall_unavailable _ _ Hav).
    destruct (done c _) as [st1| |] eqn:Hdone; simpl; [|done..].
    intros [= <- <-]. left.
    apply done_with_call_inv in Hdone as (call & ch & Hc & _ & _ & ->).
    simpl. repeat split; try done. by eapply lookup_lt_Some.
  - apply orb_false_elim in Hav as [Hcl Hsh].
    rewrite (registerCall_available _ _ Hcl Hsh). intros [= <- <-]. by right.
Qed.

Lemma send_end_inv wres c s st st' :
  send_end wres c s st = Ok st' →
  shutdown (client st') = shutdown (client st) ∧
  closing (client st') = closing (client st) ∧
  seq (client st') = seq (client st) ∧
  length (heap st') = length (heap st) ∧
  (∀ c', Seq <$> heap st' !! c' = Seq <$> heap st !! c') ∧
  pending (client st') =
    match wres with
    | Some _ => delete s (pending (client st))
    | None => pending (client st)
    end ∧
  signals st' = signals st ++
    match wres with
    | Some _ => option_list (pending (client st) !! s)
    | None => []
    end.
Proof.
  unfold send_end. destruct (heap st !! c) as [call|]; simpl; [|done].
  destruct wres as [e|].
  - destruct (pending (client st) !! s) as [c'|] eqn:Hp.
    + intros (call' & ch & Hc & _ & _ & ->)%done_with_call_inv. simpl.
      rewrite length_alter. repeat split; try done.
      intros c2. by apply lookup_alter_Seq.
    + intros [= <-]. simpl. by rewrite app_nil_r.
  - intros [= <-]. simpl. by rewrite app_nil_r.
Qed.

Lemma Call_select_inv ctx pick c st r st' :
  Call_select ctx pick c st = Ok (r, st') →
  heap st' = heap st ∧ signals st' = signals st ∧ wire st' = wire st ∧
  shutdown (client st') = shutdown (client st) ∧
  closing (client st') = closing (client st) ∧
  seq (client st') = seq (client st) ∧
  (pending (client st') = pending (client st) ∨
   ∃ k, pending (client st') = delete k (pending (client st))).
Proof.
  unfold Call_select. destruct (heap st !! c) as [call|]; simpl; [|done].
  destruct (chans st !! Done call) as [ch|]; simpl; [|done].
  destruct (select_case ctx pick (cbuf ch)) as [[e|c' rest]|]; [| |done].
  - intros [= <- <-]. simpl. repeat split; eauto.
  - destruct (heap st !! c'); simpl; [|done].
    intros [= <- <-]. simpl. repeat split; eauto.
Qed.

(** ** Invariants of the interleavings *)

Module ConcFacts.
Import Conc.

(** *** The steps are the pieces of the sequential code *)

Lemma send_begin_steps sync c st1 s :
  let s1 := enter sync c st1 s in
  send_begin c st1 =
    match sender s1 with
    | SendWrite _ n _ => Ok (Some n, st s1)
    | SendDone c' _ _ => st2 ←r done c' (st s1); Ok (None, st2)
    | SendIdle => Blocked
    end.
Proof.
  unfold enter, send_begin.
  by destruct (registerCall c st1) as [[n [e|]] st2].
Qed.

Lemma send_end_steps wres c n sync s s1 :
  write wres c n sync s = Some s1 →
  send_end wres c n (st s) =
    match sender s1 with
    | SendDone c' _ _ => done c' (st s1)
    | _ => Ok (st s1)
    end.
Proof.
  unfold write, send_end.
  destruct (heap (st s) !! c) as [call|]; simpl; [|done].
  destruct wres as [e|]; [|by intros [= <-]].
  unfold removeCall. simpl.
  destruct (pending (client (st s)) !! n) as [c'|]; by intros [= <-].
Qed.

Lemma receive_body_steps h call bres σ :
  receive_body h call bres σ =
    match (read_body h call bres σ).2 with
    | RecvDone c err =>
        st2 ←r done c (read_body h call bres σ).1; Ok (err, st2)
    | RecvExit e => Ok (Some e, (read_body h call bres σ).1)
    | _ => Ok (None, (read_body h call bres σ).1)
    end.
Proof.
  unfold receive_body, read_body. destruct call as [c|].
  - case_decide; [done|]. by destruct bres.
  - by destruct bres.
Qed.

Lemma terminate_range_steps e entry rest σ :
  terminate_range e (entry :: rest) σ =
    (st1 ←r terminate_range e [entry] σ; terminate_range e rest st1).
Proof.
  destruct entry as [k c]. simpl. by destruct (done c _).
Qed.

(** *** The invariant *)

Lemma registry_inv_init : registry_inv init.
Proof.
  split; simpl; try done; try apply NoDup_nil_2.
  - intros c Hc. by apply elem_of_nil in Hc.
  - intros k c Hc. by apply elem_of_nil in Hc.
  - intros c Hc. by apply elem_of_nil in Hc.
Qed.

Lemma pending_lt s k c :
  registry_inv s → pending (client (st s)) !! k = Some c →
  c < length (heap (st s)).
Proof.
  intros Hinv Hk. pose proof (inv_pending s Hinv k c Hk) as Hseq.
  destruct (heap (st s) !! c) eqn:Hc; [|done]. by eapply lookup_lt_Some.
Qed.

Lemma pending_inj s k k' c :
  registry_inv s →
  pending (client (st s)) !! k = Some c →
  pending (client (st s)) !! k' = Some c → k = k'.
Proof.
  intros Hinv Hk Hk'.
  pose proof (inv_pending s Hinv k c Hk) as H1.
  pose proof (inv_pending s Hinv k' c Hk') as H2. congruence.
Qed.

Lemma delete_no_key s k c :
  registry_inv s → pending (client (st s)) !! k = Some c →
  ∀ k', delete k (pending (client (st s))) !! k' ≠ Some c.
Proof.
  intros Hinv Hk k' [Hne Hk']%lookup_delete_Some.
  by apply Hne, (pending_inj s k k' c).
Qed.

(** A step that allocates no call and registers none: it completes the
    calls [new], may remove calls from [pending], may begin
    [terminateCalls]. *)
Lemma registry_inv_old s s' new :
  registry_inv s →
  signals (st s') = signals (st s) ++ new →
  NoDup new →
  (∀ c, c ∈ new → (c ∉ signals (st s)) ∧ (c < length (heap (st s)))) →
  length (heap (st s')) = length (heap (st s)) →
  (∀ c, Seq <$> heap (st s') !! c = Seq <$> heap (st s) !! c) →
  (∀ k c, pending (client (st s')) !! k = Some c →
          pending (client (st s)) !! k = Some c) →
  (live (recv s') = true →
   live (recv s) = true ∧
   ∀ c, c ∈ new → ∀ k, pending (client (st s')) !! k ≠ Some c) →
  shutdown (client (st s')) = negb (live (recv s')) →
  NoDup (to_visit (recv s')).*2 →
  (∀ k c, (k, c) ∈ to_visit (recv s') →
     pending (client (st s')) !! k = Some c ∧
     (c ∉ signals (st s)) ∧ (c ∉ new)) →
  NoDup (held s') →
  (∀ c, c ∈ held s' →
     (c ∉ new) ∧ (c ∉ signals (st s)) ∧ (c < length (heap (st s))) ∧
     ∀ k, pending (client (st s')) !! k ≠ Some c) →
  (∀ c n b, sender s' = SendWrite c n b → live (recv s') = true) →
  seq (client (st s')) = seq (client (st s)) →
  issued s' = issued s →
  registry_inv s'.
Proof.
  intros [] Hsig Hnew Hfresh Hlen Hseq Hpend Hlive Hshut Hvnd Hvis Hhnd Hheld
    Hwr Hsq Hiss.
  split; rewrite ?Hsig, ?Hlen, ?Hsq, ?Hiss; try done.
  - apply NoDup_app. split; [done|]. split; [|done].
    intros c Hc Hc'. by destruct (Hfresh c Hc').
  - intros c [Hc|Hc]%elem_of_app; [eauto|]. by destruct (Hfresh c Hc).
  - intros k c Hk. rewrite Hseq. eauto.
  - intros Hl k c Hk. destruct (Hlive Hl) as [Hl0 Hno].
    intros [Hc|Hc]%elem_of_app.
    + by eapply (inv_unsignalled0 Hl0 k c); eauto.
    + by eapply Hno.
  - intros k c Hin. destruct (Hvis k c Hin) as (? & ? & ?).
    split; [done|]. intros [?|?]%elem_of_app; done.
  - intros c Hc. destruct (Hheld c Hc) as (? & ? & ? & ?).
    repeat split; try done. intros [?|?]%elem_of_app; done.
Qed.

(** A step that completes no call, keeps the pending calls
    [terminateCalls] has to visit, and leaves every goroutine with the
    call it had. *)
Lemma registry_inv_frame s s' :
  registry_inv s →
  signals (st s') = signals (st s) →
  length (heap (st s')) = length (heap (st s)) →
  (∀ c, Seq <$> heap (st s') !! c = Seq <$> heap (st s) !! c) →
  (∀ k c, pending (client (st s')) !! k = Some c →
          pending (client (st s)) !! k = Some c) →
  (∀ k c, (k, c) ∈ to_visit (recv s) →
          pending (client (st s')) !! k = Some c) →
  shutdown (client (st s')) = shutdown (client (st s)) →
  seq (client (st s')) = seq (client (st s)) →
  held s' = held s →
  to_visit (recv s') = to_visit (recv s) →
  live (recv s') = live (recv s) →
  (∀ c n b, sender s' = SendWrite c n b → sender s = SendWrite c n b) →
  issued s' = issued s →
  registry_inv s'.
Proof.
  intros Hinv Hsig Hlen Hseq Hpend Hvis Hsh Hsq Hheld Htv Hlive Hwr Hiss.
  apply (registry_inv_old s s' []);
    rewrite ?Hsh, ?Hheld, ?Htv, ?Hlive, ?app_nil_r; try done;
    try apply NoDup_nil_2.
  - intros c Hc. by apply elem_of_nil in Hc.
  - intros Hl. split; [done|]. intros c Hc. by apply elem_of_nil in Hc.
  - apply (inv_live s Hinv).
  - apply (inv_to_visit_nodup s Hinv).
  - intros k c Hin. split; [by apply Hvis|].
    split; [by apply (inv_to_visit s Hinv k c)|apply not_elem_of_nil].
  - apply (inv_held_nodup s Hinv).
  - intros c Hc. destruct (inv_held s Hinv c Hc) as (? & ? & Hno).
    split; [apply not_elem_of_nil|]. repeat split; try done.
    intros k Hk. by eapply Hno, Hpend.
  - intros c n b Hw%Hwr. by apply (inv_writing s Hinv c n b).
Qed.

Lemma step_MakeChan n s s' :
  registry_inv s → step (EvMakeChan n) s = Some s' → registry_inv s'.
Proof.
  intros Hinv [= <-]. apply (registry_inv_frame s); try done.
  intros k c Hin. by apply (inv_to_visit s Hinv k c).
Qed.

Lemma step_Dequeue d s s' :
  registry_inv s → step (EvDequeue d) s = Some s' → registry_inv s'.
Proof.
  intros Hinv Hstep. simpl in Hstep. case_decide; [done|].
  destruct (chans (st s) !! d) as [ch|]; simpl in Hstep; [|done].
  destruct (cbuf ch); simplify_eq/=. apply (registry_inv_frame s); try done.
  intros k c Hin. by apply (inv_to_visit s Hinv k c).
Qed.

Lemma step_Close cres s s' :
  registry_inv s → step (EvClose cres) s = Some s' → registry_inv s'.
Proof.
  intros Hinv Hstep. simpl in Hstep.
  destruct (ranging (recv s)); simplify_eq/=.
  apply (registry_inv_frame s); try done;
    unfold Close; simpl; destruct (closing (client (st s))); try done.
  all: intros k c Hin; by apply (inv_to_visit s Hinv k c).
Qed.

Lemma step_Return s s' :
  registry_inv s → step EvReturn s = Some s' → registry_inv s'.
Proof.
  intros Hinv Hstep. simpl in Hstep.
  destruct (recv s) as [| | | |e [|? ?]|] eqn:Hrecv; simplify_eq/=.
  apply (registry_inv_frame s); simpl; rewrite ?Hrecv; try done.
  - intros k c Hin. by apply elem_of_nil in Hin.
  - unfold held. simpl. by rewrite Hrecv.
Qed.
Lemma live_to_visit r : live r = true → to_visit r = [].
Proof. by destruct r. Qed.

Lemma ranging_to_visit r : ranging r = false → to_visit r = [].
Proof. by destruct r. Qed.

Lemma to_visit_nil s k c :
  to_visit (recv s) = [] → (k, c) ∈ to_visit (recv s) → False.
Proof. intros ->. apply not_elem_of_nil. Qed.

Lemma Call_select_no_ctx ctx pick c st r st' :
  takes_ctx ctx pick c st = false →
  Call_select ctx pick c st = Ok (r, st') →
  client st' = client st.
Proof.
  unfold takes_ctx, Call_select.
  destruct (heap st !! c) as [call|]; simpl; [|done].
  destruct (chans st !! Done call) as [ch|]; simpl; [|done].
  destruct (select_case ctx pick (cbuf ch)) as [[e|c' rest]|]; try done.
  intros _. destruct (heap st !! c'); simpl; [|done]. by intros [= <- <-].
Qed.

Lemma step_Select c ctx pick s s' :
  registry_inv s → step (EvSelect c ctx pick) s = Some s' → registry_inv s'.
Proof.
  intros Hinv Hstep. simpl in Hstep. case_decide; [|done].
  destruct (ranging (recv s) && takes_ctx ctx pick c (st s)) eqn:Hmu; [done|].
  destruct (Call_select ctx pick c (st s)) as [[r st1]| |] eqn:Hsel;
    simplify_eq/=.
  pose proof (Call_select_inv _ _ _ _ _ _ Hsel)
    as (Hh & Hs & _ & Hsh & _ & Hsq & Hp).
  apply (registry_inv_frame s); simpl; rewrite ?Hh; try done.
  - intros k c' Hk. destruct Hp as [Hp|[k' Hp]]; rewrite Hp in Hk; [done|].
    by apply lookup_delete_Some in Hk as [_ ?].
  - intros k c' Hin. apply andb_false_iff in Hmu as [Hr|Hc].
    + by destruct (to_visit_nil s k c' (ranging_to_visit _ Hr)).
    + rewrite (Call_select_no_ctx _ _ _ _ _ _ Hc Hsel).
      by apply (inv_to_visit s Hinv k c').
Qed.

Lemma held_Idle s st1 sel :
  send_held (sender s) = [] →
  held (mkSys st1 SendIdle (recv s) sel (owned s) (issued s)) = held s.
Proof. intros Hs. unfold held. simpl. by rewrite Hs. Qed.

Lemma step_Write wres s s' :
  registry_inv s → step (EvWrite wres) s = Some s' → registry_inv s'.
Proof.
  intros Hinv Hstep. simpl in Hstep.
  destruct (sender s) as [|c n sync|] eqn:Hw; try done.
  unfold write in Hstep.
  destruct (heap (st s) !! c) as [call|]; simpl in Hstep; [|done].
  pose proof (inv_writing s Hinv c n sync Hw) as Hlive.
  pose proof (live_to_visit _ Hlive) as Htv.
  assert (Hframe : ∀ m sel,
    (∀ k c', m !! k = Some c' → pending (client (st s)) !! k = Some c') →
    registry_inv
      (mkSys
         (mkState
            (mkClient (codec.mkHeader (ServiceMethod call) n EmptyString)
               (seq (client (st s))) m (closing (client (st s)))
               (shutdown (client (st s))))
            (heap (st s)) (chans (st s))
            (wire (st s) ++
               [codec.OpWrite
                  (codec.mkHeader (ServiceMethod call) n EmptyString)
                  (Args call)])
            (signals (st s)))
         SendIdle (recv s) sel (owned s) (issued s))).
  { intros m sel Hm. apply (registry_inv_frame s); simpl; try done.
    - intros k c' Hin. by destruct (to_visit_nil s k c' Htv).
    - unfold held. simpl. by rewrite Hw. }
  destruct wres as [e|]; [|simplify_eq/=; by apply Hframe].
  destruct (pending (client (st s)) !! n) as [c'|] eqn:Hp; simplify_eq/=.
  2:{ apply Hframe. intros k c'. by intros [_ ?]%lookup_delete_Some. }
  apply (registry_inv_old s _ []); simpl;
    rewrite ?app_nil_r, ?length_alter, ?Htv; try done;
    try apply NoDup_nil_2.
  - intros c0 Hc0. by apply elem_of_nil in Hc0.
  - intros c0. by apply lookup_alter_Seq.
  - intros k c0. by intros [_ ?]%lookup_delete_Some.
  - intros _. split; [done|]. intros c0 Hc0. by apply elem_of_nil in Hc0.
  - apply (inv_live s Hinv).
  - intros k c0 Hin. by apply elem_of_nil in Hin.
  - unfold held. simpl. apply NoDup_app. split; [|split].
    + pose proof (inv_held_nodup s Hinv) as Hnd. unfold held in Hnd.
      by apply NoDup_app in Hnd as (? & _ & _).
    + intros c0 Hc0 ->%list_elem_of_singleton.
      destruct (inv_held s Hinv c') as (_ & _ & Hno).
      { unfold held. apply elem_of_app. by left. }
      by apply (Hno n).
    + apply NoDup_singleton.
  - intros c0 [Hc0| ->%list_elem_of_singleton]%elem_of_app.
    + destruct (inv_held s Hinv c0) as (? & ? & Hno).
      { unfold held. apply elem_of_app. by left. }
      split; [apply not_elem_of_nil|]. repeat split; try done.
      intros k [_ Hk]%lookup_delete_Some. by eapply Hno.
    + split; [apply not_elem_of_nil|].
      split; [by eapply (inv_unsignalled s Hinv)|].
      split; [by eapply pending_lt|]. by apply (delete_no_key s).
Qed.
Lemma held_recv s c : c ∈ recv_held (recv s) → c ∈ held s.
Proof. intros H. apply elem_of_app. by left. Qed.

Lemma held_send s c : c ∈ send_held (sender s) → c ∈ held s.
Proof. intros H. apply elem_of_app. by right. Qed.

Lemma to_visit_pending s k c :
  registry_inv s → (k, c) ∈ to_visit (recv s) →
  ∀ c', c' ∈ held s → c ≠ c'.
Proof.
  intros Hinv Hin c' Hc' ->.
  destruct (inv_to_visit s Hinv k c' Hin) as [Hk _].
  destruct (inv_held s Hinv c' Hc') as (_ & _ & Hno). by apply (Hno k).
Qed.

Lemma step_SendDone s s' :
  registry_inv s → step EvSendDone s = Some s' → registry_inv s'.
Proof.
  intros Hinv Hstep. simpl in Hstep.
  destruct (sender s) as [| |c' c sync] eqn:Hw; try done.
  destruct (done c' (st s)) as [st1| |] eqn:Hdone; simplify_eq/=.
  apply done_inv in Hdone as (call & ch & Hc & _ & _ & ->).
  assert (Hheld : c' ∈ held s).
  { apply held_send. rewrite Hw. by left. }
  pose proof (inv_held s Hinv c' Hheld) as (Hns & Hlt & Hno).
  pose proof (inv_held_nodup s Hinv) as Hnd. unfold held in Hnd.
  rewrite Hw in Hnd. simpl in Hnd.
  apply NoDup_app in Hnd as (Hnd & Hdisj & _).
  apply (registry_inv_old s _ [c']); simpl; try done.
  - apply NoDup_singleton.
  - by intros c0 ->%list_elem_of_singleton.
  - intros Hl. split; [done|]. by intros c0 ->%list_elem_of_singleton.
  - apply (inv_live s Hinv).
  - apply (inv_to_visit_nodup s Hinv).
  - intros k c0 Hin. destruct (inv_to_visit s Hinv k c0 Hin) as [? ?].
    repeat split; try done. intros ->%list_elem_of_singleton.
    by apply (to_visit_pending s k c' Hinv Hin c').
  - unfold held. simpl. by rewrite app_nil_r.
  - unfold held. simpl. rewrite app_nil_r. intros c0 Hc0.
    destruct (inv_held s Hinv c0 (held_recv s c0 Hc0)) as (? & ? & ?).
    repeat split; try done. intros Hin. apply (Hdisj c0 Hc0).
    by rewrite list_elem_of_singleton in Hin |- *.
Qed.

Lemma step_ReadHeader hres s s' :
  registry_inv s → step (EvReadHeader hres) s = Some s' → registry_inv s'.
Proof.
  intros Hinv Hstep. simpl in Hstep.
  destruct (recv s) eqn:Hrecv; try done.
  assert (Htv : to_visit (recv s) = []) by by rewrite Hrecv.
  assert (Hrh : recv_held (recv s) = []) by by rewrite Hrecv.
  assert (Hlive : live (recv s) = true) by by rewrite Hrecv.
  destruct hres as [h|e]; simplify_eq/=.
  2:{ apply (registry_inv_frame s); simpl; rewrite ?Hrecv; try done.
      - intros k c Hin. by apply elem_of_nil in Hin.
      - unfold held. simpl. by rewrite Hrecv. }
  apply (registry_inv_old s _ []); simpl; rewrite ?app_nil_r; try done;
    try apply NoDup_nil_2.
  - intros c Hc. by apply elem_of_nil in Hc.
  - intros k c. by intros [_ ?]%lookup_delete_Some.
  - intros _. split; [done|]. intros c Hc. by apply elem_of_nil in Hc.
  - by rewrite (inv_live s Hinv), Hlive.
  - intros k c Hin. by apply elem_of_nil in Hin.
  - pose proof (inv_held_nodup s Hinv) as Hnd. unfold held in *.
    rewrite Hrh in Hnd. simpl in *.
    destruct (pending (client (st s)) !! codec.Seq h) as [c|] eqn:Hp;
      simpl; [|done].
    apply NoDup_cons. split; [|done]. intros Hc.
    destruct (inv_held s Hinv c (held_send s c Hc)) as (_ & _ & Hno).
    by apply (Hno (codec.Seq h)).
  - unfold held. simpl. intros c Hc.
    split; [apply not_elem_of_nil|].
    assert (Hcase : (pending (client (st s)) !! codec.Seq h = Some c) ∨
                    c ∈ held s).
    { apply elem_of_app in Hc as [Hc|Hc]; [|right; by apply held_send].
      destruct (pending (client (st s)) !! codec.Seq h) as [c0|];
        [|by apply elem_of_nil in Hc].
      apply list_elem_of_singleton in Hc as ->. by left. }
    destruct Hcase as [Hp|Hh].
    + split; [by eapply (inv_unsignalled s Hinv)|].
      split; [by eapply pending_lt|]. by apply (delete_no_key s).
    + destruct (inv_held s Hinv c Hh) as (? & ? & Hno).
      repeat split; try done.
      intros k [_ Hk]%lookup_delete_Some. by eapply Hno.
Qed.
Lemma next_live err : live (next err) = true.
Proof. by destruct err. Qed.

Lemma next_held err : recv_held (next err) = [].
Proof. by destruct err. Qed.

Lemma next_to_visit err : to_visit (next err) = [].
Proof. by destruct err. Qed.

Lemma read_body_inv h call bres st st1 r :
  read_body h call bres st = (st1, r) →
  client st1 = client st ∧ signals st1 = signals st ∧
  length (heap st1) = length (heap st) ∧
  (∀ c, Seq <$> heap st1 !! c = Seq <$> heap st !! c) ∧
  recv_held r = recv_held (RecvBody h call) ∧
  to_visit r = [] ∧ live r = true.
Proof.
  unfold read_body. destruct call as [c|].
  - case_decide; [|destruct bres]; intros [= <- <-]; simpl;
      rewrite length_alter; repeat split; try done;
      intros c'; by apply lookup_alter_Seq.
  - intros [= <- <-]. simpl.
    by rewrite next_held, next_to_visit, next_live.
Qed.

Lemma step_ReadBody bres s s' :
  registry_inv s → step (EvReadBody bres) s = Some s' → registry_inv s'.
Proof.
  intros Hinv Hstep. simpl in Hstep.
  destruct (recv s) as [|h call| | | |] eqn:Hrecv; try done.
  destruct (read_body h call bres (st s)) as [st1 r] eqn:Hbody.
  simplify_eq/=.
  apply read_body_inv in Hbody as (Hcl & Hsig & Hlen & Hseq & Hh & Htv & Hl).
  apply (registry_inv_frame s); simpl; rewrite ?Hcl, ?Hrecv; try done.
  - intros k c Hin. by apply elem_of_nil in Hin.
  - unfold held. simpl. by rewrite Hrecv, Hh.
Qed.

Lemma step_RecvDone s s' :
  registry_inv s → step EvRecvDone s = Some s' → registry_inv s'.
Proof.
  intros Hinv Hstep. simpl in Hstep.
  destruct (recv s) as [| |c err| | |] eqn:Hrecv; try done.
  destruct (done c (st s)) as [st1| |] eqn:Hdone; simplify_eq/=.
  apply done_inv in Hdone as (call & ch & Hc & _ & _ & ->).
  assert (Hheld : c ∈ held s).
  { apply held_recv. rewrite Hrecv. by left. }
  pose proof (inv_held s Hinv c Hheld) as (Hns & Hlt & Hno).
  pose proof (inv_held_nodup s Hinv) as Hnd. unfold held in Hnd.
  rewrite Hrecv in Hnd. simpl in Hnd. apply NoDup_cons in Hnd as [Hnin Hnd].
  apply (registry_inv_old s _ [c]); simpl;
    rewrite ?next_live, ?next_to_visit; try done.
  - apply NoDup_singleton.
  - by intros c0 ->%list_elem_of_singleton.
  - intros _. split; [by rewrite Hrecv|].
    by intros c0 ->%list_elem_of_singleton.
  - by rewrite (inv_live s Hinv), Hrecv.
  - apply NoDup_nil_2.
  - intros k c0 Hin. by apply elem_of_nil in Hin.
  - unfold held. simpl. by rewrite next_held.
  - unfold held. simpl. rewrite next_held. simpl. intros c0 Hc0.
    destruct (inv_held s Hinv c0 (held_send s c0 Hc0)) as (? & ? & ?).
    repeat split; try done. intros ->%list_elem_of_singleton. done.
Qed.

Lemma elem_of_range s order c :
  order ≡ₚ map_to_list (pending (client (st s))) →
  c ∈ order.*2 → ∃ k, pending (client (st s)) !! k = Some c.
Proof.
  intros Hperm ([k c'] & -> & Hin)%list_elem_of_fmap. exists k.
  rewrite Hperm in Hin. by apply elem_of_map_to_list in Hin.
Qed.

Lemma NoDup_range s order :
  registry_inv s →
  order ≡ₚ map_to_list (pending (client (st s))) →
  NoDup order.*2.
Proof.
  intros Hinv Hperm. rewrite Hperm.
  apply NoDup_fmap_2_strong; [|apply NoDup_map_to_list].
  intros [k c] [k' c'] Hk%elem_of_map_to_list Hk'%elem_of_map_to_list Heq.
  simpl in Heq. subst c'. f_equal. by apply (pending_inj s k k' c).
Qed.

Lemma step_Terminate order s s' :
  registry_inv s → step (EvTerminate order) s = Some s' → registry_inv s'.
Proof.
  intros Hinv Hstep. simpl in Hstep.
  destruct (recv s) as [| | |e| |] eqn:Hrecv; try done.
  destruct (sender s) eqn:Hsender; try done.
  case_decide as Hperm; simplify_eq/=.
  assert (Hlive : live (recv s) = true) by by rewrite Hrecv.
  apply (registry_inv_old s _ []); simpl; rewrite ?app_nil_r; try done;
    try apply NoDup_nil_2.
  - intros c Hc. by apply elem_of_nil in Hc.
  - by apply (NoDup_range s).
  - intros k c Hin. rewrite Hperm in Hin. apply elem_of_map_to_list in Hin.
    split; [done|]. split; [|apply not_elem_of_nil].
    by eapply (inv_unsignalled s Hinv).
  - intros c Hc. unfold held in Hc. simpl in Hc. by apply elem_of_nil in Hc.
Qed.

Lemma step_Range s s' :
  registry_inv s → step EvRange s = Some s' → registry_inv s'.
Proof.
  intros Hinv Hstep. simpl in Hstep.
  destruct (recv s) as [| | | |e [|[k c] rest]|] eqn:Hrecv; try done.
  destruct (done c _) as [st1| |] eqn:Hdone; simplify_eq/=.
  apply done_with_call_inv in Hdone as (call & ch & Hc & _ & _ & ->).
  pose proof (inv_to_visit_nodup s Hinv) as Hnd. rewrite Hrecv in Hnd.
  simpl in Hnd. apply NoDup_cons in Hnd as [Hnin Hnd].
  assert (Hin : (k, c) ∈ to_visit (recv s)) by (rewrite Hrecv; by left).
  destruct (inv_to_visit s Hinv k c Hin) as [Hk Hns].
  apply (registry_inv_old s _ [c]); simpl; rewrite ?length_alter; try done.
  - apply NoDup_singleton.
  - intros c0 ->%list_elem_of_singleton. split; [done|]. by eapply pending_lt.
  - intros c0. by apply lookup_alter_Seq.
  - by rewrite (inv_live s Hinv), Hrecv.
  - intros k0 c0 Hin0.
    destruct (inv_to_visit s Hinv k0 c0) as [? ?];
      [rewrite Hrecv; by right|].
    repeat split; try done. intros ->%list_elem_of_singleton.
    apply Hnin, list_elem_of_fmap. by exists (k0, c).
  - pose proof (inv_held_nodup s Hinv) as Hh. unfold held in *.
    by rewrite Hrecv in Hh.
  - intros c0 Hc0.
    assert (Hc0' : c0 ∈ held s) by (unfold held in *; by rewrite Hrecv).
    destruct (inv_held s Hinv c0 Hc0') as (? & ? & ?).
    repeat split; try done. intros ->%list_elem_of_singleton.
    by apply (to_visit_pending s k c Hinv Hin c).
  - intros c0 n b Hw. pose proof (inv_writing s Hinv c0 n b Hw) as Hl.
    by rewrite Hrecv in Hl.
Qed.
Lemma wrap64_succ (n : nat) :
  wrap64 (wrap64 (Z.of_nat n) + 1) = wrap64 (Z.of_nat (S n)).
Proof.
  unfold wrap64. rewrite Zplus_mod_idemp_l. f_equal. lia.
Qed.

(** A caller enters [send] with a call it has just allocated. *)
Lemma enter_inv sync call0 st1 s0 s :
  registry_inv s →
  client st1 = client (st s) →
  signals st1 = signals (st s) →
  heap st1 = heap (st s) ++ [call0] →
  recv s0 = recv s → issued s0 = issued s →
  sender s = SendIdle →
  registry_inv (enter sync (length (heap (st s))) st1 s0).
Proof.
  intros Hinv Hcl Hsig Hheap Hrecv Hiss Hidle. unfold enter.
  assert (Hold : ∀ (y : Call) c', c' < length (heap (st s)) →
    (heap (st s) ++ [y]) !! c' = heap (st s) !! c').
  { intros y c' Hlt. by apply lookup_app_l. }
  assert (Hrh : ∀ c, c ∈ recv_held (recv s) → c ∈ held s).
  { intros c Hc. by apply held_recv. }
  assert (Hrnd : NoDup (recv_held (recv s))).
  { pose proof (inv_held_nodup s Hinv) as Hnd. unfold held in Hnd.
    by apply NoDup_app in Hnd as (? & _ & _). }
  destruct (closing (client st1) || shutdown (client st1)) eqn:Hav.
  - rewrite (registerCall_unavailable _ _ Hav).
    split; simpl; rewrite ?Hsig, ?Hheap, ?Hcl, ?Hrecv, ?Hiss, ?alter_last,
      ?length_app; simpl; try apply Hinv.
    + intros c Hc. apply (inv_signalled s Hinv) in Hc. lia.
    + intros k c Hk. rewrite Hold by (by eapply pending_lt).
      by apply (inv_pending s Hinv).
    + unfold held. simpl. rewrite ?Hrecv. apply NoDup_app.
      split; [done|]. split; [|apply NoDup_singleton].
      intros c Hc ->%list_elem_of_singleton.
      destruct (inv_held s Hinv _ (Hrh _ Hc)) as (_ & ? & _). lia.
    + unfold held. simpl. rewrite ?Hrecv.
      intros c [Hc| ->%list_elem_of_singleton]%elem_of_app.
      * destruct (inv_held s Hinv _ (Hrh _ Hc)) as (? & ? & ?).
        repeat split; try done. lia.
      * split; [|split; [lia|]].
        -- intros Hc. apply (inv_signalled s Hinv) in Hc. lia.
        -- intros k Hk. apply (pending_lt s) in Hk; [lia|done].
    + done.
  - apply orb_false_elim in Hav as [Hclo Hsh].
    rewrite (registerCall_available _ _ Hclo Hsh).
    rewrite Hcl in *.
    assert (Hlive : live (recv s) = true).
    { pose proof (inv_live s Hinv) as Hl. rewrite Hsh in Hl.
      by destruct (live (recv s)). }
    split; simpl; rewrite ?Hsig, ?Hheap, ?Hrecv, ?Hiss, ?alter_last,
      ?length_app, ?(live_to_visit _ Hlive), ?Hlive; simpl;
      try apply Hinv; try done.
    + intros c Hc. apply (inv_signalled s Hinv) in Hc. lia.
    + intros k c [[<- <-]|[Hne Hk]]%lookup_insert_Some.
      * by rewrite lookup_last.
      * rewrite Hold by (by eapply pending_lt). by apply (inv_pending s Hinv).
    + intros _ k c [[<- <-]|[Hne Hk]]%lookup_insert_Some.
      * intros Hc. apply (inv_signalled s Hinv) in Hc. lia.
      * by eapply (inv_unsignalled s Hinv).
    + apply NoDup_nil_2.
    + intros k c Hin. by apply elem_of_nil in Hin.
    + unfold held. simpl. by rewrite ?Hrecv, app_nil_r.
    + unfold held. simpl. rewrite ?Hrecv, app_nil_r. intros c Hc.
      destruct (inv_held s Hinv _ (Hrh _ Hc)) as (? & ? & Hno).
      repeat split; try done; [lia|].
      intros k [[<- <-]|[Hne Hk]]%lookup_insert_Some; [lia|]. by eapply Hno.
    + rewrite (inv_seq s Hinv). replace (length (issued s) + 1) with
        (S (length (issued s))) by lia. apply wrap64_succ.
    + replace (length (issued s) + 1) with (S (length (issued s))) by lia.
      rewrite seq_S, fmap_app. simpl.
      by rewrite <- (inv_issued s Hinv), (inv_seq s Hinv).
Qed.

Lemma step_Go_inv sm args reply doneq s s' :
  step (EvGo sm args reply doneq) s = Some s' →
  sender s = SendIdle ∧
  ∃ c st1, Go_call sm args reply doneq (st s) = Ok (c, st1) ∧
           s' = enter false c st1 s.
Proof.
  intros Hstep. unfold step in Hstep.
  destruct (sender s) eqn:Hsender; try done.
  destruct (ranging (recv s)); try done.
  destruct (is_owned doneq s); [done|].
  destruct (Go_call _ _ _ _ (st s)) as [[c st1]| |]; simplify_eq/=. eauto.
Qed.

Lemma step_Call_inv sm args reply s s' :
  step (EvCall sm args reply) s = Some s' →
  sender s = SendIdle ∧
  ∃ c st1 d,
    Go_call sm args reply (Some d) (snd (make_chan 1 (st s))) = Ok (c, st1) ∧
    s' = enter true c st1
           (mkSys (st s) SendIdle (recv s) (selecting s) (d :: owned s)
              (issued s)).
Proof.
  intros Hstep. unfold step in Hstep.
  destruct (sender s) eqn:Hsender; try done.
  destruct (ranging (recv s)); try done.
  destruct (make_chan 1 (st s)) as [d0 st0] eqn:Hmk.
  destruct (Go_call _ _ _ _ _) as [[c st1]| |] eqn:Hgo; simplify_eq/=.
  unfold make_chan in Hmk. injection Hmk as <- <-. eauto 10.
Qed.

Lemma step_Go sm args reply doneq s s' :
  registry_inv s → step (EvGo sm args reply doneq) s = Some s' →
  registry_inv s'.
Proof.
  intros Hinv (Hidle & c & st1 & Hgo & ->)%step_Go_inv.
  apply Go_call_inv in Hgo as (-> & Hcl & Hsig & _ & d & Hheap).
  by eapply enter_inv.
Qed.

Lemma step_Call sm args reply s s' :
  registry_inv s → step (EvCall sm args reply) s = Some s' → registry_inv s'.
Proof.
  intros Hinv (Hidle & c & st1 & d0 & Hgo & ->)%step_Call_inv.
  apply Go_call_inv in Hgo as (-> & Hcl & Hsig & _ & d & Hheap).
  simpl in *. by eapply enter_inv.
Qed.

Lemma step_inv ev s s' :
  registry_inv s → step ev s = Some s' → registry_inv s'.
Proof.
  destruct ev; eauto using step_MakeChan, step_Go, step_Call, step_Write,
    step_SendDone, step_ReadHeader, step_ReadBody, step_RecvDone,
    step_Terminate, step_Range, step_Return, step_Select, step_Dequeue,
    step_Close.
Qed.

Lemma run_inv evs s s' :
  registry_inv s → run evs s = Some s' → registry_inv s'.
Proof.
  revert s. induction evs as [|ev evs IH]; intros s Hinv Hrun.
  - by simplify_eq/=.
  - simpl in Hrun. destruct (step ev s) as [s1|] eqn:Hstep; simplify_eq/=.
    eauto using step_inv.
Qed.

Lemma reachable_inv s : reachable s → registry_inv s.
Proof. intros [evs Hrun]. eauto using run_inv, registry_inv_init. Qed.
(** *** Calls that have left the registry *)

Lemma abandoned_next c s s' new :
  abandoned c s →
  signals (st s') = signals (st s) ++ new →
  c ∉ new →
  length (heap (st s)) ≤ length (heap (st s')) →
  (∀ k, pending (client (st s')) !! k = Some c →
        pending (client (st s)) !! k = Some c) →
  (c ∈ held s' →
     c ∈ held s ∨ (∃ k, pending (client (st s)) !! k = Some c) ∨
     length (heap (st s)) ≤ c) →
  (c ∈ (to_visit (recv s')).*2 →
     c ∈ (to_visit (recv s)).*2 ∨
     ∃ k, pending (client (st s)) !! k = Some c) →
  abandoned c s'.
Proof.
  intros (Hlt & Hns & Hno & Hh & Hv) Hsig Hnew Hlen Hpend Hheld Hvis.
  repeat split.
  - lia.
  - rewrite Hsig. intros [?|?]%elem_of_app; done.
  - intros k Hk. by eapply Hno, Hpend.
  - intros [?|[[k Hk]|?]]%Hheld; [done| |lia]. by eapply Hno.
  - intros [?|[k Hk]]%Hvis; [done|]. by eapply Hno.
Qed.

Lemma abandoned_frame c s s' :
  abandoned c s →
  signals (st s') = signals (st s) →
  length (heap (st s')) = length (heap (st s)) →
  (∀ k, pending (client (st s')) !! k = Some c →
        pending (client (st s)) !! k = Some c) →
  held s' = held s →
  to_visit (recv s') = to_visit (recv s) →
  abandoned c s'.
Proof.
  intros Hab Hsig Hlen Hpend Hheld Hvis.
  apply (abandoned_next c s s' []);
    rewrite ?app_nil_r, ?Hlen, ?Hheld, ?Hvis; auto.
  apply not_elem_of_nil.
Qed.

Lemma abandoned_enter c sync call0 st1 s0 s :
  abandoned c s →
  client st1 = client (st s) →
  signals st1 = signals (st s) →
  heap st1 = heap (st s) ++ [call0] →
  recv s0 = recv s →
  sender s = SendIdle →
  abandoned c (enter sync (length (heap (st s))) st1 s0).
Proof.
  intros Hab Hcl Hsig Hheap Hrecv Hidle. unfold enter.
  pose proof Hab as (Hlt & _).
  destruct (closing (client st1) || shutdown (client st1)) eqn:Hav.
  - rewrite (registerCall_unavailable _ _ Hav).
    apply (abandoned_next c s _ []); simpl;
      rewrite ?Hsig, ?Hheap, ?Hcl, ?Hrecv, ?app_nil_r, ?length_alter,
        ?length_app; simpl; auto; try lia.
    + apply not_elem_of_nil.
    + unfold held. simpl. rewrite ?Hrecv, Hidle.
      intros [?|?%list_elem_of_singleton]%elem_of_app; [left|lia].
      rewrite app_nil_r. done.
  - apply orb_false_elim in Hav as [Hclo Hsh].
    rewrite (registerCall_available _ _ Hclo Hsh).
    apply (abandoned_next c s _ []); simpl;
      rewrite ?Hsig, ?Hheap, ?Hcl, ?Hrecv, ?app_nil_r, ?length_alter,
        ?length_app; simpl; auto; try lia.
    + apply not_elem_of_nil.
    + intros k [[<- <-]|[Hne Hk]]%lookup_insert_Some; [lia|done].
    + unfold held. simpl. rewrite ?Hrecv, Hidle. auto.
Qed.

Lemma step_abandoned c ev s s' :
  abandoned c s → step ev s = Some s' → abandoned c s'.
Proof.
  intros Hab Hstep. pose proof Hab as (Hlt & Hns & Hno & Hh & Hv).
  destruct ev as [n|sm args reply doneq|sm args reply|wres| |hres|bres| |order
                 | | |c0 ctx pick|d|cres].
  - simpl in Hstep. simplify_eq/=. by apply (abandoned_frame c s).
  - apply step_Go_inv in Hstep as (Hidle & c1 & st1 & Hgo & ->).
    apply Go_call_inv in Hgo as (-> & Hcl & Hsig & _ & d & Hheap).
    by eapply abandoned_enter.
  - apply step_Call_inv in Hstep as (Hidle & c1 & st1 & d0 & Hgo & ->).
    apply Go_call_inv in Hgo as (-> & Hcl & Hsig & _ & d & Hheap).
    simpl in *. by eapply abandoned_enter.
  - simpl in Hstep. destruct (sender s) as [|c1 n sync|] eqn:Hw; try done.
    unfold write in Hstep.
    destruct (heap (st s) !! c1) as [call|]; simpl in Hstep; [|done].
    assert (Hheld : held s = recv_held (recv s)).
    { unfold held. by rewrite Hw, app_nil_r. }
    destruct wres as [e|].
    + destruct (pending (client (st s)) !! n) as [c'|] eqn:Hp; simplify_eq/=.
      * apply (abandoned_next c s _ []); simpl;
          rewrite ?app_nil_r, ?length_alter; auto; try apply not_elem_of_nil.
        -- intros k. by intros [_ ?]%lookup_delete_Some.
        -- unfold held at 1. simpl. rewrite Hheld.
           intros [?| ->%list_elem_of_singleton]%elem_of_app; eauto.
      * apply (abandoned_frame c s); simpl; auto.
        -- intros k. by intros [_ ?]%lookup_delete_Some.
        -- unfold held at 1. simpl. by rewrite Hheld, app_nil_r.
    + simplify_eq/=. apply (abandoned_frame c s); simpl; auto.
      unfold held at 1. simpl. by rewrite Hheld, app_nil_r.
  - simpl in Hstep. destruct (sender s) as [| |c' c1 sync] eqn:Hw; try done.
    destruct (done c' (st s)) as [st1| |] eqn:Hdone; simplify_eq/=.
    apply done_inv in Hdone as (call & ch & Hc & _ & _ & ->).
    apply (abandoned_next c s _ [c']); simpl; auto.
    + intros ->%list_elem_of_singleton. apply Hh, held_send.
      rewrite Hw. by left.
    + unfold held at 1. simpl. rewrite app_nil_r. intros Hc0. left.
      by apply held_recv.
  - simpl in Hstep. destruct (recv s) eqn:Hrecv; try done.
    destruct hres as [h|e]; simplify_eq/=.
    + apply (abandoned_next c s _ []); simpl; rewrite ?app_nil_r; auto; try apply not_elem_of_nil.
      * intros k. by intros [_ ?]%lookup_delete_Some.
      * unfold held at 1. simpl.
        intros [Hc|Hc]%elem_of_app; [|left; by apply held_send].
        destruct (pending (client (st s)) !! codec.Seq h) as [c1|] eqn:Hp;
          [|by apply elem_of_nil in Hc].
        apply list_elem_of_singleton in Hc as ->. eauto.
      * intros Hc. by apply elem_of_nil in Hc.
    + apply (abandoned_frame c s); simpl; rewrite ?Hrecv; auto.
      unfold held. simpl. by rewrite Hrecv.
  - simpl in Hstep. destruct (recv s) as [|h call| | | |] eqn:Hrecv; try done.
    destruct (read_body h call bres (st s)) as [st1 r] eqn:Hbody.
    simplify_eq/=.
    apply read_body_inv in Hbody as (Hcl & Hsig & Hlen & Hseq & Hrh & Htv & _).
    apply (abandoned_frame c s); simpl; rewrite ?Hcl, ?Hrecv; auto.
    unfold held. simpl. by rewrite Hrecv, Hrh.
  - simpl in Hstep. destruct (recv s) as [| |c1 err| | |] eqn:Hrecv; try done.
    destruct (done c1 (st s)) as [st1| |] eqn:Hdone; simplify_eq/=.
    apply done_inv in Hdone as (call & ch & Hc & _ & _ & ->).
    apply (abandoned_next c s _ [c1]); simpl; rewrite ?next_to_visit; auto.
    + intros ->%list_elem_of_singleton. apply Hh, held_recv.
      rewrite Hrecv. by left.
    + unfold held at 1. simpl. rewrite next_held. intros Hc0. left.
      by apply held_send.
    + intros Hc0. by apply elem_of_nil in Hc0.
  - simpl in Hstep. destruct (recv s) as [| | |e| |] eqn:Hrecv; try done.
    destruct (sender s) eqn:Hsender; try done.
    case_decide as Hperm; simplify_eq/=.
    apply (abandoned_next c s _ []); simpl; rewrite ?app_nil_r; auto; try apply not_elem_of_nil.
    + unfold held. simpl. rewrite Hrecv, Hsender. auto.
    + intros Hc. right. by eapply elem_of_range.
  - simpl in Hstep.
    destruct (recv s) as [| | | |e [|[k c1] rest]|] eqn:Hrecv; try done.
    destruct (done c1 _) as [st1| |] eqn:Hdone; simplify_eq/=.
    apply done_with_call_inv in Hdone as (call & ch & Hc & _ & _ & ->).
    simpl in Hv. apply not_elem_of_cons in Hv as [Hne Hv].
    apply (abandoned_next c s _ [c1]); simpl; rewrite ?length_alter; auto.
    + by intros ->%list_elem_of_singleton.
    + unfold held. simpl. rewrite Hrecv. auto.
    + intros Hc0. done.
  - simpl in Hstep.
    destruct (recv s) as [| | | |e [|? ?]|] eqn:Hrecv; simplify_eq/=.
    apply (abandoned_frame c s); simpl; rewrite ?Hrecv; auto.
    unfold held. simpl. by rewrite Hrecv.
  - simpl in Hstep. case_decide; [|done].
    destruct (ranging (recv s) && takes_ctx ctx pick c0 (st s)); [done|].
    destruct (Call_select ctx pick c0 (st s)) as [[r st1]| |] eqn:Hsel;
      simplify_eq/=.
    apply Call_select_inv in Hsel as (Hhp & Hs & _ & _ & _ & _ & Hp).
    apply (abandoned_frame c s); simpl; rewrite ?Hhp; auto.
    intros k Hk. destruct Hp as [Hp|[k' Hp]]; rewrite Hp in Hk; [done|].
    by apply lookup_delete_Some in Hk as [_ ?].
  - simpl in Hstep. case_decide; [done|].
    destruct (chans (st s) !! d) as [ch|]; simpl in Hstep; [|done].
    destruct (cbuf ch); simplify_eq/=. by apply (abandoned_frame c s).
  - simpl in Hstep. destruct (ranging (recv s)); simplify_eq/=.
    apply (abandoned_frame c s); try done;
      unfold Close; simpl; by destruct (closing (client (st s))).
Qed.

Lemma run_abandoned c evs s s' :
  abandoned c s → run evs s = Some s' → abandoned c s'.
Proof.
  revert s. induction evs as [|ev evs IH]; intros s Hab Hrun.
  - by simplify_eq/=.
  - simpl in Hrun. destruct (step ev s) as [s1|] eqn:Hstep; simplify_eq/=.
    eauto using step_abandoned.
Qed.
(** *** [closing] is never cleared *)

Lemma enter_closing sync c st1 s0 :
  closing (client st1) = true →
  closing (client (st (enter sync c st1 s0))) = true.
Proof.
  intros Hcl. unfold enter.
  rewrite registerCall_unavailable by (by rewrite Hcl). done.
Qed.

Lemma step_closing ev s s' :
  closing (client (st s)) = true → step ev s = Some s' →
  closing (client (st s')) = true.
Proof.
  intros Hclo Hstep.
  destruct ev as [n|sm args reply doneq|sm args reply|wres| |hres|bres| |order
                 | | |c0 ctx pick|d|cres].
  - simpl in Hstep. by simplify_eq/=.
  - apply step_Go_inv in Hstep as (Hidle & c1 & st1 & Hgo & ->).
    apply Go_call_inv in Hgo as (-> & Hcl & _).
    apply enter_closing. by rewrite Hcl.
  - apply step_Call_inv in Hstep as (Hidle & c1 & st1 & d0 & Hgo & ->).
    apply Go_call_inv in Hgo as (-> & Hcl & _).
    apply enter_closing. by rewrite Hcl.
  - simpl in Hstep. destruct (sender s) as [|c1 n sync|] eqn:Hw; try done.
    unfold write in Hstep.
    destruct (heap (st s) !! c1) as [call|]; simpl in Hstep; [|done].
    destruct wres as [e|]; [|by simplify_eq/=].
    by destruct (pending (client (st s)) !! n); simplify_eq/=.
  - simpl in Hstep. destruct (sender s) as [| |c' c1 sync] eqn:Hw; try done.
    destruct (done c' (st s)) as [st1| |] eqn:Hdone; simplify_eq/=.
    by apply done_inv in Hdone as (call & ch & _ & _ & _ & ->).
  - simpl in Hstep. destruct (recv s) eqn:Hrecv; try done.
    by destruct hres as [h|e]; simplify_eq/=.
  - simpl in Hstep. destruct (recv s) as [|h call| | | |] eqn:Hrecv; try done.
    destruct (read_body h call bres (st s)) as [st1 r] eqn:Hbody.
    simplify_eq/=. apply read_body_inv in Hbody as (Hcl & _). by rewrite Hcl.
  - simpl in Hstep. destruct (recv s) as [| |c1 err| | |] eqn:Hrecv; try done.
    destruct (done c1 (st s)) as [st1| |] eqn:Hdone; simplify_eq/=.
    by apply done_inv in Hdone as (call & ch & _ & _ & _ & ->).
  - simpl in Hstep. destruct (recv s) as [| | |e| |] eqn:Hrecv; try done.
    destruct (sender s) eqn:Hsender; try done.
    by case_decide as Hperm; simplify_eq/=.
  - simpl in Hstep.
    destruct (recv s) as [| | | |e [|[k c1] rest]|] eqn:Hrecv; try done.
    destruct (done c1 _) as [st1| |] eqn:Hdone; simplify_eq/=.
    by apply done_with_call_inv in Hdone as (call & ch & _ & _ & _ & ->).
  - simpl in Hstep.
    by destruct (recv s) as [| | | |e [|? ?]|] eqn:Hrecv; simplify_eq/=.
  - simpl in Hstep. case_decide; [|done].
    destruct (ranging (recv s) && takes_ctx ctx pick c0 (st s)); [done|].
    destruct (Call_select ctx pick c0 (st s)) as [[r st1]| |] eqn:Hsel;
      simplify_eq/=.
    apply Call_select_inv in Hsel as (_ & _ & _ & _ & Hcl & _). by rewrite Hcl.
  - simpl in Hstep. case_decide; [done|].
    destruct (chans (st s) !! d) as [ch|]; simpl in Hstep; [|done].
    by destruct (cbuf ch); simplify_eq/=.
  - simpl in Hstep. destruct (ranging (recv s)); simplify_eq/=.
    unfold Close. by rewrite Hclo.
Qed.

Lemma run_closing evs s s' :
  closing (client (st s)) = true → run evs s = Some s' →
  closing (client (st s')) = true.
Proof.
  revert s. induction evs as [|ev evs IH]; intros s Hclo Hrun.
  - by simplify_eq/=.
  - simpl in Hrun. destruct (step ev s) as [s1|] eqn:Hstep; simplify_eq/=.
    eauto using step_closing.
Qed.

(** ** Exactly-once completion *)

(** C1, as the code has it. In every state a client reaches, under any
    interleaving of callers, cancellations, the receiver and [Close], no
    call has been completed more than once: registration failure, write
    failure, remote error, decoded reply, undecodable reply and bulk
    termination exclude one another. A call may get no completion: one
    that has left [pending] without being completed is never completed
    later. *)
Theorem at_most_one_completion (evs : list Event) (s : Sys) :
  run evs init = Some s →
  NoDup (signals (st s)) ∧
  ∀ c evs' s',
    abandoned c s → run evs' s = Some s' → c ∉ signals (st s').
Proof.
  intros Hrun. split.
  - apply inv_nodup, reachable_inv. by exists evs.
  - intros c evs' s' Hab Hrun'.
    by destruct (run_abandoned c evs' s s' Hab Hrun') as (_ & ? & _).
Qed.

(** The theorem at a run in which a write fails, a response arrives, the
    connection breaks and a call is submitted afterwards. *)
Lemma at_most_one_completion_witness :
  ∃ s, run sample_run init = Some s ∧
       signals (st s) = [0; 1; 2; 3] ∧ NoDup (signals (st s)).
Proof.
  assert (Hrun : ∃ s, run sample_run init = Some s ∧
                      signals (st s) = [0; 1; 2; 3])
    by (eexists; split; vm_compute; reflexivity).
  destruct Hrun as (s & Hrun & Hsig). exists s.
  split; [exact Hrun|]. split; [exact Hsig|].
  by destruct (at_most_one_completion sample_run s Hrun).
Defined.

(** C1, as stated, fails: a call of [Client.Call] is registered with
    sequence number 0, its request is written, its context is done before
    a response arrives; the call is removed from [pending] and, whatever
    happens next, is never completed. *)
Lemma cancelled_call_is_never_completed :
  ∃ s,
    run [EvCall "Foo.Sum" "1" "0"; EvWrite None;
         EvSelect 0 (CtxDone "context canceled") PickCtx] init = Some s ∧
    issued s = [0%Z] ∧
    Seq <$> heap (st s) !! 0 = Some 0%Z ∧
    ∀ evs s', run evs s = Some s' → 0 ∉ signals (st s').
Proof.
  eexists. split; [vm_compute; reflexivity|].
  split; [reflexivity|]. split; [reflexivity|].
  intros evs s' Hrun.
  eapply run_abandoned in Hrun as (_ & ? & _); [done|].
  repeat split; simpl.
  - lia.
  - apply not_elem_of_nil.
  - intros k Hk. vm_compute in Hk. done.
  - apply not_elem_of_nil.
  - apply not_elem_of_nil.
Qed.

(** ** Sequence numbers *)

Lemma issued_lookup s i n :
  registry_inv s → (Z.of_nat (length (issued s)) ≤ two64)%Z →
  issued s !! i = Some n → n = Z.of_nat i.
Proof.
  intros Hinv Hlen Hi. rewrite (inv_issued s Hinv) in Hi.
  rewrite list_lookup_fmap in Hi.
  destruct (List.seq 0 (length (issued s)) !! i) as [j|] eqn:Hj; simplify_eq/=.
  apply lookup_seq in Hj as [-> Hlt]. simpl. apply wrap64_small. lia.
Qed.

Lemma issued_lookup_wrap s i n :
  registry_inv s → issued s !! i = Some n → n = wrap64 (Z.of_nat i).
Proof.
  intros Hinv Hi. rewrite (inv_issued s Hinv) in Hi.
  rewrite list_lookup_fmap in Hi.
  destruct (List.seq 0 (length (issued s)) !! i) as [j|] eqn:Hj; simplify_eq/=.
  by apply lookup_seq in Hj as [-> Hlt].
Qed.

Lemma issued_lookup_lt s i :
  registry_inv s → i < length (issued s) →
  issued s !! i = Some (wrap64 (Z.of_nat i)).
Proof.
  intros Hinv Hlt. rewrite (inv_issued s Hinv), list_lookup_fmap.
  by rewrite lookup_seq_lt.
Qed.

Lemma issued_wraps s N :
  registry_inv s → Z.of_nat N = two64 → N < length (issued s) →
  issued s !! N = Some 0%Z.
Proof.
  intros Hinv HN Hlt. rewrite (issued_lookup_lt s N Hinv Hlt), HN.
  unfold wrap64. by rewrite Z_mod_same_full.
Qed.

Lemma two64_nat : Z.of_nat (Z.to_nat (2 ^ 64)) = two64.
Proof. apply Z2Nat.id. by apply Z.pow_nonneg. Qed.

(** A caller of [Go] on an available client registers, and its request
    is written. *)
Lemma step_Go_Write sm args reply s :
  sender s = SendIdle → recv s = RecvHeader →
  closing (client (st s)) = false → shutdown (client (st s)) = false →
  ∃ s', run [EvGo sm args reply None; EvWrite None] s = Some s' ∧
    sender s' = SendIdle ∧ recv s' = RecvHeader ∧
    closing (client (st s')) = false ∧ shutdown (client (st s')) = false ∧
    length (issued s') = S (length (issued s)).
Proof.
  intros Hidle Hrecv Hcl Hsh. simpl. rewrite Hidle, Hrecv. simpl.
  unfold enter. rewrite registerCall_available by done. simpl.
  unfold write. simpl.
  rewrite list_lookup_alter_eq, lookup_last. simpl.
  eexists. split; [done|]. simpl. rewrite length_app. simpl.
  repeat split; try done. lia.
Qed.

Lemma run_app evs1 evs2 s :
  run (evs1 ++ evs2) s = s1 ← run evs1 s; run evs2 s1.
Proof.
  revert s. induction evs1 as [|ev evs1 IH]; intros s; [done|].
  simpl. destruct (step ev s); simpl; [apply IH|done].
Qed.

Lemma run_registrations n s :
  sender s = SendIdle → recv s = RecvHeader →
  closing (client (st s)) = false → shutdown (client (st s)) = false →
  ∃ s', run (registrations n) s = Some s' ∧
    sender s' = SendIdle ∧ recv s' = RecvHeader ∧
    closing (client (st s')) = false ∧ shutdown (client (st s')) = false ∧
    length (issued s') = length (issued s) + n.
Proof.
  revert s. induction n as [|n IH]; intros s Hidle Hrecv Hcl Hsh.
  - exists s. repeat split; try done; lia.
  - destruct (step_Go_Write "Foo.Sum" "1" "0" s Hidle Hrecv Hcl Hsh)
      as (s1 & Hrun1 & Hidle1 & Hrecv1 & Hcl1 & Hsh1 & Hlen1).
    destruct (IH s1 Hidle1 Hrecv1 Hcl1 Hsh1)
      as (s' & Hrun & Hidle' & Hrecv' & Hcl' & Hsh' & Hlen').
    exists s'. split.
    + change (registrations (S n)) with
        ([EvGo "Foo.Sum" "1" "0" None; EvWrite None] ++ registrations n).
      rewrite run_app, Hrun1. exact Hrun.
    + repeat split; try done; lia.
Qed.

(** C2, as the code has it. [registerCall] on a client that is closing
    or shut down returns [ErrShutdown] and leaves the state as it is;
    otherwise it stores the counter in the [Seq] field of the call, whose
    other fields it leaves alone, puts the call in [pending] under that
    number, increments the counter, a [uint64], and returns the old value.
    In every run of a client the i-th successful registration (from 0)
    returned i modulo 2^64. So, as long as no more than 2^64 registrations
    have succeeded, the numbers returned are 0, 1, 2, ...: pairwise
    different and strictly increasing; past that, the registration
    after the 2^64-th returned 0 again. *)
Theorem registerCall_sequence (c : ptr) (σ : State) (evs : list Event) (s : Sys) :
  (closing (client σ) || shutdown (client σ) = true →
   registerCall c σ = (0%Z, Some ErrShutdown, σ))
  ∧
  (closing (client σ) = false → shutdown (client σ) = false →
   ∃ σ', registerCall c σ = (seq (client σ), None, σ') ∧
     (∀ call, heap σ !! c = Some call →
        heap σ' !! c =
          Some (mkCall (seq (client σ)) (ServiceMethod call) (Args call)
                  (Reply call) (Error call) (Done call))) ∧
     (∀ c', c' ≠ c → heap σ' !! c' = heap σ !! c') ∧
     length (heap σ') = length (heap σ) ∧
     pending (client σ') !! seq (client σ) = Some c ∧
     (∀ k, k ≠ seq (client σ) →
        pending (client σ') !! k = pending (client σ) !! k) ∧
     seq (client σ') = ((seq (client σ) + 1) mod 2 ^ 64)%Z ∧
     header (client σ') = header (client σ) ∧
     closing (client σ') = false ∧ shutdown (client σ') = false ∧
     chans σ' = chans σ ∧ wire σ' = wire σ ∧ signals σ' = signals σ)
  ∧
  (run evs init = Some s →
   (∀ i n, issued s !! i = Some n → n = (Z.of_nat i mod 2 ^ 64)%Z) ∧
   ((Z.of_nat (length (issued s)) ≤ 2 ^ 64)%Z →
    (∀ i n, issued s !! i = Some n → n = Z.of_nat i) ∧
    NoDup (issued s) ∧
    (∀ i j a b, i < j → issued s !! i = Some a → issued s !! j = Some b →
                (a < b)%Z)) ∧
   ((2 ^ 64 < Z.of_nat (length (issued s)))%Z →
    issued s !! 0 = Some 0%Z ∧ issued s !! Z.to_nat (2 ^ 64) = Some 0%Z)).
Proof.
  split; [|split].
  - apply registerCall_unavailable.
  - intros Hcl Hsh. eexists. split; [by apply registerCall_available|]. simpl.
    repeat split; try done.
    + intros call Hc. by rewrite list_lookup_alter_eq, Hc.
    + intros c' Hne. by apply list_lookup_alter_ne.
    + apply length_alter.
    + apply lookup_insert_eq.
    + intros k Hne. by apply lookup_insert_ne.
  - intros Hrun.
    assert (Hinv : registry_inv s) by (apply reachable_inv; by exists evs).
    split; [|split].
    + intros i n Hi. by apply issued_lookup_wrap in Hi.
    + intros Hlen.
      pose proof (λ i n, issued_lookup s i n Hinv Hlen) as Hi.
      split; [done|]. split.
      * apply NoDup_alt. intros i j n Hin Hjn.
        apply Hi in Hin. apply Hi in Hjn. lia.
      * intros i j a b Hlt Ha Hb. apply Hi in Ha. apply Hi in Hb. lia.
    + intros Hlen. split.
      * apply (issued_lookup_lt s 0 Hinv). lia.
      * apply (issued_wraps s _ Hinv two64_nat). lia.
Qed.

(** The theorem at the registration of a call on a fresh client, and at
    a run with three registrations. *)
Lemma registerCall_sequence_witness :
  (∃ σ', registerCall 0 (mkState (client newClientCodec)
                           [mkCall 0 "Foo.Sum" "1" "0" None 0] [mkChan 1 []] [] [])
         = (0%Z, None, σ') ∧
         heap σ' !! 0 = Some (mkCall 0 "Foo.Sum" "1" "0" None 0) ∧
         pending (client σ') !! 0%Z = Some 0 ∧ seq (client σ') = 1%Z) ∧
  ∃ s, run three_registrations init = Some s ∧
       issued s = [0%Z; 1%Z; 2%Z] ∧ NoDup (issued s).
Proof.
  split.
  - destruct (registerCall_sequence 0
                (mkState (client newClientCodec)
                   [mkCall 0 "Foo.Sum" "1" "0" None 0] [mkChan 1 []] [] [])
                [] init) as (_ & H & _).
    destruct (H eq_refl eq_refl) as (σ' & Hr & Hc & _ & _ & Hp & _ & Hs & _).
    exists σ'. split; [exact Hr|]. split; [exact (Hc _ eq_refl)|].
    split; [exact Hp|exact Hs].
  - assert (Hrun : ∃ s, run three_registrations init = Some s ∧
                        issued s = [0%Z; 1%Z; 2%Z])
      by (eexists; split; vm_compute; reflexivity).
    destruct Hrun as (s & Hrun & Hiss). exists s.
    split; [exact Hrun|]. split; [exact Hiss|].
    destruct (registerCall_sequence 0 newClientCodec three_registrations s)
      as (_ & _ & H).
    destruct (H Hrun) as (_ & Hb & _).
    destruct Hb as (_ & Hnd & _); [|exact Hnd].
    rewrite Hiss. vm_compute. discriminate.
Defined.

(** After 2^64 registrations the counter is back at 0. *)
Lemma reused_after (N : nat) :
  Z.of_nat N = two64 →
  ∃ s,
    run (registrations (N + 1)) init = Some s ∧
    issued s !! 0 = Some 0%Z ∧
    issued s !! N = Some 0%Z ∧
    ¬ NoDup (issued s).
Proof.
  intros HN.
  destruct (run_registrations (N + 1) init eq_refl eq_refl eq_refl eq_refl)
    as (s & Hrun & _ & _ & _ & _ & Hlen).
  assert (Hinv : registry_inv s) by (apply reachable_inv; by eexists).
  change (length (issued init)) with 0 in Hlen.
  assert (H0 : issued s !! 0 = Some 0%Z)
    by (apply (issued_lookup_lt s 0 Hinv); lia).
  assert (H1 : issued s !! N = Some 0%Z)
    by (apply (issued_wraps s _ Hinv HN); lia).
  exists s. split; [exact Hrun|]. split; [exact H0|]. split; [exact H1|].
  intros Hnd. pose proof (NoDup_lookup _ _ _ _ Hnd H0 H1) as Heq.
  subst N. vm_compute in HN. discriminate HN.
Qed.

(** C2, as stated, fails: in the run of 2^64 + 1 calls of [Go], each
    written before the next, the last registration returns 0, the number
    the first one returned. *)
Lemma sequence_number_reused :
  ∃ s,
    run (registrations (Z.to_nat (2 ^ 64) + 1)) init = Some s ∧
    issued s !! 0 = Some 0%Z ∧
    issued s !! Z.to_nat (2 ^ 64) = Some 0%Z ∧
    ¬ NoDup (issued s).
Proof. exact (reused_after _ two64_nat). Qed.

(** ** Closing *)

(** C7, as the code has it. [Close] on a client that is closing returns
    [ErrShutdown] and does nothing; otherwise it sets [closing], closes
    the codec and returns the result of that. [closing] stays set in every
    later state, and there a second [Close] returns [ErrShutdown] and
    [Client.Call] never invokes the codec; it returns [ErrShutdown] when
    its [select] takes the completion, which it must when the context is
    live; with a context that is done the [select] may take that case and
    return the error of the context. *)
Theorem Close_refuses_further_work (σ : State) (cres : option gerror) :
  (closing (client σ) = true → Close cres σ = (Some ErrShutdown, σ))
  ∧
  (closing (client σ) = false →
   Close cres σ =
     (cres,
      mkState (set_closing true (client σ)) (heap σ) (chans σ)
        (wire σ ++ [codec.OpClose]) (signals σ)))
  ∧
  closing (client (Close cres σ).2) = true
  ∧
  (∀ s evs s',
     closing (client (st s)) = true → run evs s = Some s' →
     closing (client (st s')) = true)
  ∧
  (∀ σ', closing (client σ') = true →
     (∀ cres', (Close cres' σ').1 = Some ErrShutdown) ∧
     ∀ ctx pick serviceMethod args reply wres,
     ∃ r σ'',
       Client_Call ctx pick serviceMethod args reply wres σ' = Ok (r, σ'') ∧
       wire σ'' = wire σ' ∧
       (ctx = CtxLive ∨ pick = PickDone → r = Some ErrShutdown) ∧
       (r = Some ErrShutdown ∨
        ∃ e, ctx = CtxDone e ∧ r = Some ("rpc client: call failed: " +:+ e))).
Proof.
  split; [|split; [|split; [|split]]].
  - intros Hcl. unfold Close. by rewrite Hcl.
  - intros Hcl. unfold Close. by rewrite Hcl.
  - unfold Close. by destruct (closing (client σ)) eqn:Hcl.
  - intros s evs s' Hcl Hrun. by eapply run_closing.
  - intros σ' Hcl. split.
    + intros cres'. unfold Close. by rewrite Hcl.
    + intros. by apply Client_Call_closing.
Qed.

(** The theorem at a fresh client that is closed and then called. *)
Lemma Close_refuses_further_work_witness :
  ∃ σ', Client_Call CtxLive PickCtx "Foo.Sum" "1" "0" None
          (Close None newClientCodec).2 = Ok (Some ErrShutdown, σ') ∧
        wire σ' = [codec.OpClose].
Proof.
  destruct (Close_refuses_further_work newClientCodec None)
    as (_ & _ & Hcl & _ & H).
  destruct (H _ Hcl) as [_ Hcall].
  destruct (Hcall CtxLive PickCtx "Foo.Sum" "1" "0" None)
    as (r & σ' & Hrun & Hwire & Hr & _).
  exists σ'. rewrite (Hr (or_introl eq_refl)) in Hrun. by split.
Defined.

(** C7, as stated, fails: after [Close], [Client.Call] with a context that
    is already done can return the error of the context instead of
    [ErrShutdown], when its [select] takes that case. *)
Lemma Call_after_Close_may_return_context_error :
  ∃ σ',
    (Close None newClientCodec).1 = None ∧
    Client_Call (CtxDone "context canceled") PickCtx "Foo.Sum" "1" "0" None
      (Close None newClientCodec).2 =
      Ok (Some "rpc client: call failed: context canceled", σ') ∧
    Some "rpc client: call failed: context canceled" ≠ Some ErrShutdown.
Proof.
  eexists. split; [reflexivity|]. split; [vm_compute; reflexivity|]. done.
Qed.

(** ** Failures of the send path *)

Lemma writing_inv_init : writing_inv init.
Proof. by intros c n sync. Qed.

Lemma writing_inv_frame s s' :
  writing_inv s →
  sender s' = sender s →
  (∀ c, Seq <$> heap (st s') !! c = Seq <$> heap (st s) !! c) →
  (∀ k c, pending (client (st s')) !! k = Some c →
          pending (client (st s)) !! k = Some c) →
  writing_inv s'.
Proof.
  intros Hinv Hw Hseq Hp c n sync Hs. rewrite Hw in Hs.
  destruct (Hinv c n sync Hs) as [Hc Hn]. rewrite Hseq. split; [done|].
  intros c' Hc'. by apply Hn, Hp.
Qed.

Lemma writing_inv_idle s : (∀ c n sync, sender s ≠ SendWrite c n sync) → writing_inv s.
Proof. intros Hne c n sync Hs. by destruct (Hne c n sync). Qed.

Lemma enter_writing sync c st1 s0 call :
  heap st1 !! c = Some call →
  writing_inv (enter sync c st1 s0).
Proof.
  intros Hc. unfold enter.
  destruct (closing (client st1) || shutdown (client st1)) eqn:Hav.
  - rewrite (registerCall_unavailable _ _ Hav). by apply writing_inv_idle.
  - apply orb_false_elim in Hav as [Hcl Hsh].
    rewrite (registerCall_available _ _ Hcl Hsh).
    intros c1 n1 sync1 [= <- <- <-]. simpl.
    rewrite list_lookup_alter_eq, Hc. split; [done|].
    intros c'. rewrite lookup_insert_eq. congruence.
Qed.

Lemma step_writing ev s s' :
  writing_inv s → step ev s = Some s' → writing_inv s'.
Proof.
  intros Hinv Hstep.
  destruct ev as [n|sm args reply doneq|sm args reply|wres| |hres|bres| |order
                 | | |c0 ctx pick|d|cres].
  - simpl in Hstep. simplify_eq/=. by apply (writing_inv_frame s).
  - apply step_Go_inv in Hstep as (Hidle & c1 & st1 & Hgo & ->).
    apply Go_call_inv in Hgo as (-> & _ & _ & _ & d & Hheap).
    eapply enter_writing. rewrite Hheap. apply lookup_last.
  - apply step_Call_inv in Hstep as (Hidle & c1 & st1 & d0 & Hgo & ->).
    apply Go_call_inv in Hgo as (-> & _ & _ & _ & d & Hheap).
    eapply enter_writing. rewrite Hheap. apply lookup_last.
  - simpl in Hstep. destruct (sender s) as [|c1 n sync|] eqn:Hw; try done.
    unfold write in Hstep.
    destruct (heap (st s) !! c1) as [call|]; simpl in Hstep; [|done].
    destruct wres as [e|]; [|simplify_eq/=; by apply writing_inv_idle].
    destruct (pending (client (st s)) !! n); simplify_eq/=;
      by apply writing_inv_idle.
  - simpl in Hstep. destruct (sender s) as [| |c' c1 sync] eqn:Hw; try done.
    destruct (done c' (st s)) as [st1| |] eqn:Hdone; simplify_eq/=.
    by apply writing_inv_idle.
  - simpl in Hstep. destruct (recv s) eqn:Hrecv; try done.
    destruct hres as [h|e]; simplify_eq/=.
    + apply (writing_inv_frame s); try done.
      simpl. intros k c. by intros [_ ?]%lookup_delete_Some.
    + by apply (writing_inv_frame s).
  - simpl in Hstep. destruct (recv s) as [|h call| | | |] eqn:Hrecv; try done.
    destruct (read_body h call bres (st s)) as [st1 r] eqn:Hbody.
    simplify_eq/=. apply read_body_inv in Hbody as (Hcl & _ & _ & Hseq & _).
    apply (writing_inv_frame s); try done. simpl. by rewrite Hcl.
  - simpl in Hstep. destruct (recv s) as [| |c1 err| | |] eqn:Hrecv; try done.
    destruct (done c1 (st s)) as [st1| |] eqn:Hdone; simplify_eq/=.
    apply done_inv in Hdone as (call & ch & _ & _ & _ & ->).
    by apply (writing_inv_frame s).
  - simpl in Hstep. destruct (recv s) as [| | |e| |] eqn:Hrecv; try done.
    destruct (sender s) eqn:Hsender; try done.
    case_decide as Hperm; simplify_eq/=. by apply writing_inv_idle.
  - simpl in Hstep.
    destruct (recv s) as [| | | |e [|[k c1] rest]|] eqn:Hrecv; try done.
    destruct (done c1 _) as [st1| |] eqn:Hdone; simplify_eq/=.
    apply done_with_call_inv in Hdone as (call & ch & _ & _ & _ & ->).
    apply (writing_inv_frame s); try done.
    simpl. intros c. by apply lookup_alter_Seq.
  - simpl in Hstep.
    destruct (recv s) as [| | | |e [|? ?]|] eqn:Hrecv; simplify_eq/=.
    by apply (writing_inv_frame s).
  - simpl in Hstep. case_decide; [|done].
    destruct (ranging (recv s) && takes_ctx ctx pick c0 (st s)); [done|].
    destruct (Call_select ctx pick c0 (st s)) as [[r st1]| |] eqn:Hsel;
      simplify_eq/=.
    apply Call_select_inv in Hsel as (Hh & _ & _ & _ & _ & _ & Hp).
    apply (writing_inv_frame s); try done; simpl.
    + intros c. by rewrite Hh.
    + intros k c. destruct Hp as [->|[k' ->]]; [done|].
      by intros [_ ?]%lookup_delete_Some.
  - simpl in Hstep. case_decide; [done|].
    destruct (chans (st s) !! d) as [ch|]; simpl in Hstep; [|done].
    destruct (cbuf ch); simplify_eq/=. by apply (writing_inv_frame s).
  - simpl in Hstep. destruct (ranging (recv s)); simplify_eq/=.
    apply (writing_inv_frame s); try done; simpl;
      unfold Close; by destruct (closing (client (st s))).
Qed.

Lemma run_writing evs s s' :
  writing_inv s → run evs s = Some s' → writing_inv s'.
Proof.
  revert s. induction evs as [|ev evs IH]; intros s Hinv Hrun.
  - by simplify_eq/=.
  - simpl in Hrun. destruct (step ev s) as [s1|] eqn:Hstep; simplify_eq/=.
    eauto using step_writing.
Qed.

(** C5, as the code has it. In [send], when [registerCall] fails the
    call is completed with [ErrShutdown] and the codec is not invoked.
    When [Write] fails after a successful registration, [send] removes the
    sequence number from [pending] and completes what [removeCall]
    returned with the error of the write: run on its own, [send] finds
    its call there. Among the other goroutines, in every state a client
    reaches with a caller between [registerCall] and [Write], [pending]
    holds under the number of the caller its call or nothing: in the first
    case the call gets the error of the write and is completed by the
    [call.done()] of [send], which goes through when the queue has room;
    in the second, [receive] having taken the call on a response with
    that number, [send] returns and leaves the call as it is. *)
Theorem send_failure_paths (wres : option gerror) (c : ptr) (σ : State)
    (call : Call) (ch : Chan) :
  heap σ !! c = Some call →
  chans σ !! Done call = Some ch →
  length (cbuf ch) < ccap ch →
  (closing (client σ) || shutdown (client σ) = true →
   ∃ σ', send wres c σ = Ok σ' ∧
     wire σ' = wire σ ∧
     client σ' = client σ ∧
     heap σ' !! c =
       Some (mkCall (Seq call) (ServiceMethod call) (Args call) (Reply call)
               (Some ErrShutdown) (Done call)) ∧
     (∀ c', c' ≠ c → heap σ' !! c' = heap σ !! c') ∧
     signals σ' = signals σ ++ [c] ∧
     chans σ' !! Done call = Some (mkChan (ccap ch) (cbuf ch ++ [c])))
  ∧
  (closing (client σ) = false → shutdown (client σ) = false →
   ∀ e, ∃ σ', send (Some e) c σ = Ok σ' ∧
     pending (client σ') = delete (seq (client σ)) (pending (client σ)) ∧
     pending (client σ') !! seq (client σ) = None ∧
     heap σ' !! c =
       Some (mkCall (seq (client σ)) (ServiceMethod call) (Args call)
               (Reply call) (Some e) (Done call)) ∧
     (∀ c', c' ≠ c → heap σ' !! c' = heap σ !! c') ∧
     signals σ' = signals σ ++ [c] ∧
     chans σ' !! Done call = Some (mkChan (ccap ch) (cbuf ch ++ [c])) ∧
     wire σ' = wire σ ++
       [codec.OpWrite
          (codec.mkHeader (ServiceMethod call) (seq (client σ)) EmptyString)
          (Args call)])
  ∧
  (∀ evs s c0 n sync e,
     run evs init = Some s → sender s = SendWrite c0 n sync →
     ∃ call0 s1,
       heap (st s) !! c0 = Some call0 ∧ Seq call0 = n ∧
       step (EvWrite (Some e)) s = Some s1 ∧
       wire (st s1) = wire (st s) ++
         [codec.OpWrite (codec.mkHeader (ServiceMethod call0) n EmptyString)
            (Args call0)] ∧
       pending (client (st s1)) = delete n (pending (client (st s))) ∧
       signals (st s1) = signals (st s) ∧
       chans (st s1) = chans (st s) ∧
       ((pending (client (st s)) !! n = Some c0 ∧
         sender s1 = SendDone c0 c0 sync ∧
         heap (st s1) !! c0 =
           Some (mkCall n (ServiceMethod call0) (Args call0) (Reply call0)
                   (Some e) (Done call0)) ∧
         ∀ ch0, chans (st s) !! Done call0 = Some ch0 →
           length (cbuf ch0) < ccap ch0 →
           ∃ s2, step EvSendDone s1 = Some s2 ∧
             sender s2 = SendIdle ∧
             signals (st s2) = signals (st s) ++ [c0] ∧
             heap (st s2) = heap (st s1) ∧
             chans (st s2) !! Done call0 =
               Some (mkChan (ccap ch0) (cbuf ch0 ++ [c0])))
        ∨
        (pending (client (st s)) !! n = None ∧
         sender s1 = SendIdle ∧
         heap (st s1) = heap (st s)))).
Proof.
  intros Hc Hch Hlt. split; [|split].
  - intros Hdown. eexists. split; [by eapply send_unavailable|]. simpl.
    rewrite list_lookup_alter_eq, Hc.
    repeat split; try done.
    + intros c' Hne. by apply list_lookup_alter_ne.
    + apply list_lookup_insert_eq. by eapply lookup_lt_Some.
  - intros Hcl Hsh e. eexists. split; [by eapply send_write_failed|]. simpl.
    rewrite !list_lookup_alter_eq, Hc.
    repeat split; try done.
    + apply lookup_delete_eq.
    + intros c' Hne. by rewrite !list_lookup_alter_ne.
    + apply list_lookup_insert_eq. by eapply lookup_lt_Some.
  - intros evs s c0 n sync e Hrun Hs.
    assert (Hw : writing_inv s) by (eapply run_writing; [apply writing_inv_init|done]).
    destruct (Hw c0 n sync Hs) as [Hseq Hn].
    destruct (heap (st s) !! c0) as [call0|] eqn:Hc0; simplify_eq/=.
    exists call0. unfold step, write. rewrite Hs, Hc0. simpl.
    destruct (pending (client (st s)) !! Seq call0) as [c'|] eqn:Hp.
    + rewrite (Hn c' eq_refl). eexists. split; [done|]. split; [done|].
      split; [done|]. simpl. repeat split; try done. left.
      rewrite list_lookup_alter_eq, Hc0. destruct call0; simpl in *.
      repeat split; try done. intros ch0 Hch0 Hlt0.
      erewrite done_with_call by done. simpl. eexists. split; [done|]. simpl.
      repeat split; try done.
      apply list_lookup_insert_eq. by eapply lookup_lt_Some.
    + eexists. split; [done|]. split; [done|]. split; [done|]. simpl.
      repeat split; try done. by right.
Qed.

(** The theorem at a client that has been closed, at a fresh one whose
    write fails, and at the run of one call of [Go] whose write fails. *)
Lemma send_failure_paths_witness :
  (∃ st', send None 0 (mkState (mkClient (codec.mkHeader EmptyString 0 EmptyString)
                                 0 ∅ true false)
                         [mkCall 0 "Foo.Sum" "1" "0" None 0] [mkChan 1 []] [] [])
          = Ok st' ∧ wire st' = [] ∧
          heap st' !! 0 = Some (mkCall 0 "Foo.Sum" "1" "0" (Some ErrShutdown) 0))
  ∧
  (∃ st', send (Some "broken pipe") 0
            (mkState (mkClient (codec.mkHeader EmptyString 0 EmptyString)
                        0 ∅ false false)
               [mkCall 0 "Foo.Sum" "1" "0" None 0] [mkChan 1 []] [] [])
          = Ok st' ∧ pending (client st') !! 0%Z = None ∧ signals st' = [0] ∧
          heap st' !! 0 = Some (mkCall 0 "Foo.Sum" "1" "0" (Some "broken pipe") 0))
  ∧
  (∃ s s1 s2,
     run [EvGo "Foo.Sum" "1" "0" None] init = Some s ∧
     step (EvWrite (Some "broken pipe")) s = Some s1 ∧
     step EvSendDone s1 = Some s2 ∧
     signals (st s2) = [0] ∧
     heap (st s2) !! 0 =
       Some (mkCall 0 "Foo.Sum" "1" "0" (Some "broken pipe") 0)).
Proof.
  split; [|split].
  - destruct (send_failure_paths None 0
      (mkState (mkClient (codec.mkHeader EmptyString 0 EmptyString) 0 ∅ true false)
         [mkCall 0 "Foo.Sum" "1" "0" None 0] [mkChan 1 []] [] [])
      (mkCall 0 "Foo.Sum" "1" "0" None 0) (mkChan 1 [])
      eq_refl eq_refl ltac:(simpl; lia)) as (H & _ & _).
    destruct (H eq_refl) as (st' & Hs & Hw & _ & Hh & _). by exists st'.
  - destruct (send_failure_paths None 0
      (mkState (mkClient (codec.mkHeader EmptyString 0 EmptyString) 0 ∅ false false)
         [mkCall 0 "Foo.Sum" "1" "0" None 0] [mkChan 1 []] [] [])
      (mkCall 0 "Foo.Sum" "1" "0" None 0) (mkChan 1 [])
      eq_refl eq_refl ltac:(simpl; lia)) as (_ & H & _).
    destruct (H eq_refl eq_refl "broken pipe")
      as (st' & Hs & _ & Hp & Hh & _ & Hsig & _).
    by exists st'.
  - destruct (send_failure_paths None 0
      (mkState (mkClient (codec.mkHeader EmptyString 0 EmptyString) 0 ∅ false false)
         [mkCall 0 "Foo.Sum" "1" "0" None 0] [mkChan 1 []] [] [])
      (mkCall 0 "Foo.Sum" "1" "0" None 0) (mkChan 1 [])
      eq_refl eq_refl ltac:(simpl; lia)) as (_ & _ & H).
    assert (Hrun : ∃ s, run [EvGo "Foo.Sum" "1" "0" None] init = Some s ∧
                        sender s = SendWrite 0 0 false ∧
                        heap (st s) !! 0 = Some (mkCall 0 "Foo.Sum" "1" "0" None 0) ∧
                        pending (client (st s)) !! 0%Z = Some 0 ∧
                        chans (st s) !! 0 = Some (mkChan 10 []) ∧
                        signals (st s) = [])
      by (eexists; repeat split; vm_compute; reflexivity).
    destruct Hrun as (s & Hrun & Hs & Hc & Hp & Hch & Hsig).
    destruct (H _ s 0 0%Z false "broken pipe" Hrun Hs)
      as (call0 & s1 & Hc0 & _ & Hstep & _ & _ & _ & _ & Hcases).
    rewrite Hc in Hc0. injection Hc0 as <-.
    destruct Hcases as [(_ & _ & Hh & Hdone)|(Hp' & _)];
      [|rewrite Hp in Hp'; discriminate Hp'].
    destruct (Hdone _ Hch ltac:(simpl; lia)) as (s2 & Hstep2 & _ & Hsig2 & Hh2 & _).
    exists s, s1, s2. split; [exact Hrun|]. split; [exact Hstep|].
    split; [exact Hstep2|]. rewrite Hsig2, Hsig, Hh2. split; [reflexivity|exact Hh].
Defined.

(** C5, as stated, fails: a call of [Client.Call] is registered with
    sequence number 0; before its [Write] returns, [receive] reads a
    header with that number and takes the call out of [pending]; [Write]
    then fails, [removeCall] returns nil and [send] returns: the call is
    not completed with the error of the write. It is completed by
    [receive], with the reply and no error. *)
Lemma failed_write_of_answered_call :
  ∃ s s1 s2,
    run answered_before_written init = Some s ∧
    issued s = [0%Z] ∧
    sender s = SendWrite 0 0 true ∧
    step (EvWrite (Some "broken pipe")) s = Some s1 ∧
    sender s1 = SendIdle ∧
    selecting s1 = [0] ∧
    pending (client (st s1)) !! 0%Z = None ∧
    signals (st s1) = [] ∧
    Error <$> heap (st s1) !! 0 = Some None ∧
    run [EvReadBody (codec.BodyOk "3"); EvRecvDone] s1 = Some s2 ∧
    signals (st s2) = [0] ∧
    heap (st s2) !! 0 = Some (mkCall 0 "Foo.Sum" "1" "3" None 0).
Proof.
  eexists _, _, _.
  split; [vm_compute; reflexivity|].
  split; [reflexivity|]. split; [reflexivity|].
  split; [vm_compute; reflexivity|].
  split; [reflexivity|]. split; [reflexivity|].
  split; [vm_compute; reflexivity|].
  split; [reflexivity|]. split; [reflexivity|].
  split; [vm_compute; reflexivity|].
  split; reflexivity.
Qed.
End ConcFacts.

(** * Further properties *)

(** ** The registry: registration and removal *)

(** X1. On a client that is neither closing nor shut down,
    [registerCall] followed by [removeCall] of the number it returned
    gives the call back and leaves [pending] as it was without that key
    (so as it was, when the key was free); no other key is touched, the
    counter stays incremented, and a second [removeCall] of the number
    returns nil and changes nothing. *)
Theorem registerCall_removeCall (c : ptr) (st : State) :
  closing (client st) = false → shutdown (client st) = false →
  ∃ st1 st2,
    registerCall c st = (seq (client st), None, st1) ∧
    removeCall (seq (client st)) st1 = (Some c, st2) ∧
    pending (client st2) = delete (seq (client st)) (pending (client st)) ∧
    (pending (client st) !! seq (client st) = None →
     pending (client st2) = pending (client st)) ∧
    (∀ k, k ≠ seq (client st) →
       pending (client st2) !! k = pending (client st) !! k) ∧
    seq (client st2) = wrap64 (seq (client st) + 1) ∧
    removeCall (seq (client st)) st2 = (None, st2).
Proof.
  intros Hcl Hsh. rewrite (registerCall_available _ _ Hcl Hsh).
  eexists _, _. split; [done|].
  split; [unfold removeCall; simpl; by rewrite lookup_insert_eq|].
  simpl. rewrite delete_insert_eq.
  split; [done|]. split; [by apply delete_id|].
  split; [intros k Hk; by apply lookup_delete_ne|]. split; [done|].
  apply removeCall_absent. simpl. rewrite delete_insert_eq.
  apply lookup_delete_eq.
Qed.

(** The theorem at a fresh client with one call allocated. *)
Lemma registerCall_removeCall_witness :
  ∃ st1 st2,
    registerCall 0 one_call = (0%Z, None, st1) ∧
    removeCall 0%Z st1 = (Some 0, st2) ∧
    pending (client st2) = ∅.
Proof.
  destruct (registerCall_removeCall 0 one_call eq_refl eq_refl)
    as (st1 & st2 & H1 & H2 & _ & H4 & _).
  exists st1, st2. split; [exact H1|]. split; [exact H2|].
  exact (H4 eq_refl).
Defined.

(** ** Dispatch of one response *)

Lemma done_full c st call ch :
  heap st !! c = Some call → chans st !! Done call = Some ch →
  ccap ch ≤ length (cbuf ch) → done c st = Blocked.
Proof.
  intros Hc Hch Hfull. unfold done. rewrite Hc. simpl. rewrite Hch. simpl.
  case_decide; [lia|done].
Qed.

Lemma done_with_call_full c f st call ch :
  heap st !! c = Some call →
  Done (f call) = Done call →
  chans st !! Done call = Some ch →
  ccap ch ≤ length (cbuf ch) →
  done c (with_call c f st) = Blocked.
Proof.
  intros Hc Hf Hch Hfull. eapply done_full; [|by rewrite Hf|done].
  simpl. by apply lookup_alter_heap.
Qed.



(** X3. One iteration of [receive] on a response whose header carries
    an error, for a pending call whose queue has room: the error of the
    call is the one of the header, its reply slot is left alone, the body
    is read with [ReadBody(nil)] and discarded, the call leaves [pending]
    and is sent once on its queue; the loop variable is the result of
    that [ReadBody]. *)
Theorem receive_iter_remote_error (h : codec.Header) (bres : codec.BodyRes)
    (st : State) (c : ptr) (call : Call) (ch : Chan) :
  pending (client st) !! codec.Seq h = Some c →
  codec.Error h ≠ EmptyString →
  heap st !! c = Some call →
  chans st !! Done call = Some ch →
  length (cbuf ch) < ccap ch →
  ∃ st',
    receive_iter (codec.HeaderOk h) bres st = Ok (body_err bres, st') ∧
    heap st' !! c =
      Some (mkCall (Seq call) (ServiceMethod call) (Args call) (Reply call)
              (Some (codec.Error h)) (Done call)) ∧
    (∀ c', c' ≠ c → heap st' !! c' = heap st !! c') ∧
    pending (client st') = delete (codec.Seq h) (pending (client st)) ∧
    signals st' = signals st ++ [c] ∧
    chans st' !! Done call = Some (mkChan (ccap ch) (cbuf ch ++ [c])) ∧
    wire st' = wire st ++ [codec.OpReadHeader; codec.OpReadBody None].
Proof.
  intros Hp Herr Hc Hch Hroom.
  rewrite (receive_iter_pending _ _ _ _ _ _ Hp Hc Hch Hroom). unfold deliver.
  destruct (decide (codec.Error h ≠ EmptyString)) as [_|Hd]; [|done].
  eexists. split; [done|]. simpl.
  split; [by rewrite list_lookup_alter_eq, Hc|].
  split; [intros c' Hne; by apply list_lookup_alter_ne|].
  split; [done|]. split; [done|].
  split; [apply list_lookup_insert_eq; by eapply lookup_lt_Some|]. done.
Qed.

(** The theorem at a response that reports an unknown method. *)
Lemma receive_iter_remote_error_witness :
  ∃ st',
    receive_iter (codec.HeaderOk (codec.mkHeader "Foo.Sum" 0 "no such method"))
      (codec.BodyOk "3") two_in_flight = Ok (None, st') ∧
    heap st' !! 0 =
      Some (mkCall 0 "Foo.Sum" "1" "0" (Some "no such method") 0).
Proof.
  destruct (receive_iter_remote_error
              (codec.mkHeader "Foo.Sum" 0 "no such method") (codec.BodyOk "3")
              two_in_flight 0 (mkCall 0 "Foo.Sum" "1" "0" None 0) (mkChan 10 []))
    as (st' & H1 & H2 & _);
    [reflexivity|discriminate|reflexivity|reflexivity|simpl; lia|].
  exists st'. split; [exact H1|exact H2].
Defined.

(** X4. [call.done()] is a plain channel send: when the queue of the
    pending call a response is for is full, the iteration of [receive]
    blocks, whatever the body is, and with it the whole loop: no later
    frame is dispatched. *)
Theorem receive_iter_blocks_on_full_queue (h : codec.Header)
    (bres : codec.BodyRes) (st : State) (c : ptr) (call : Call) (ch : Chan) :
  pending (client st) !! codec.Seq h = Some c →
  heap st !! c = Some call →
  chans st !! Done call = Some ch →
  ccap ch ≤ length (cbuf ch) →
  receive_iter (codec.HeaderOk h) bres st = Blocked ∧
  ∀ range rest, receive range ((codec.HeaderOk h, bres) :: rest) st = Blocked.
Proof.
  intros Hp Hc Hch Hfull.
  assert (Hiter : receive_iter (codec.HeaderOk h) bres st = Blocked).
  { unfold receive_iter, removeCall. simpl. rewrite Hp. unfold receive_body.
    case_decide.
    - change (log_op (codec.OpReadBody None) (with_call c ?f ?s)) with
        (with_call c f (log_op (codec.OpReadBody None) s)).
      by erewrite done_with_call_full; [|exact Hc|done|exact Hch|exact Hfull].
    - destruct bres as [v|e];
        by erewrite done_with_call_full; [|exact Hc|done|exact Hch|exact Hfull]. }
  split; [done|]. intros range rest. unfold receive.
  by rewrite receive_loop_cons, Hiter.
Qed.

(** The theorem at two calls of [Go] that share a queue of capacity 1
    whose owner has not yet received the first. *)
Lemma receive_iter_blocks_on_full_queue_witness :
  receive_iter (codec.HeaderOk (codec.mkHeader "Foo.Sum" 1 EmptyString))
    (codec.BodyOk "5") full_queue = Blocked.
Proof.
  apply (receive_iter_blocks_on_full_queue
           (codec.mkHeader "Foo.Sum" 1 EmptyString) (codec.BodyOk "5")
           full_queue 1 (mkCall 1 "Foo.Sum" "2" "0" None 0) (mkChan 1 [0]));
    [reflexivity|reflexivity|reflexivity|simpl; lia].
Defined.

(** ** The loop stops at the first read error *)

Lemma receive_iter_headers_read hres bres st err st' :
  receive_iter hres bres st = Ok (err, st') →
  headers_read st' = S (headers_read st).
Proof.
  unfold receive_iter. destruct hres as [h|e]; intros Hiter.
  - unfold removeCall in Hiter. simpl in Hiter.
    apply receive_body_inv in Hiter as (_ & _ & _ & _ & _ & _ & _ & _ & Hw).
    unfold headers_read. rewrite Hw. simpl.
    rewrite !filter_app, !length_app. simpl. lia.
  - simplify_eq/=. unfold headers_read. simpl.
    rewrite filter_app, length_app. simpl. lia.
Qed.

Lemma receive_loop_stops before f after st :
  Forall (λ f', read_err f' = None) before →
  is_Some (read_err f) →
  receive_loop (before ++ f :: after) st = receive_loop (before ++ [f]) st ∧
  ∀ err st', receive_loop (before ++ [f]) st = Ok (err, st') →
    err = read_err f ∧
    headers_read st' = headers_read st + S (length before).
Proof.
  intros Hbefore [e He]. revert st.
  induction Hbefore as [|[hres' bres'] before Hg _ IH]; intros st.
  - destruct f as [hres bres]. simpl app. rewrite !receive_loop_cons.
    destruct (receive_iter hres bres st) as [[err st1]| |] eqn:Hiter;
      simpl; [|done..].
    pose proof (receive_iter_headers_read _ _ _ _ _ Hiter) as Hn.
    apply receive_iter_inv in Hiter as (-> & _). rewrite He.
    split; [done|]. intros err st' [= <- <-]. split; [done|]. lia.
  - simpl app. rewrite !receive_loop_cons.
    destruct (receive_iter hres' bres' st) as [[err st1]| |] eqn:Hiter;
      simpl; [|done..].
    pose proof (receive_iter_headers_read _ _ _ _ _ Hiter) as Hn.
    apply receive_iter_inv in Hiter as (-> & _). rewrite Hg.
    destruct (IH st1) as [Heq Hres]. split; [done|].
    intros err st' Hloop. destruct (Hres _ _ Hloop) as [-> ->].
    split; [done|]. simpl. lia.
Qed.

(** X5. [receive] reads frames up to the first one whose [ReadHeader] or
    [ReadBody] fails, and no further: what follows that frame has no
    effect on the result, the error returned is that of the frame, and
    [ReadHeader] was called once for each frame up to and including
    it. *)
Theorem receive_stops_at_first_error
    (range : gmap Z ptr → list (Z * ptr))
    (before : list (codec.HeaderRes * codec.BodyRes))
    (f : codec.HeaderRes * codec.BodyRes)
    (after : list (codec.HeaderRes * codec.BodyRes)) (st : State) :
  Forall (λ f', read_err f' = None) before →
  is_Some (read_err f) →
  receive range (before ++ f :: after) st = receive range (before ++ [f]) st ∧
  ∀ err st', receive range (before ++ f :: after) st = Ok (err, st') →
    err = read_err f ∧
    headers_read st' = headers_read st + S (length before).
Proof.
  intros Hbefore Hf.
  destruct (receive_loop_stops before f after st Hbefore Hf) as [Heq Hres].
  unfold receive. rewrite Heq. split; [done|]. intros err st' Hrecv.
  destruct (receive_loop (before ++ [f]) st) as [[err1 st1]| |] eqn:Hloop;
    simpl in Hrecv; [|done..].
  destruct (Hres _ _ eq_refl) as [-> Hn]. destruct Hf as [e He].
  rewrite He in Hrecv |- *.
  destruct (terminateCalls range e st1) as [st2| |] eqn:Hterm;
    simplify_eq/=. split; [done|].
  apply terminate_range_inv in Hterm as (_ & Hw & _).
  unfold headers_read in *. by rewrite Hw.
Qed.

(** The theorem at a response, a broken connection, and a frame behind
    it. *)
Lemma receive_stops_at_first_error_witness :
  receive map_to_list
    ([(codec.HeaderOk (codec.mkHeader "Foo.Sum" 0 EmptyString), codec.BodyOk "3")]
     ++ (codec.HeaderErr "EOF", codec.BodyOk "4")
     :: [(codec.HeaderOk (codec.mkHeader "Foo.Sum" 1 EmptyString),
          codec.BodyOk "5")])
    two_in_flight =
  receive map_to_list
    ([(codec.HeaderOk (codec.mkHeader "Foo.Sum" 0 EmptyString), codec.BodyOk "3")]
     ++ [(codec.HeaderErr "EOF", codec.BodyOk "4")])
    two_in_flight.
Proof.
  apply receive_stops_at_first_error.
  - repeat constructor.
  - by eexists.
Defined.

(** ** A call and its response *)





(** ** Calls on a client that is no longer available *)

Lemma Go_refused sm args reply wres st :
  closing (client st) || shutdown (client st) = true →
  Go sm args reply None wres st =
    Ok (length (heap st),
        mkState (client st)
          (heap st ++ [mkCall 0 sm args reply (Some ErrShutdown)
                         (length (chans st))])
          (chans st ++ [mkChan 10 [length (heap st)]])
          (wire st) (signals st ++ [length (heap st)])).
Proof.
  intros Hun. unfold Go, Go_call, make_chan, new_call. simpl.
  rewrite (send_unavailable wres _ _
             (mkCall 0 sm args reply None (length (chans st))) (mkChan 10 []));
    simpl; [|apply lookup_last|apply lookup_last|lia|done].
  by rewrite alter_last, insert_last.
Qed.

(** X7. Once [receive] has returned with an error the client is no
    longer available, and every later [Go] returns a call that is
    completed at once with [ErrShutdown]: nothing is written on the codec,
    the registry is not changed, and the sequence number of the call
    stays 0. *)
Theorem Go_after_connection_loss (range : gmap Z ptr → list (Z * ptr))
    (frames : list (codec.HeaderRes * codec.BodyRes)) (st : State)
    (e : gerror) (st' : State) :
  receive range frames st = Ok (Some e, st') →
  IsAvailable st' = false ∧
  ∀ sm args reply wres,
    ∃ st'',
      Go sm args reply None wres st' = Ok (length (heap st'), st'') ∧
      heap st'' =
        heap st' ++ [mkCall 0 sm args reply (Some ErrShutdown)
                       (length (chans st'))] ∧
      chans st'' = chans st' ++ [mkChan 10 [length (heap st')]] ∧
      signals st'' = signals st' ++ [length (heap st')] ∧
      wire st'' = wire st' ∧
      client st'' = client st'.
Proof.
  intros Hrecv. unfold receive in Hrecv.
  destruct (receive_loop frames st) as [[err st1]| |]; simpl in Hrecv; [|done..].
  destruct err as [e1|]; [|done].
  destruct (terminateCalls range e1 st1) as [st2| |] eqn:Hterm; simplify_eq/=.
  apply terminate_range_inv in Hterm as (Hcl & _).
  assert (Hsh : shutdown (client st') = true) by (by rewrite Hcl).
  split; [unfold IsAvailable; by rewrite Hsh|].
  intros sm args reply wres. eexists.
  split; [apply Go_refused; rewrite Hsh; apply orb_true_r|]. done.
Qed.

(** The theorem at two calls in flight when [ReadHeader] fails. *)
Lemma Go_after_connection_loss_witness :
  ∃ st' st'',
    receive map_to_list [(codec.HeaderErr "EOF", codec.BodyOk "")] two_in_flight =
      Ok (Some "EOF", st') ∧
    Go "Foo.Sum" "3" "0" None None st' = Ok (2, st'') ∧
    wire st'' = wire st'.
Proof.
  assert (Hrecv : ∃ st',
    receive map_to_list [(codec.HeaderErr "EOF", codec.BodyOk "")] two_in_flight =
      Ok (Some "EOF", st') ∧ length (heap st') = 2)
    by (eexists; split; vm_compute; reflexivity).
  destruct Hrecv as (st' & Hrecv & Hlen).
  destruct (Go_after_connection_loss _ _ _ _ _ Hrecv) as [_ Hgo].
  destruct (Hgo "Foo.Sum" "3" "0" None) as (st'' & H1 & _ & _ & _ & H5 & _).
  exists st', st''. split; [exact Hrecv|]. rewrite Hlen in H1.
  split; [exact H1|exact H5].
Defined.

Lemma Client_Call_refused_cancelled e sm args reply wres st :
  closing (client st) || shutdown (client st) = true →
  Client_Call (CtxDone e) PickCtx sm args reply wres st =
    Ok (Some ("rpc client: call failed: " +:+ e),
        mkState (set_pending (delete 0%Z (pending (client st))) (client st))
          (heap st ++ [mkCall 0 sm args reply (Some ErrShutdown)
                         (length (chans st))])
          (chans st ++ [mkChan 1 [length (heap st)]])
          (wire st) (signals st ++ [length (heap st)])).
Proof.
  intros Hun. unfold Client_Call, Go, Go_call, make_chan, new_call. simpl.
  rewrite lookup_last. simpl.
  rewrite (send_unavailable wres _ _
             (mkCall 0 sm args reply None (length (chans st))) (mkChan 1 []));
    simpl; [|apply lookup_last|apply lookup_last|lia|done].
  rewrite alter_last, insert_last. unfold Call_select. simpl.
  rewrite !lookup_last. simpl. by rewrite lookup_last.
Qed.

(** ** What [Client.Call] returns without a response *)



(** ** Dialling *)

Module DialOutcomes.
Import Dial.

(** *** The address of [XDial] *)

Lemma Split_length sep s : length (Split sep s) = S (occurrences sep s).
Proof.
  induction s as [|a rest IH]; [done|]. simpl. case_decide; simpl.
  - by rewrite IH.
  - destruct (Split sep rest); simpl in *; lia.
Qed.

Lemma Split_none sep s : occurrences sep s = 0 → Split sep s = [s].
Proof.
  induction s as [|a rest IH]; [done|]. simpl. case_decide; [done|].
  intros Hn. by rewrite IH.
Qed.

Lemma Split_app sep p a :
  occurrences sep p = 0 →
  Split sep (p +:+ String sep a) = p :: Split sep a.
Proof.
  induction p as [|b rest IH]; simpl.
  - intros _. by rewrite decide_True.
  - case_decide; [done|]. intros Hn. by rewrite IH.
Qed.

Section Facts.
Variable defaultRPCPath : string.
Variable connected : string.
Variable NewCodecFuncMap : string → bool.
Variable DefaultOption : optr.
Variable Duration_String : Z → string.

Abbreviation dialTimeout := (dialTimeout DefaultOption Duration_String).
Abbreviation Dial := (Dial.Dial NewCodecFuncMap DefaultOption Duration_String).
Abbreviation DialHTTP :=
  (DialHTTP defaultRPCPath connected NewCodecFuncMap DefaultOption
     Duration_String).
Abbreviation XDial :=
  (XDial defaultRPCPath connected NewCodecFuncMap DefaultOption Duration_String).

Lemma NewClient_xor eres : client_xor_error (NewClient NewCodecFuncMap eres).
Proof.
  intros conn o. unfold NewClient.
  destruct (NewCodecFuncMap (CodecType o)); [|right; eauto].
  destruct eres; [right|left]; eauto.
Qed.

Lemma NewHTTPClient_xor resp eres :
  client_xor_error
    (NewHTTPClient defaultRPCPath connected NewCodecFuncMap resp eres).
Proof.
  intros conn o. unfold NewHTTPClient.
  destruct resp as [status|e]; [|right; eauto].
  case_decide; [apply NewClient_xor|right; eauto].
Qed.

Lemma parseOptions_inv opts mem options err mem1 :
  parseOptions DefaultOption opts mem = Ok (options, err, mem1) →
  (is_Some options ∧ err = None) ∨
  (options = None ∧
   err = Some "[parseOptions] number of options is more than 1" ∧ mem1 = mem).
Proof.
  unfold parseOptions. intros Hp.
  destruct opts as [|[opt|] rest]; simplify_eq/=; eauto.
  case_decide; simplify_eq/=; eauto.
  destruct (mem !! DefaultOption) as [d|]; simplify_eq/=.
  destruct (alter _ opt mem !! opt) as [o|]; simplify_eq/=.
  case_decide; simplify_eq/=; eauto.
  destruct (alter _ opt mem !! DefaultOption); simplify_eq/=; eauto.
Qed.

(** The outcomes of [dialTimeout]. *)
Lemma dialTimeout_inv f network address opts mem dres race c e mem' d :
  dialTimeout f network address opts mem dres race = Ok (c, e, mem', d) →
  (c = None ∧ e = Some "[parseOptions] number of options is more than 1" ∧
   mem' = mem ∧ d = not_connected)
  ∨
  ∃ p o,
    parseOptions DefaultOption opts mem = Ok (Some p, None, mem') ∧
    mem' !! p = Some o ∧
    ((∃ e', dres = Some e' ∧ c = None ∧ e = Some e' ∧
       d = mkDialled (Some (network, address, ConnectTimeout o)) None false false)
     ∨
     (dres = None ∧ (ConnectTimeout o = 0%Z ∨ race = ResultFirst) ∧
      c = (f [] o).1.1 ∧ e = (f [] o).1.2 ∧
      d = mkDialled (Some (network, address, ConnectTimeout o))
            (Some (f [] o)) true (bool_decide (is_Some (f [] o).1.2)))
     ∨
     (dres = None ∧ ConnectTimeout o ≠ 0%Z ∧ race = TimerFirst ∧
      c = None ∧
      e = Some ("rpc client: connect timeout: expect within " +:+
                Duration_String (ConnectTimeout o)) ∧
      d = mkDialled (Some (network, address, ConnectTimeout o))
            (Some (f [] o)) false true)).
Proof.
  unfold Dial.dialTimeout. intros Hd.
  destruct (parseOptions DefaultOption opts mem) as [[[options err] mem1]| |]
    eqn:Hp; simpl in Hd; [|done..].
  destruct (parseOptions_inv _ _ _ _ _ Hp) as [[[p ->] ->]|(-> & -> & ->)];
    [|simplify_eq/=; by left].
  simpl in Hd. destruct (mem1 !! p) as [o|] eqn:Ho; simpl in Hd; [|done].
  right. exists p, o.
  destruct dres as [e'|]; [simplify_eq/=; split; [done|]; eauto 10|].
  case_decide as Ht; [simplify_eq/=; split; [done|]; eauto 10|].
  destruct race; simplify_eq/=; (split; [done|]); eauto 20.
Qed.

Lemma dialTimeout_xor f network address opts mem dres race c e mem' d :
  client_xor_error f →
  dialTimeout f network address opts mem dres race = Ok (c, e, mem', d) →
  (c = Some newClientCodec ∧ e = None ∧ received d = true ∧ closed d = false)
  ∨ (c = None ∧ is_Some e).
Proof.
  intros Hf Hd.
  apply dialTimeout_inv in Hd
    as [(-> & -> & _)|(p & o & _ & _ &
          [(e' & _ & -> & -> & _)|[(_ & _ & -> & -> & ->)|
           (_ & _ & _ & -> & -> & _)]])];
    eauto.
  destruct (Hf [] o) as [[-> ->]|[-> He]]; [left|right]; done.
Qed.

(** X12. [XDial] rejects an address that does not hold exactly one
    [@]: it returns the format error, which quotes the address, dials
    nothing and leaves the options alone. Such is an address with no
    protocol, and a socket path with an [@] in it. *)
Theorem XDial_wrong_format (resp : Response) (eres : option gerror)
    (rpcAddr : string) (opts : list (option optr)) (mem : list Option)
    (dres : option gerror) (race : Race) :
  occurrences at_sign rpcAddr ≠ 1 →
  XDial resp eres rpcAddr opts mem dres race =
    Ok (None,
        Some ("[XDial] rpc client err: wrong format '" +:+ rpcAddr +:+
              "', expect protocol@addr"),
        mem, not_connected).
Proof.
  intros Hn. unfold Dial.XDial. rewrite Split_length.
  rewrite decide_True; [done|lia].
Qed.

(** X13. On [protocol@addr], with no [@] in either part, [XDial] is
    [DialHTTP] on network [tcp] when the protocol is [http], and [Dial] on
    the protocol as the network otherwise; either part may be empty. *)
Theorem XDial_dispatch (resp : Response) (eres : option gerror)
    (protocol addr : string) (opts : list (option optr)) (mem : list Option)
    (dres : option gerror) (race : Race) :
  occurrences at_sign protocol = 0 →
  occurrences at_sign addr = 0 →
  XDial resp eres (protocol +:+ String at_sign addr) opts mem dres race =
    if decide (protocol = "http") then
      DialHTTP resp eres "tcp" addr opts mem dres race
    else Dial eres protocol addr opts mem dres race.
Proof.
  intros Hp Ha. unfold Dial.XDial.
  rewrite Split_app, Split_none by done. simpl. done.
Qed.

(** X9. [Dial], [DialHTTP] and [XDial] return either a client and a
    nil error, or no client and an error, never both and never neither;
    when they return a client it is a fresh one, the result of the
    handshake was received from its goroutine and the connection is left
    open. *)
Theorem Dial_client_or_error (resp : Response) (eres : option gerror)
    (network address rpcAddr : string) (opts : list (option optr))
    (mem : list Option) (dres : option gerror) (race : Race)
    (c : option State) (e : option gerror) (mem' : list Option) (d : Dialled) :
  Dial eres network address opts mem dres race = Ok (c, e, mem', d) ∨
  DialHTTP resp eres network address opts mem dres race = Ok (c, e, mem', d) ∨
  XDial resp eres rpcAddr opts mem dres race = Ok (c, e, mem', d) →
  (c = Some newClientCodec ∧ e = None ∧ received d = true ∧ closed d = false)
  ∨ (c = None ∧ is_Some e).
Proof.
  intros [Hd|[Hd|Hd]].
  - eapply dialTimeout_xor; [apply NewClient_xor|exact Hd].
  - eapply dialTimeout_xor; [apply NewHTTPClient_xor|exact Hd].
  - unfold Dial.XDial in Hd. case_decide; [simplify_eq/=; eauto|].
    destruct (Split at_sign rpcAddr !! 0) as [protocol|]; simpl in Hd; [|done].
    destruct (Split at_sign rpcAddr !! 1) as [addr|]; simpl in Hd; [|done].
    case_decide.
    + eapply dialTimeout_xor; [apply NewHTTPClient_xor|exact Hd].
    + eapply dialTimeout_xor; [apply NewClient_xor|exact Hd].
Qed.

(** X10. [dialTimeout] runs [clientFunc] exactly when
    [net.DialTimeout] was called and returned a connection, and its
    deferred function closes the connection exactly when that is so and
    the error returned is not nil; when [clientFunc] was not run, no client
    is returned, the error is not nil and nothing is closed. *)
Theorem dialTimeout_closes_connection (f : newClientFunc)
    (network address : string) (opts : list (option optr)) (mem : list Option)
    (dres : option gerror) (race : Race) (c : option State)
    (e : option gerror) (mem' : list Option) (d : Dialled) :
  dialTimeout f network address opts mem dres race = Ok (c, e, mem', d) →
  (is_Some (handshake d) ↔ is_Some (connect d) ∧ dres = None) ∧
  (closed d = true ↔ is_Some (handshake d) ∧ is_Some e) ∧
  (handshake d = None → c = None ∧ is_Some e ∧ received d = false).
Proof.
  intros Hd.
  apply dialTimeout_inv in Hd
    as [(-> & -> & _ & ->)|(p & o & _ & _ &
          [(e' & -> & -> & -> & ->)|[(-> & _ & -> & -> & ->)|
           (-> & _ & _ & -> & -> & ->)]])]; simpl.
  - split; [split; [by intros [? ?]|by intros [[? ?] _]]|].
    split; [split; [done|by intros [[? ?] _]]|]. eauto.
  - split; [split; [by intros [? ?]|by intros [_ ?]]|].
    split; [split; [done|by intros [[? ?] _]]|]. eauto.
  - split; [split; eauto|]. split; [|done].
    rewrite bool_decide_eq_true. split; [eauto|by intros [_ ?]].
  - split; [split; eauto|]. split; [|done]. split; eauto.
Qed.

(** X11. When [dialTimeout] has started [clientFunc], the result of it
    is dropped exactly when the timeout is not zero and the timer came
    first; [dialTimeout] then returns no client and the timeout error,
    which prints the timeout, the connection is closed, and the goroutine
    stays blocked in its send, the channel being unbuffered. Otherwise
    [dialTimeout] returns what [clientFunc] returned; with a timeout of
    zero that is always so. *)
Theorem dialTimeout_timeout (f : newClientFunc)
    (network address : string) (opts : list (option optr)) (mem : list Option)
    (dres : option gerror) (race : Race) (c : option State)
    (e : option gerror) (mem' : list Option) (d : Dialled) :
  dialTimeout f network address opts mem dres race = Ok (c, e, mem', d) →
  is_Some (handshake d) →
  ∃ t r,
    connect d = Some (network, address, t) ∧ handshake d = Some r ∧
    (received d = false ↔ race = TimerFirst ∧ t ≠ 0%Z) ∧
    (received d = false →
       c = None ∧ closed d = true ∧
       e = Some ("rpc client: connect timeout: expect within " +:+
                 Duration_String t)) ∧
    (received d = true → c = r.1.1 ∧ e = r.1.2).
Proof.
  intros Hd Hh.
  apply dialTimeout_inv in Hd
    as [(-> & -> & _ & ->)|(p & o & _ & _ &
          [(e' & -> & -> & -> & ->)|[(-> & Hr & -> & -> & ->)|
           (-> & Ht & -> & -> & -> & ->)]])]; simpl in *;
    try (by destruct Hh).
  - eexists _, _. split; [done|]. split; [done|].
    split; [|done]. split; [done|]. intros [-> Hne]. by destruct Hr.
  - eexists _, _. split; [done|]. split; [done|]. done.
Qed.

Lemma parseOptions_resolved opts mem p mem1 dflt :
  mem !! DefaultOption = Some dflt →
  parseOptions DefaultOption opts mem = Ok (Some p, None, mem1) →
  ∃ o, mem1 !! p = Some o ∧
       MagicNumber o = MagicNumber dflt ∧
       (CodecType o = EmptyString → CodecType dflt = EmptyString).
Proof.
  unfold parseOptions. intros Hd Hp.
  destruct opts as [|[opt|] rest]; simplify_eq/=; eauto.
  case_decide; simplify_eq/=. rewrite Hd in Hp. simpl in Hp.
  destruct (alter _ opt mem !! opt) as [o|] eqn:Ho; simplify_eq/=.
  assert (Hm : MagicNumber o = MagicNumber dflt).
  { rewrite list_lookup_alter_eq in Ho.
    destruct (mem !! opt) as [x|]; by simplify_eq/=. }
  case_decide as Hc; simplify_eq/=; [|exists o; by repeat split].
  destruct (alter _ opt mem !! DefaultOption) as [d'|] eqn:Hd'; simplify_eq/=.
  rewrite list_lookup_alter_eq, Ho. simpl. eexists. split; [done|].
  split; [done|]. simpl. intros Hc'.
  destruct (decide (p = DefaultOption)) as [->|Hne].
  - rewrite list_lookup_alter_eq, Hd in Hd'. by simplify_eq/=.
  - rewrite list_lookup_alter_ne in Hd' by done. by simplify_eq.
Qed.

(** X14. What [Dial] sends on the connection. An option that [NewClient]
    encodes carries the magic number of the default option, whatever the
    caller put there, and a codec type that is registered, and that is
    not empty when the default one is not. When [NewClient] closes the
    connection, on an encoding failure, [dialTimeout] closes it once
    more and returns no client. When a client is returned the option is
    all that was written. *)
Theorem Dial_handshake (eres : option gerror) (network address : string)
    (opts : list (option optr)) (mem : list Option) (dres : option gerror)
    (race : Race) (c : option State) (e : option gerror) (mem' : list Option)
    (d : Dialled) (dflt : Option)
    (r : option State * option gerror * list ConnOp) :
  mem !! DefaultOption = Some dflt →
  Dial eres network address opts mem dres race = Ok (c, e, mem', d) →
  handshake d = Some r →
  (∀ o, ConnEncode o ∈ r.2 →
     MagicNumber o = MagicNumber dflt ∧
     NewCodecFuncMap (CodecType o) = true ∧
     (CodecType dflt ≠ EmptyString → CodecType o ≠ EmptyString)) ∧
  (ConnClose ∈ r.2 → closed d = true ∧ c = None) ∧
  (is_Some c → ∃ o, r.2 = [ConnEncode o]).
Proof.
  intros Hdflt Hd Hh.
  apply dialTimeout_inv in Hd
    as [(-> & -> & _ & ->)|(p & o & Hp & Ho & Hcases)]; [done|].
  destruct (parseOptions_resolved _ _ _ _ _ Hdflt Hp) as (o' & Ho' & Hm & Hc).
  rewrite Ho in Ho'. injection Ho' as <-.
  assert (Hr : r = NewClient NewCodecFuncMap eres [] o).
  { destruct Hcases as [(e' & _ & _ & _ & ->)|[(_ & _ & _ & _ & ->)|
      (_ & _ & _ & _ & _ & ->)]]; simpl in Hh; by simplify_eq. }
  assert (Hclosed : is_Some r.1.2 → closed d = true ∧ c = None).
  { intros He. destruct Hcases as [(e' & _ & _ & _ & ->)|[(_ & _ & -> & _ & ->)|
      (_ & _ & _ & -> & _ & ->)]]; simpl in *; [done| |done].
    rewrite <- Hr. split; [by apply bool_decide_eq_true|].
    rewrite Hr in He |- *. unfold NewClient in *.
    clear Hr Hh. destruct (NewCodecFuncMap (CodecType o)); [|done].
    destruct eres; simpl in *; [done|]. by destruct He. }
  assert (Hsome : is_Some c → c = r.1.1).
  { intros Hs. destruct Hcases as [(e' & _ & -> & _)|[(_ & _ & -> & _ & _)|
      (_ & _ & _ & -> & _)]]; [by destruct Hs|by rewrite Hr|by destruct Hs]. }
  subst r. unfold NewClient in *.
  destruct (NewCodecFuncMap (CodecType o)) eqn:Hcodec; simpl in *.
  - destruct eres as [ee|]; simpl in *.
    + split; [|split; [eauto|intros Hs; rewrite (Hsome Hs) in Hs; by destruct Hs]].
      intros o1 [[= ->]|Hin%list_elem_of_singleton]%elem_of_cons; [|done].
      repeat split; auto.
    + split; [|split; [|eauto]].
      * intros o1 [= ->]%list_elem_of_singleton. repeat split; auto.
      * by intros Hin%list_elem_of_singleton.
  - split; [by intros o1 Hin%elem_of_nil|].
    split; [by intros Hin%elem_of_nil|].
    intros Hs. rewrite (Hsome Hs) in Hs. by destruct Hs.
Qed.
End Facts.

(** *** The theorems at example dials *)

(** The theorem at a socket path with an [@] in it. *)
Lemma XDial_wrong_format_witness :
  XDial "/_geerpc_" "200 Connected" (λ _, true) 0 (λ _, "10s")
    (RespOk "200 Connected") None "unix@/tmp/geerpc@1.sock" [] sample_options
    None ResultFirst =
  Ok (None,
      Some "[XDial] rpc client err: wrong format 'unix@/tmp/geerpc@1.sock', expect protocol@addr",
      sample_options, not_connected).
Proof.
  apply (XDial_wrong_format "/_geerpc_" "200 Connected" (λ _, true) 0
           (λ _, "10s")).
  vm_compute. discriminate.
Defined.

(** The theorem at an [http] address. *)
Lemma XDial_dispatch_witness :
  XDial "/_geerpc_" "200 Connected" (λ _, true) 0 (λ _, "10s")
    (RespOk "200 Connected") None "http@10.0.0.1:7001" [] sample_options
    None ResultFirst =
  DialHTTP "/_geerpc_" "200 Connected" (λ _, true) 0 (λ _, "10s")
    (RespOk "200 Connected") None "tcp" "10.0.0.1:7001" [] sample_options
    None ResultFirst.
Proof.
  apply (XDial_dispatch "/_geerpc_" "200 Connected" (λ _, true) 0 (λ _, "10s")
           (RespOk "200 Connected") None "http" "10.0.0.1:7001");
    reflexivity.
Defined.

(** The theorem at a dial with the default options that succeeds. *)
Lemma Dial_client_or_error_witness :
  ∃ mem' d,
    Dial.Dial (λ _, true) 0 (λ _, "10s") None "tcp" "10.0.0.1:9999" [] sample_options
      None ResultFirst = Ok (Some newClientCodec, None, mem', d) ∧
    closed d = false.
Proof.
  assert (Hd : ∃ mem' d,
    Dial.Dial (λ _, true) 0 (λ _, "10s") None "tcp" "10.0.0.1:9999" [] sample_options
      None ResultFirst = Ok (Some newClientCodec, None, mem', d))
    by (eexists _, _; vm_compute; reflexivity).
  destruct Hd as (mem' & d & Hd). exists mem', d. split; [exact Hd|].
  destruct (Dial_client_or_error "/_geerpc_" "200 Connected" (λ _, true) 0
              (λ _, "10s") (RespOk "200 Connected") None "tcp" "10.0.0.1:9999"
              "tcp@10.0.0.1:9999" [] sample_options None ResultFirst _ _ _ _
              (or_introl Hd)) as [(_ & _ & _ & Hc)|[Hc _]];
    [exact Hc|discriminate Hc].
Defined.

(** The theorem at a handshake whose encoding of the option fails. *)
Lemma dialTimeout_closes_connection_witness :
  ∃ c e mem' d,
    dialTimeout 0 (λ _, "10s") (NewClient (λ _, true) (Some "broken pipe"))
      "tcp" "10.0.0.1:9999" [] sample_options None ResultFirst =
      Ok (c, e, mem', d) ∧
    closed d = true.
Proof.
  assert (Hd : ∃ c mem' d,
    dialTimeout 0 (λ _, "10s") (NewClient (λ _, true) (Some "broken pipe"))
      "tcp" "10.0.0.1:9999" [] sample_options None ResultFirst =
      Ok (c, Some "broken pipe", mem', d) ∧
    is_Some (handshake d))
    by (eexists _, _, _; split; [vm_compute; reflexivity|by eexists]).
  destruct Hd as (c & mem' & d & Hd & Hh).
  exists c, (Some "broken pipe"), mem', d. split; [exact Hd|].
  destruct (dialTimeout_closes_connection 0 (λ _, "10s") _ _ _ _ _ _ _ _ _ _ _ Hd)
    as (_ & Hc & _).
  apply Hc. split; [exact Hh|by eexists].
Defined.

(** The theorem at a dial whose timer fires first. *)
Lemma dialTimeout_timeout_witness :
  ∃ mem' d,
    dialTimeout 0 (λ _, "10s") (NewClient (λ _, true) None)
      "tcp" "10.0.0.1:9999" [Some 1] sample_options None TimerFirst =
      Ok (None, Some "rpc client: connect timeout: expect within 10s", mem', d) ∧
    received d = false.
Proof.
  assert (Hd : ∃ mem' d,
    dialTimeout 0 (λ _, "10s") (NewClient (λ _, true) None)
      "tcp" "10.0.0.1:9999" [Some 1] sample_options None TimerFirst =
      Ok (None, Some "rpc client: connect timeout: expect within 10s", mem', d) ∧
    is_Some (handshake d) ∧ connect d = Some ("tcp", "10.0.0.1:9999", 10%Z))
    by (eexists _, _; split; [vm_compute; reflexivity|split; [by eexists|done]]).
  destruct Hd as (mem' & d & Hd & Hh & Hcon). exists mem', d.
  split; [exact Hd|].
  destruct (dialTimeout_timeout 0 (λ _, "10s") _ _ _ _ _ _ _ _ _ _ _ Hd Hh)
    as (t & r & Ht & _ & Hr & _).
  apply Hr. split; [reflexivity|].
  rewrite Hcon in Ht. injection Ht as <-. discriminate.
Defined.

(** The theorem at a dial with an option of a caller. *)
Lemma Dial_handshake_witness :
  ∃ c e mem' d r,
    Dial.Dial (λ _, true) 0 (λ _, "10s") None "tcp" "10.0.0.1:9999" [Some 1]
      sample_options None ResultFirst = Ok (c, e, mem', d) ∧
    handshake d = Some r ∧
    r.2 = [ConnEncode (mkOption 3927900 "application/gob" 10)] ∧
    MagicNumber (mkOption 3927900 "application/gob" 10) = 3927900%Z.
Proof.
  assert (Hd : ∃ c e mem' d r,
    Dial.Dial (λ _, true) 0 (λ _, "10s") None "tcp" "10.0.0.1:9999" [Some 1]
      sample_options None ResultFirst = Ok (c, e, mem', d) ∧
    handshake d = Some r ∧
    r.2 = [ConnEncode (mkOption 3927900 "application/gob" 10)])
    by (eexists _, _, _, _, _; split; [vm_compute; reflexivity|by split]).
  destruct Hd as (c & e & mem' & d & r & Hd & Hh & Hr).
  exists c, e, mem', d, r. split; [exact Hd|]. split; [exact Hh|].
  split; [exact Hr|].
  destruct (Dial_handshake (λ _, true) 0 (λ _, "10s") None "tcp"
              "10.0.0.1:9999" [Some 1] sample_options None ResultFirst c e mem'
              d (mkOption 3927900 "application/gob" 0) r eq_refl Hd Hh)
    as (Hm & _).
  apply Hm. rewrite Hr. by left.
Defined.

End DialOutcomes.

(** ** Further invariants of the interleavings *)

Module ConcMore.
Import Conc ConcFacts.

(** *** [shutdown] is never cleared *)

Lemma enter_shutdown sync c st1 s0 :
  shutdown (client st1) = true →
  shutdown (client (st (enter sync c st1 s0))) = true.
Proof.
  intros Hsh. unfold enter.
  rewrite registerCall_unavailable by (rewrite Hsh; apply orb_true_r). done.
Qed.

Lemma step_shutdown ev s s' :
  shutdown (client (st s)) = true → step ev s = Some s' →
  shutdown (client (st s')) = true.
Proof.
  intros Hsh Hstep.
  destruct ev as [n|sm args reply doneq|sm args reply|wres| |hres|bres| |order
                 | | |c0 ctx pick|d|cres].
  - simpl in Hstep. by simplify_eq/=.
  - apply step_Go_inv in Hstep as (Hidle & c1 & st1 & Hgo & ->).
    apply Go_call_inv in Hgo as (-> & Hcl & _).
    apply enter_shutdown. by rewrite Hcl.
  - apply step_Call_inv in Hstep as (Hidle & c1 & st1 & d0 & Hgo & ->).
    apply Go_call_inv in Hgo as (-> & Hcl & _).
    apply enter_shutdown. by rewrite Hcl.
  - simpl in Hstep. destruct (sender s) as [|c1 n sync|] eqn:Hw; try done.
    unfold write in Hstep.
    destruct (heap (st s) !! c1) as [call|]; simpl in Hstep; [|done].
    destruct wres as [e|]; [|by simplify_eq/=].
    by destruct (pending (client (st s)) !! n); simplify_eq/=.
  - simpl in Hstep. destruct (sender s) as [| |c' c1 sync] eqn:Hw; try done.
    destruct (done c' (st s)) as [st1| |] eqn:Hdone; simplify_eq/=.
    by apply done_inv in Hdone as (call & ch & _ & _ & _ & ->).
  - simpl in Hstep. destruct (recv s) eqn:Hrecv; try done.
    by destruct hres as [h|e]; simplify_eq/=.
  - simpl in Hstep. destruct (recv s) as [|h call| | | |] eqn:Hrecv; try done.
    destruct (read_body h call bres (st s)) as [st1 r] eqn:Hbody.
    simplify_eq/=. apply read_body_inv in Hbody as (Hcl & _). by rewrite Hcl.
  - simpl in Hstep. destruct (recv s) as [| |c1 err| | |] eqn:Hrecv; try done.
    destruct (done c1 (st s)) as [st1| |] eqn:Hdone; simplify_eq/=.
    by apply done_inv in Hdone as (call & ch & _ & _ & _ & ->).
  - simpl in Hstep. destruct (recv s) as [| | |e| |] eqn:Hrecv; try done.
    destruct (sender s) eqn:Hsender; try done.
    by case_decide as Hperm; simplify_eq/=.
  - simpl in Hstep.
    destruct (recv s) as [| | | |e [|[k c1] rest]|] eqn:Hrecv; try done.
    destruct (done c1 _) as [st1| |] eqn:Hdone; simplify_eq/=.
    by apply done_with_call_inv in Hdone as (call & ch & _ & _ & _ & ->).
  - simpl in Hstep.
    by destruct (recv s) as [| | | |e [|? ?]|] eqn:Hrecv; simplify_eq/=.
  - simpl in Hstep. case_decide; [|done].
    destruct (ranging (recv s) && takes_ctx ctx pick c0 (st s)); [done|].
    destruct (Call_select ctx pick c0 (st s)) as [[r st1]| |] eqn:Hsel;
      simplify_eq/=.
    apply Call_select_inv in Hsel as (_ & _ & _ & Hcl & _). by rewrite Hcl.
  - simpl in Hstep. case_decide; [done|].
    destruct (chans (st s) !! d) as [ch|]; simpl in Hstep; [|done].
    by destruct (cbuf ch); simplify_eq/=.
  - simpl in Hstep. destruct (ranging (recv s)); simplify_eq/=.
    unfold Close. by destruct (closing (client (st s))).
Qed.

Lemma run_shutdown evs s s' :
  shutdown (client (st s)) = true → run evs s = Some s' →
  shutdown (client (st s')) = true.
Proof.
  revert s. induction evs as [|ev evs IH]; intros s Hsh Hrun.
  - by simplify_eq/=.
  - simpl in Hrun. destruct (step ev s) as [s1|] eqn:Hstep; simplify_eq/=.
    eauto using step_shutdown.
Qed.

(** X15. [IsAvailable] never turns true again: from a state in which it
    is false, by [Close] or by the end of [receive], every run leads to
    states in which it is false and in which [registerCall] fails with
    [ErrShutdown] and changes nothing. *)
Theorem unavailable_forever (evs : list Event) (s s' : Sys) :
  run evs s = Some s' →
  IsAvailable (st s) = false →
  IsAvailable (st s') = false ∧
  ∀ c, registerCall c (st s') = (0%Z, Some ErrShutdown, st s').
Proof.
  intros Hrun Hav. unfold IsAvailable in *.
  assert (Hun : closing (client (st s')) || shutdown (client (st s')) = true).
  { apply andb_false_iff in Hav as [Hsh|Hcl].
    - apply negb_false_iff in Hsh. rewrite (run_shutdown _ _ _ Hsh Hrun).
      apply orb_true_r.
    - apply negb_false_iff in Hcl. by rewrite (run_closing _ _ _ Hcl Hrun). }
  split.
  - apply orb_true_iff in Hun as [->| ->]; simpl; [apply andb_false_r|done].
  - intros c. by apply registerCall_unavailable.
Qed.

(** The theorem at a client that is closed and then called. *)
Lemma unavailable_forever_witness :
  ∃ s s',
    run closed_with_call_0 init = Some s ∧
    run [EvGo "Foo.Sum" "2" "0" None; EvSendDone] s = Some s' ∧
    IsAvailable (st s') = false.
Proof.
  assert (Hrun : ∃ s s',
    run closed_with_call_0 init = Some s ∧
    run [EvGo "Foo.Sum" "2" "0" None; EvSendDone] s = Some s' ∧
    IsAvailable (st s) = false)
    by (eexists _, _; split; [vm_compute; reflexivity|];
        split; vm_compute; reflexivity).
  destruct Hrun as (s & s' & Hs & Hs' & Hav). exists s, s'.
  split; [exact Hs|]. split; [exact Hs'|].
  exact (proj1 (unavailable_forever _ _ _ Hs' Hav)).
Defined.


(** *** The codec log *)

Lemma written_app w1 w2 : written (w1 ++ w2) = written w1 ++ written w2.
Proof. apply omap_app. Qed.

Lemma closes_app w1 w2 : closes (w1 ++ w2) = closes w1 + closes w2.
Proof. unfold closes. by rewrite filter_app, length_app. Qed.

Lemma after_close_app w1 w2 :
  after_close (w1 ++ w2) =
    if decide (closes w1 = 0) then after_close w2 else after_close w1 ++ w2.
Proof.
  induction w1 as [|o w1 IH]; [done|].
  destruct o; simpl; try done; rewrite IH; by repeat case_decide.
Qed.

Lemma after_close_none w : closes w = 0 → after_close w = [].
Proof.
  induction w as [|o w IH]; [done|].
  destruct o; simpl; try done; intros Hc; by apply IH.
Qed.

Lemma after_close_quiet w1 w2 :
  closes w2 = 0 → written w2 = [] →
  written (after_close (w1 ++ w2)) = written (after_close w1).
Proof.
  intros Hc Hw. rewrite after_close_app. case_decide as Hz.
  - by rewrite !after_close_none.
  - by rewrite written_app, Hw, app_nil_r.
Qed.

Lemma wire_inv_frame s s' ops :
  wire_inv s →
  wire (st s') = wire (st s) ++ ops →
  written ops = [] → closes ops = 0 →
  in_flight (sender s') = in_flight (sender s) →
  issued s' = issued s →
  closing (client (st s')) = closing (client (st s)) →
  wire_inv s'.
Proof.
  intros [Hw Hc Ha] Hwire Hops Hcl Hfl Hiss Hclo. split.
  - by rewrite Hwire, written_app, Hops, app_nil_r, Hfl, Hiss.
  - rewrite Hwire, closes_app, Hcl, Hclo. lia.
  - by rewrite Hwire, after_close_quiet, Hfl.
Qed.

Lemma wire_inv_init : wire_inv init.
Proof. split; simpl; [done|done|lia]. Qed.

Lemma read_body_wire h call bres σ σ1 r :
  read_body h call bres σ = (σ1, r) →
  ∃ t, wire σ1 = wire σ ++ [codec.OpReadBody t].
Proof.
  unfold read_body. intros Hb. destruct call as [c|]; [|simplify_eq/=; eauto].
  case_decide; [simplify_eq/=; eauto|].
  destruct bres; simplify_eq/=; eauto.
Qed.

Lemma enter_wire_inv sync c st1 s0 s :
  wire_inv s →
  wire st1 = wire (st s) →
  closing (client st1) = closing (client (st s)) →
  issued s0 = issued s →
  sender s = SendIdle →
  wire_inv (enter sync c st1 s0).
Proof.
  intros [Hw Hc Ha] Hwire Hclo Hiss Hidle. unfold enter.
  rewrite Hidle in Hw, Ha. rewrite app_nil_r in Hw. simpl in Ha.
  destruct (closing (client st1) || shutdown (client st1)) eqn:Hav.
  - rewrite (registerCall_unavailable _ _ Hav).
    split; simpl; rewrite ?Hwire, ?Hclo, ?Hiss, ?app_nil_r; done.
  - apply orb_false_elim in Hav as [Hcl Hsh].
    rewrite (registerCall_available _ _ Hcl Hsh).
    split; simpl; rewrite ?Hwire, ?Hiss; [by rewrite Hw| |].
    + rewrite Hc, <- Hclo. by rewrite Hcl.
    + rewrite Hclo in Hcl. rewrite Hcl in Hc.
      rewrite (after_close_none _ Hc). simpl. lia.
Qed.

Lemma step_wire_inv ev s s' :
  wire_inv s → step ev s = Some s' → wire_inv s'.
Proof.
  intros Hinv Hstep.
  destruct ev as [n|sm args reply doneq|sm args reply|wres| |hres|bres| |order
                 | | |c0 ctx pick|d|cres].
  - simpl in Hstep. simplify_eq/=.
    apply (wire_inv_frame s _ []); simpl; by rewrite ?app_nil_r.
  - apply step_Go_inv in Hstep as (Hidle & c1 & st1 & Hgo & ->).
    apply Go_call_inv in Hgo as (-> & Hcl & _ & Hwire & _).
    apply (enter_wire_inv _ _ _ s s); auto. by rewrite Hcl.
  - apply step_Call_inv in Hstep as (Hidle & c1 & st1 & d0 & Hgo & ->).
    apply Go_call_inv in Hgo as (-> & Hcl & _ & Hwire & _).
    apply (enter_wire_inv _ _ _ _ s); auto. by rewrite Hcl.
  - simpl in Hstep. destruct (sender s) as [|c1 n sync|] eqn:Hw; try done.
    unfold write in Hstep.
    destruct (heap (st s) !! c1) as [call|]; simpl in Hstep; [|done].
    destruct Hinv as [Hwr Hc Ha]. rewrite Hw in Hwr, Ha. simpl in Hwr, Ha.
    assert (Hs' : wire (st s') =
              wire (st s) ++
                [codec.OpWrite (codec.mkHeader (ServiceMethod call) n EmptyString)
                   (Args call)] ∧
            in_flight (sender s') = [] ∧ issued s' = issued s ∧
            closing (client (st s')) = closing (client (st s))).
    { destruct wres as [e|]; [|by simplify_eq/=].
      by destruct (pending (client (st s)) !! n); simplify_eq/=. }
    destruct Hs' as (Hwire & Hfl & Hiss & Hclo). split.
    + by rewrite Hwire, written_app, Hfl, Hiss, app_nil_r.
    + rewrite Hwire, closes_app, Hclo, Hc.
      change (closes [codec.OpWrite ?h ?a]) with 0. lia.
    + rewrite Hwire, Hfl, after_close_app. simpl.
      case_decide; [simpl; lia|]. rewrite written_app, length_app. simpl. lia.
  - simpl in Hstep. destruct (sender s) as [| |c' c1 sync] eqn:Hw; try done.
    destruct (done c' (st s)) as [st1| |] eqn:Hdone; simplify_eq/=.
    apply done_inv in Hdone as (call & ch & _ & _ & _ & ->).
    apply (wire_inv_frame s _ []); simpl; by rewrite ?app_nil_r, ?Hw.
  - simpl in Hstep. destruct (recv s) eqn:Hrecv; try done.
    destruct hres as [h|e]; simplify_eq/=;
      by apply (wire_inv_frame s _ [codec.OpReadHeader]).
  - simpl in Hstep. destruct (recv s) as [|h call| | | |] eqn:Hrecv; try done.
    destruct (read_body h call bres (st s)) as [st1 r] eqn:Hbody.
    simplify_eq/=. pose proof (read_body_wire _ _ _ _ _ _ Hbody) as [t Hwire].
    apply read_body_inv in Hbody as (Hcl & _).
    apply (wire_inv_frame s _ [codec.OpReadBody t]); simpl; auto.
    by rewrite Hcl.
  - simpl in Hstep. destruct (recv s) as [| |c1 err| | |] eqn:Hrecv; try done.
    destruct (done c1 (st s)) as [st1| |] eqn:Hdone; simplify_eq/=.
    apply done_inv in Hdone as (call & ch & _ & _ & _ & ->).
    apply (wire_inv_frame s _ []); simpl; by rewrite ?app_nil_r.
  - simpl in Hstep. destruct (recv s) as [| | |e| |] eqn:Hrecv; try done.
    destruct (sender s) eqn:Hsender; try done.
    case_decide as Hperm; simplify_eq/=.
    apply (wire_inv_frame s _ []); simpl; by rewrite ?app_nil_r, ?Hsender.
  - simpl in Hstep.
    destruct (recv s) as [| | | |e [|[k c1] rest]|] eqn:Hrecv; try done.
    destruct (done c1 _) as [st1| |] eqn:Hdone; simplify_eq/=.
    apply done_with_call_inv in Hdone as (call & ch & _ & _ & _ & ->).
    apply (wire_inv_frame s _ []); simpl; by rewrite ?app_nil_r.
  - simpl in Hstep.
    destruct (recv s) as [| | | |e [|? ?]|] eqn:Hrecv; simplify_eq/=.
    apply (wire_inv_frame s _ []); simpl; by rewrite ?app_nil_r.
  - simpl in Hstep. case_decide; [|done].
    destruct (ranging (recv s) && takes_ctx ctx pick c0 (st s)); [done|].
    destruct (Call_select ctx pick c0 (st s)) as [[r st1]| |] eqn:Hsel;
      simplify_eq/=.
    apply Call_select_inv in Hsel as (_ & _ & Hwire & _ & Hcl & _).
    apply (wire_inv_frame s _ []); simpl; by rewrite ?app_nil_r.
  - simpl in Hstep. case_decide; [done|].
    destruct (chans (st s) !! d) as [ch|]; simpl in Hstep; [|done].
    destruct (cbuf ch); simplify_eq/=.
    apply (wire_inv_frame s _ []); simpl; by rewrite ?app_nil_r.
  - simpl in Hstep. destruct (ranging (recv s)); simplify_eq/=.
    destruct Hinv as [Hwr Hc Ha]. unfold Close.
    destruct (closing (client (st s))) eqn:Hclo; simpl.
    + split; simpl; [done|by rewrite Hclo|done].
    + split; simpl.
      * by rewrite written_app, app_nil_r.
      * rewrite closes_app, Hc. done.
      * rewrite after_close_app, decide_True by done. simpl.
        destruct (sender s); simpl; lia.
Qed.

Lemma run_wire_inv evs s s' :
  wire_inv s → run evs s = Some s' → wire_inv s'.
Proof.
  revert s. induction evs as [|ev evs IH]; intros s Hinv Hrun.
  - by simplify_eq/=.
  - simpl in Hrun. destruct (step ev s) as [s1|] eqn:Hstep; simplify_eq/=.
    eauto using step_wire_inv.
Qed.

Lemma reachable_wire_inv s : reachable s → wire_inv s.
Proof. intros [evs Hrun]. eauto using run_wire_inv, wire_inv_init. Qed.

(** X16. In every state a client reaches, the requests written on the
    codec carry, in the order of the writes, the sequence numbers that
    [registerCall] returned, in the order it returned them: each one
    once, none missing but the one of the caller that is in [send] and
    has not written yet. As long as no more than 2^64 registrations have
    succeeded, the i-th request written (from 0) has sequence number
    i. *)
Theorem requests_written_in_order (evs : list Event) (s : Sys) :
  run evs init = Some s →
  written (wire (st s)) ++ in_flight (sender s) = issued s ∧
  ((Z.of_nat (length (issued s)) ≤ two64)%Z →
   ∀ i n, written (wire (st s)) !! i = Some n → n = Z.of_nat i).
Proof.
  intros Hrun.
  assert (Hr : reachable s) by (by exists evs).
  pose proof (inv_written s (reachable_wire_inv s Hr)) as Hw.
  split; [done|]. intros Hlen i n Hi.
  apply (issued_lookup s i n (reachable_inv s Hr) Hlen).
  rewrite <- Hw. by apply lookup_app_l_Some.
Qed.

(** The theorem at the run of three calls. *)
Lemma requests_written_in_order_witness :
  ∃ s, run sample_run init = Some s ∧
       issued s = [0%Z; 1%Z; 2%Z] ∧
       written (wire (st s)) ++ in_flight (sender s) = [0%Z; 1%Z; 2%Z].
Proof.
  assert (Hrun : ∃ s, run sample_run init = Some s ∧
                      issued s = [0%Z; 1%Z; 2%Z])
    by (eexists; split; vm_compute; reflexivity).
  destruct Hrun as (s & Hrun & Hiss). exists s.
  split; [exact Hrun|]. split; [exact Hiss|].
  rewrite <- Hiss. exact (proj1 (requests_written_in_order _ _ Hrun)).
Defined.

(** X17. In every state a client reaches, the codec was closed at most
    once, however often [Close] was called, and once exactly when
    [closing] is set; after it was closed at most one request was
    written: that of a caller that had registered before. *)
Theorem codec_closed_at_most_once (evs : list Event) (s : Sys) :
  run evs init = Some s →
  closes (wire (st s)) ≤ 1 ∧
  (closes (wire (st s)) = 1 ↔ closing (client (st s)) = true) ∧
  length (written (after_close (wire (st s)))) ≤ 1.
Proof.
  intros Hrun.
  assert (Hr : reachable s) by (by exists evs).
  destruct (reachable_wire_inv s Hr) as [_ Hc Ha]. rewrite Hc.
  destruct (closing (client (st s))); (split; [lia|]); (split; [|lia]); done.
Qed.

(** The theorem at a client that is closed twice. *)
Lemma codec_closed_at_most_once_witness :
  ∃ s, run [EvClose None; EvClose None] init = Some s ∧
       closes (wire (st s)) ≤ 1.
Proof.
  assert (Hrun : ∃ s, run [EvClose None; EvClose None] init = Some s)
    by (eexists; vm_compute; reflexivity).
  destruct Hrun as (s & Hrun). exists s. split; [exact Hrun|].
  exact (proj1 (codec_closed_at_most_once _ _ Hrun)).
Defined.

(** X18. In every state a client reaches, a pending call is stored
    under the sequence number it carries, no call is pending under two
    numbers, no pending call has been completed as long as [shutdown] is
    not set, and the calls that were completed exist. *)
Theorem pending_registry_consistent (evs : list Event) (s : Sys) :
  run evs init = Some s →
  (∀ k c, pending (client (st s)) !! k = Some c →
     ∃ call, heap (st s) !! c = Some call ∧ Seq call = k) ∧
  (∀ k k' c, pending (client (st s)) !! k = Some c →
     pending (client (st s)) !! k' = Some c → k = k') ∧
  (shutdown (client (st s)) = false →
   ∀ k c, pending (client (st s)) !! k = Some c → c ∉ signals (st s)) ∧
  (∀ c, c ∈ signals (st s) → is_Some (heap (st s) !! c)).
Proof.
  intros Hrun.
  assert (Hinv : registry_inv s) by (apply reachable_inv; by exists evs).
  split; [|split; [|split]].
  - intros k c Hk. pose proof (inv_pending s Hinv k c Hk) as Hs.
    destruct (heap (st s) !! c) as [call|]; simplify_eq/=. eauto.
  - intros k k' c. by apply pending_inj.
  - intros Hsh. apply (inv_unsignalled s Hinv).
    pose proof (inv_live s Hinv) as Hl. rewrite Hsh in Hl.
    by destruct (live (recv s)).
  - intros c Hc. apply lookup_lt_is_Some. by apply (inv_signalled s Hinv).
Qed.

(** The theorem at three registrations. *)
Lemma pending_registry_consistent_witness :
  ∃ s call,
    run three_registrations init = Some s ∧
    pending (client (st s)) !! 1%Z = Some 1 ∧
    heap (st s) !! 1 = Some call ∧ Seq call = 1%Z.
Proof.
  assert (Hrun : ∃ s, run three_registrations init = Some s ∧
                      pending (client (st s)) !! 1%Z = Some 1)
    by (eexists; split; vm_compute; reflexivity).
  destruct Hrun as (s & Hrun & Hp).
  destruct (pending_registry_consistent _ _ Hrun) as (H1 & _).
  destruct (H1 _ _ Hp) as (call & Hc & Hseq).
  exists s, call. split; [exact Hrun|]. split; [exact Hp|].
  split; [exact Hc|exact Hseq].
Defined.

(** *** A refused call that is cancelled *)

Lemma run_refused_cancelled e sm args reply s :
  sender s = SendIdle → ranging (recv s) = false →
  closing (client (st s)) || shutdown (client (st s)) = true →
  run [EvCall sm args reply; EvSendDone;
       EvSelect (length (heap (st s))) (CtxDone e) PickCtx] s =
    Some (mkSys
            (mkState
               (set_pending (delete 0%Z (pending (client (st s))))
                  (client (st s)))
               (heap (st s) ++
                  [mkCall 0 sm args reply (Some ErrShutdown)
                     (length (chans (st s)))])
               (chans (st s) ++ [mkChan 1 [length (heap (st s))]])
               (wire (st s))
               (signals (st s) ++ [length (heap (st s))]))
            SendIdle (recv s)
            (filter (λ c', c' ≠ length (heap (st s)))
               (length (heap (st s)) :: selecting s))
            (length (chans (st s)) :: owned s) (issued s)).
Proof.
  destruct s as [σ w r sel own iss]. simpl. intros -> Hr Hun.
  rewrite Hr. unfold Go_call, make_chan. simpl. rewrite lookup_last. simpl.
  unfold enter, new_call. simpl.
  rewrite registerCall_unavailable by done. simpl.
  rewrite (done_with_call (length (heap σ)) _ _
             (mkCall 0 sm args reply None (length (chans σ))) (mkChan 1 []));
    simpl; [|apply lookup_last|done|apply lookup_last|lia].
  rewrite alter_last, insert_last. simpl.
  rewrite decide_True by (by left).
  rewrite Hr. simpl. unfold Call_select. simpl.
  rewrite !lookup_last. simpl. by rewrite lookup_last.
Qed.

(** X19. A call that registration refuses keeps sequence number 0. So
    when [Client.Call] is refused, on a client that is closing or shut
    down, and its [select] takes the case of a context that is done, its
    [removeCall(call.Seq)] removes from [pending] whichever call is
    registered under 0: that call, when it was not completed yet, is
    never completed afterwards, whatever happens next. *)
Theorem refused_cancelled_Call_loses_call_0 (evs0 : list Event) (s : Sys)
    (v : ptr) (e sm : string) (args reply : payload) :
  run evs0 init = Some s →
  sender s = SendIdle → ranging (recv s) = false →
  closing (client (st s)) || shutdown (client (st s)) = true →
  pending (client (st s)) !! 0%Z = Some v →
  v ∉ signals (st s) →
  ∃ s',
    run [EvCall sm args reply; EvSendDone;
         EvSelect (length (heap (st s))) (CtxDone e) PickCtx] s = Some s' ∧
    pending (client (st s')) = delete 0%Z (pending (client (st s))) ∧
    ∀ evs s'', run evs s' = Some s'' →
      (v ∉ signals (st s'')) ∧
      ∀ k, pending (client (st s'')) !! k ≠ Some v.
Proof.
  intros Hrun0 Hidle Hr Hun Hv Hns.
  assert (Hinv : registry_inv s) by (apply reachable_inv; by exists evs0).
  eexists. split; [by apply run_refused_cancelled|]. split; [done|].
  intros evs s'' Hrun.
  pose proof (pending_lt s _ _ Hinv Hv) as Hlt.
  eapply run_abandoned in Hrun as (_ & ? & ? & _); [done|].
  repeat split; simpl.
  - rewrite length_app. simpl. lia.
  - intros [?| ->%list_elem_of_singleton]%elem_of_app; [done|lia].
  - by apply delete_no_key.
  - unfold held. simpl. rewrite app_nil_r. intros Hh.
    destruct (inv_held s Hinv v) as (_ & _ & Hno); [by apply held_recv|].
    by apply (Hno 0%Z).
  - rewrite ranging_to_visit by done. apply not_elem_of_nil.
Qed.

(** The theorem at a client closed with call 0 in flight. *)
Lemma refused_cancelled_Call_loses_call_0_witness :
  ∃ s s',
    run closed_with_call_0 init = Some s ∧
    pending (client (st s)) !! 0%Z = Some 0 ∧
    run [EvCall "Foo.Sum" "2" "0"; EvSendDone;
         EvSelect 1 (CtxDone "context canceled") PickCtx] s = Some s' ∧
    pending (client (st s')) !! 0%Z = None.
Proof.
  assert (Hrun : ∃ s,
    run closed_with_call_0 init = Some s ∧
    pending (client (st s)) !! 0%Z = Some 0 ∧
    sender s = SendIdle ∧ ranging (recv s) = false ∧
    closing (client (st s)) || shutdown (client (st s)) = true ∧
    signals (st s) = [] ∧ length (heap (st s)) = 1)
    by (eexists; repeat split; vm_compute; reflexivity).
  destruct Hrun as (s & Hrun & Hp & Hidle & Hr & Hun & Hsig & Hlen).
  destruct (refused_cancelled_Call_loses_call_0 _ s 0 "context canceled"
              "Foo.Sum" "2" "0" Hrun Hidle Hr Hun Hp)
    as (s' & Hrun' & Hp' & _).
  { rewrite Hsig. apply not_elem_of_nil. }
  exists s, s'. split; [exact Hrun|]. split; [exact Hp|].
  rewrite Hlen in Hrun'. split; [exact Hrun'|].
  rewrite Hp'. apply lookup_delete_eq.
Defined.

(** *** The queues of [Client.Call] *)

Lemma queue_inv_init : queue_inv init.
Proof. split; simpl; intros; by (try apply elem_of_nil in H). Qed.

(** A step that allocates nothing, keeps the queue of every call and
    completes no call. *)
Lemma queue_inv_frame s s' :
  queue_inv s →
  owned s' = owned s →
  signals (st s') = signals (st s) →
  (∀ c, Done <$> heap (st s') !! c = Done <$> heap (st s) !! c) →
  length (chans (st s')) = length (chans (st s)) →
  (∀ d, ccap <$> chans (st s') !! d = ccap <$> chans (st s) !! d) →
  (∀ d, cbuf <$> chans (st s) !! d = Some [] →
        cbuf <$> chans (st s') !! d = Some []) →
  queue_inv s'.
Proof.
  intros [Hcap Hdone Hone Hempty] Hown Hsig Hheap Hlen Hccap Hbuf.
  split; rewrite ?Hown, ?Hsig, ?Hlen.
  - intros d Hd. rewrite Hccap. by apply Hcap.
  - intros c d. rewrite Hheap. apply Hdone.
  - intros c1 c2 d. rewrite !Hheap. apply Hone.
  - intros c d. rewrite Hheap. intros Hc Hd Hns. apply Hbuf. by eapply Hempty.
Qed.

(** A [call.done()]. *)
Lemma queue_inv_signal c call ch s s' :
  queue_inv s →
  heap (st s) !! c = Some call →
  chans (st s) !! Done call = Some ch →
  (∀ c0, Done <$> heap (st s') !! c0 = Done <$> heap (st s) !! c0) →
  chans (st s') =
    <[Done call := mkChan (ccap ch) (cbuf ch ++ [c])]> (chans (st s)) →
  signals (st s') = signals (st s) ++ [c] →
  owned s' = owned s →
  queue_inv s'.
Proof.
  intros [Hcap Hdone Hone Hempty] Hc Hch Hheap Hchans Hsig Hown.
  assert (Hlt : Done call < length (chans (st s))) by (by eapply lookup_lt_Some).
  split; rewrite ?Hown, ?Hchans, ?Hsig.
  - intros d Hd. destruct (decide (d = Done call)) as [->|Hne].
    + rewrite list_lookup_insert_eq by done. simpl.
      specialize (Hcap _ Hd). by rewrite Hch in Hcap.
    + rewrite list_lookup_insert_ne by done. by apply Hcap.
  - intros c0 d. rewrite Hheap, length_insert. apply Hdone.
  - intros c1 c2 d. rewrite !Hheap. apply Hone.
  - intros c0 d. rewrite Hheap. intros Hc0 Hd Hns.
    apply not_elem_of_app in Hns as [Hns Hne].
    destruct (decide (d = Done call)) as [->|Hne'].
    + exfalso. apply Hne, list_elem_of_singleton.
      apply (Hone c0 c (Done call)); [done| |done]. by rewrite Hc.
    + rewrite list_lookup_insert_ne by done. eauto.
Qed.

Lemma queue_inv_done c s s' σ1 :
  queue_inv s → done c (st s) = Ok σ1 → st s' = σ1 → owned s' = owned s →
  queue_inv s'.
Proof.
  intros Hinv Hd Hst Hown.
  apply done_inv in Hd as (call & ch & Hc & Hch & _ & ->).
  eapply queue_inv_signal; try done; by rewrite Hst.
Qed.

Lemma queue_inv_done_with_call c f s s' σ1 :
  queue_inv s →
  (∀ x, Done (f x) = Done x) →
  done c (with_call c f (st s)) = Ok σ1 →
  st s' = σ1 → owned s' = owned s →
  queue_inv s'.
Proof.
  intros Hinv Hf Hd Hst Hown.
  apply done_with_call_inv in Hd as (call & ch & Hc & Hch & _ & Heq).
  rewrite Hf in Hch, Heq. subst σ1.
  eapply queue_inv_signal; try done; rewrite Hst; simpl; [|done..].
  intros c0. by apply lookup_alter_Done.
Qed.

(** A caller allocates a call, with a queue that exists and is not one
    of [Client.Call], or with a new queue. *)
Lemma queue_inv_alloc s s' f call0 :
  queue_inv s →
  (∀ x, Done (f x) = Done x) →
  heap (st s') = alter f (length (heap (st s))) (heap (st s) ++ [call0]) →
  signals (st s') = signals (st s) →
  (∀ c, c ∈ signals (st s) → c < length (heap (st s))) →
  (chans (st s') = chans (st s) ∧ Done call0 < length (chans (st s)) ∧
   (Done call0 ∉ owned s) ∧ owned s' = owned s)
  ∨ (∃ n, chans (st s') = chans (st s) ++ [mkChan n []] ∧
          Done call0 = length (chans (st s)) ∧
          (owned s' = owned s ∨
           (n = 1 ∧ owned s' = length (chans (st s)) :: owned s))) →
  queue_inv s'.
Proof.
  intros [Hcap Hdone Hone Hempty] Hf Hheap Hsig Hsl Hcases.
  assert (Hlook : ∀ c d, Done <$> heap (st s') !! c = Some d →
    (c < length (heap (st s)) ∧ Done <$> heap (st s) !! c = Some d) ∨
    (c = length (heap (st s)) ∧ d = Done call0)).
  { intros c d. rewrite Hheap, lookup_alter_Done by done.
    destruct (decide (c < length (heap (st s)))) as [Hlt|Hge].
    - rewrite lookup_app_l by done. auto.
    - rewrite lookup_app_r by lia.
      destruct (c - length (heap (st s))) as [|i] eqn:Hi; simpl; [|done].
      intros [= <-]. right. split; [lia|done]. }
  assert (Hfresh : length (chans (st s)) ∉ owned s).
  { intros Hd. specialize (Hcap _ Hd).
    rewrite lookup_ge_None_2 in Hcap by lia. done. }
  assert (Hold : ∀ d, d ∈ owned s → d < length (chans (st s))).
  { intros d Hd. specialize (Hcap _ Hd).
    destruct (chans (st s) !! d) eqn:Hch; [|done]. by eapply lookup_lt_Some. }
  destruct Hcases as [(Hch & Hlt & Hno & Hown)|(n & Hch & Hd0 & Hown)].
  - split; rewrite ?Hown, ?Hch, ?Hsig.
    + done.
    + intros c d [[_ Hc]|[_ ->]]%Hlook; [by eapply Hdone|done].
    + intros c1 c2 d [[_ H1]|[-> ->]]%Hlook [[_ H2]|[-> Hd]]%Hlook Hin;
        try done; [by eapply Hone|by subst d].
    + intros c d [[Hc1 Hc]|[_ ->]]%Hlook Hin Hns; [by eapply Hempty|done].
  - assert (Hnew : ∀ d, d ∈ owned s' → d ∈ owned s ∨
        (d = length (chans (st s)) ∧ n = 1)).
    { intros d. destruct Hown as [->|[-> ->]]; [auto|].
      intros [->|?]%elem_of_cons; auto. }
    split; rewrite ?Hch, ?Hsig.
    + intros d [Hd|[-> ->]]%Hnew.
      * rewrite lookup_app_l by auto. by apply Hcap.
      * by rewrite lookup_last.
    + intros c d [[_ Hc]|[_ ->]]%Hlook; rewrite length_app; simpl.
      * apply Hdone in Hc. lia.
      * lia.
    + intros c1 c2 d H1 H2 Hin.
      apply Hlook in H1, H2. apply Hnew in Hin. rewrite Hd0 in H1, H2.
      destruct H1 as [[_ H1]|[-> Hd1]], H2 as [[_ H2]|[-> Hd2]]; [|..|done].
      * destruct Hin as [Hin|[-> _]]; [by eapply Hone|].
        apply Hdone in H1. lia.
      * apply Hdone in H1. lia.
      * apply Hdone in H2. lia.
    + intros c d Hc Hin Hns.
      apply Hlook in Hc. apply Hnew in Hin. rewrite Hd0 in Hc.
      destruct Hc as [[_ Hc]|[-> Hd1]], Hin as [Hin|[Hd2 _]].
      * rewrite lookup_app_l by auto. by eapply Hempty.
      * apply Hdone in Hc. lia.
      * subst d. done.
      * subst d. by rewrite lookup_last.
Qed.
Lemma Go_call_queue sm args reply doneq σ c σ1 :
  Go_call sm args reply doneq σ = Ok (c, σ1) →
  signals σ1 = signals σ ∧
  ∃ d, heap σ1 = heap σ ++ [mkCall 0 sm args reply None d] ∧
    ((doneq = None ∧ d = length (chans σ) ∧
      chans σ1 = chans σ ++ [mkChan 10 []]) ∨
     (doneq = Some d ∧ d < length (chans σ) ∧ chans σ1 = chans σ)).
Proof.
  unfold Go_call. intros Hgo. destruct doneq as [d|]; simpl in Hgo.
  - destruct (chans σ !! d) as [ch|] eqn:Hch; simpl in Hgo; [|done].
    case_decide; simplify_eq/=. split; [done|]. eexists. split; [done|].
    right. split; [done|]. split; [by eapply lookup_lt_Some|done].
  - simplify_eq/=. split; [done|]. eexists. split; [done|]. by left.
Qed.

Lemma enter_queue sync c σ1 s0 :
  ∃ f, (∀ x, Done (f x) = Done x) ∧
    heap (st (enter sync c σ1 s0)) = alter f c (heap σ1) ∧
    chans (st (enter sync c σ1 s0)) = chans σ1 ∧
    signals (st (enter sync c σ1 s0)) = signals σ1 ∧
    owned (enter sync c σ1 s0) = owned s0.
Proof.
  unfold enter.
  destruct (closing (client σ1) || shutdown (client σ1)) eqn:Hav.
  - rewrite (registerCall_unavailable _ _ Hav).
    by exists (set_Error ErrShutdown).
  - apply orb_false_elim in Hav as [Hcl Hsh].
    rewrite (registerCall_available _ _ Hcl Hsh).
    by exists (set_Seq (seq (client σ1))).
Qed.

Lemma step_queue_inv ev s s' :
  registry_inv s → queue_inv s → step ev s = Some s' → queue_inv s'.
Proof.
  intros Hreg Hinv Hstep.
  destruct ev as [n|sm args reply doneq|sm args reply|wres| |hres|bres| |order
                 | | |c0 ctx pick|d|cres].
  - simpl in Hstep. simplify_eq/=.
    destruct Hinv as [Hcap Hdone Hone Hempty]. split; simpl.
    + intros d Hd. specialize (Hcap _ Hd).
      destruct (chans (st s) !! d) eqn:Hch; [|done].
      by rewrite (lookup_app_l_Some _ _ _ _ Hch).
    + intros c d Hc. rewrite length_app. apply Hdone in Hc. simpl. lia.
    + done.
    + intros c d Hc Hd Hns. specialize (Hempty _ _ Hc Hd Hns).
      destruct (chans (st s) !! d) eqn:Hch; [|done].
      by rewrite (lookup_app_l_Some _ _ _ _ Hch).
  - unfold step in Hstep.
    destruct (sender s) eqn:Hsender; try done.
    destruct (ranging (recv s)); try done.
    destruct (is_owned doneq s) eqn:Hown; [done|].
    destruct (Go_call _ _ _ _ (st s)) as [[c st1]| |] eqn:Hgo; simplify_eq/=.
    pose proof (Go_call_inv _ _ _ _ _ _ _ Hgo) as (-> & _).
    apply Go_call_queue in Hgo as (Hsig & d & Hheap & Hq).
    destruct (enter_queue false (length (heap (st s))) st1 s)
      as (f & Hf & Hh & Hch & Hsg & How).
    eapply (queue_inv_alloc s _ f); [done|done| | | |].
    + by rewrite Hh, Hheap.
    + by rewrite Hsg.
    + apply (inv_signalled s Hreg).
    + simpl. rewrite Hch, How.
      destruct Hq as [(_ & -> & ->)|(-> & Hlt & ->)]; [right; eauto|left].
      repeat split; try done. unfold is_owned in Hown.
      by apply bool_decide_eq_false in Hown.
  - unfold step in Hstep.
    destruct (sender s) eqn:Hsender; try done.
    destruct (ranging (recv s)); try done.
    unfold make_chan in Hstep.
    destruct (Go_call _ _ _ _ _) as [[c st1]| |] eqn:Hgo; simplify_eq/=.
    pose proof (Go_call_inv _ _ _ _ _ _ _ Hgo) as (-> & _).
    apply Go_call_queue in Hgo as (Hsig & d & Hheap & Hq). simpl in *.
    destruct Hq as [(? & _)|([= <-] & _ & Hchans)]; [done|].
    match goal with |- queue_inv (enter true ?c ?σ ?s0) =>
      destruct (enter_queue true c σ s0) as (f & Hf & Hh & Hch & Hsg & How)
    end.
    eapply (queue_inv_alloc s _ f); [done|done| | | |].
    + by rewrite Hh, Hheap.
    + by rewrite Hsg.
    + apply (inv_signalled s Hreg).
    + simpl. rewrite Hch, How, Hchans. right. exists 1. eauto.
  - simpl in Hstep. destruct (sender s) as [|c1 n sync|] eqn:Hw; try done.
    unfold write in Hstep.
    destruct (heap (st s) !! c1) as [call|]; simpl in Hstep; [|done].
    destruct wres as [e|].
    + destruct (pending (client (st s)) !! n) as [c'|] eqn:Hp; simplify_eq/=.
      * apply (queue_inv_frame s); simpl; auto.
        intros c. by apply lookup_alter_Done.
      * by apply (queue_inv_frame s).
    + simplify_eq/=. by apply (queue_inv_frame s).
  - simpl in Hstep. destruct (sender s) as [| |c' c1 sync] eqn:Hw; try done.
    destruct (done c' (st s)) as [st1| |] eqn:Hdone; simplify_eq/=.
    by eapply queue_inv_done.
  - simpl in Hstep. destruct (recv s) eqn:Hrecv; try done.
    destruct hres as [h|e]; simplify_eq/=; by apply (queue_inv_frame s).
  - simpl in Hstep. destruct (recv s) as [|h call| | | |] eqn:Hrecv; try done.
    destruct (read_body h call bres (st s)) as [st1 r] eqn:Hbody.
    simplify_eq/=. unfold read_body in Hbody.
    destruct call as [c|]; [|simplify_eq/=; by apply (queue_inv_frame s)].
    case_decide.
    + simplify_eq/=. apply (queue_inv_frame s); simpl; auto.
      intros c1. by apply lookup_alter_Done.
    + destruct bres; simplify_eq/=; apply (queue_inv_frame s); simpl; auto;
        intros c1; by apply lookup_alter_Done.
  - simpl in Hstep. destruct (recv s) as [| |c1 err| | |] eqn:Hrecv; try done.
    destruct (done c1 (st s)) as [st1| |] eqn:Hdone; simplify_eq/=.
    by eapply queue_inv_done.
  - simpl in Hstep. destruct (recv s) as [| | |e| |] eqn:Hrecv; try done.
    destruct (sender s) eqn:Hsender; try done.
    case_decide as Hperm; simplify_eq/=. by apply (queue_inv_frame s).
  - simpl in Hstep.
    destruct (recv s) as [| | | |e [|[k c1] rest]|] eqn:Hrecv; try done.
    destruct (done c1 _) as [st1| |] eqn:Hdone; simplify_eq/=.
    by eapply (queue_inv_done_with_call c1 (set_Error e)).
  - simpl in Hstep.
    destruct (recv s) as [| | | |e [|? ?]|] eqn:Hrecv; simplify_eq/=.
    by apply (queue_inv_frame s).
  - simpl in Hstep. case_decide; [|done].
    destruct (ranging (recv s) && takes_ctx ctx pick c0 (st s)); [done|].
    destruct (Call_select ctx pick c0 (st s)) as [[r st1]| |] eqn:Hsel;
      simplify_eq/=.
    unfold Call_select in Hsel.
    destruct (heap (st s) !! c0) as [call|]; simpl in Hsel; [|done].
    destruct (chans (st s) !! Done call) as [ch|] eqn:Hch; simpl in Hsel;
      [|done].
    destruct (select_case ctx pick (cbuf ch)) as [[e|c' rest]|] eqn:Hsc;
      [| |done].
    + simplify_eq/=. by apply (queue_inv_frame s).
    + simpl in Hsel.
      destruct (heap (st s) !! c') as [call'|]; simplify_eq/=.
      apply (queue_inv_frame s); simpl; auto.
      * by rewrite length_insert.
      * intros d. destruct (decide (d = Done call)) as [->|Hne].
        -- rewrite list_lookup_insert_eq by (by eapply lookup_lt_Some).
           by rewrite Hch.
        -- by rewrite list_lookup_insert_ne.
      * intros d. destruct (decide (d = Done call)) as [->|Hne].
        -- rewrite list_lookup_insert_eq by (by eapply lookup_lt_Some).
           rewrite Hch. simpl. intros [= Hnil]. rewrite Hnil in Hsc.
           by destruct ctx.
        -- by rewrite list_lookup_insert_ne.
  - simpl in Hstep. case_decide; [done|].
    destruct (chans (st s) !! d) as [ch|] eqn:Hch; simpl in Hstep; [|done].
    destruct (cbuf ch) eqn:Hbuf; simplify_eq/=.
    apply (queue_inv_frame s); simpl; auto.
    + by rewrite length_insert.
    + intros d0. destruct (decide (d0 = d)) as [->|Hne].
      * rewrite list_lookup_insert_eq by (by eapply lookup_lt_Some).
        by rewrite Hch.
      * by rewrite list_lookup_insert_ne.
    + intros d0. destruct (decide (d0 = d)) as [->|Hne].
      * rewrite list_lookup_insert_eq by (by eapply lookup_lt_Some).
        rewrite Hch. simpl. by rewrite Hbuf.
      * by rewrite list_lookup_insert_ne.
  - simpl in Hstep. destruct (ranging (recv s)); simplify_eq/=.
    apply (queue_inv_frame s); try done;
      unfold Close; simpl; by destruct (closing (client (st s))).
Qed.

Lemma run_queue_inv evs s s' :
  registry_inv s → queue_inv s → run evs s = Some s' → queue_inv s'.
Proof.
  revert s. induction evs as [|ev evs IH]; intros s Hreg Hinv Hrun.
  - by simplify_eq/=.
  - simpl in Hrun. destruct (step ev s) as [s1|] eqn:Hstep; simplify_eq/=.
    eauto using step_queue_inv, step_inv.
Qed.

(** The queue of a call of [Client.Call] that was not completed has
    room. *)
Lemma owned_queue_room s c call :
  queue_inv s →
  heap (st s) !! c = Some call → Done call ∈ owned s →
  c ∉ signals (st s) →
  ∃ ch, chans (st s) !! Done call = Some ch ∧ length (cbuf ch) < ccap ch.
Proof.
  intros Hq Hc Hd Hns.
  pose proof (q_cap s Hq _ Hd) as Hcap.
  pose proof (q_empty s Hq c (Done call)) as Hbuf.
  rewrite Hc in Hbuf. specialize (Hbuf eq_refl Hd Hns).
  destruct (chans (st s) !! Done call) as [ch|]; simplify_eq/=.
  exists ch. split; [done|]. rewrite Hbuf, Hcap. simpl. lia.
Qed.

(** X20. A queue that [Client.Call] makes holds its call alone, and at
    most once. So, in every state a client reaches, a goroutine that is
    about to complete a call of [Client.Call], in [send], in the loop of
    [receive] or in that of [terminateCalls], is not blocked by its
    queue. *)
Theorem Call_completion_never_blocks (evs : list Event) (s : Sys) (c : ptr)
    (call : Call) :
  run evs init = Some s →
  heap (st s) !! c = Some call →
  Done call ∈ owned s →
  (∀ c0 sync, sender s = SendDone c c0 sync → is_Some (step EvSendDone s)) ∧
  (∀ err, recv s = RecvDone c err → is_Some (step EvRecvDone s)) ∧
  (∀ e k rest, recv s = RecvRange e ((k, c) :: rest) →
     is_Some (step EvRange s)).
Proof.
  intros Hrun Hc Hd.
  assert (Hreg : registry_inv s) by (apply reachable_inv; by exists evs).
  assert (Hq : queue_inv s).
  { eapply run_queue_inv; [apply registry_inv_init|apply queue_inv_init|done]. }
  split; [|split].
  - intros c0 sync Hw.
    destruct (inv_held s Hreg c) as (Hns & _).
    { apply held_send. rewrite Hw. by left. }
    destruct (owned_queue_room s c call Hq Hc Hd Hns) as (ch & Hch & Hroom).
    simpl. rewrite Hw. by rewrite (done_Ok _ _ _ _ Hc Hch Hroom).
  - intros err Hr.
    destruct (inv_held s Hreg c) as (Hns & _).
    { apply held_recv. rewrite Hr. by left. }
    destruct (owned_queue_room s c call Hq Hc Hd Hns) as (ch & Hch & Hroom).
    simpl. rewrite Hr. by rewrite (done_Ok _ _ _ _ Hc Hch Hroom).
  - intros e k rest Hr.
    destruct (inv_to_visit s Hreg k c) as (_ & Hns).
    { rewrite Hr. by left. }
    destruct (owned_queue_room s c call Hq Hc Hd Hns) as (ch & Hch & Hroom).
    simpl. rewrite Hr.
    by rewrite (done_with_call _ _ _ _ _ Hc (set_Error_Done e call) Hch Hroom).
Qed.

(** The theorem at a call whose reply was read. *)
Lemma Call_completion_never_blocks_witness :
  ∃ s, run reply_in_hand init = Some s ∧
       recv s = RecvDone 0 None ∧
       is_Some (step EvRecvDone s).
Proof.
  assert (Hrun : ∃ s call,
    run reply_in_hand init = Some s ∧ recv s = RecvDone 0 None ∧
    heap (st s) !! 0 = Some call ∧ Done call = 0 ∧ owned s = [0])
    by (eexists _, _; repeat split; vm_compute; reflexivity).
  destruct Hrun as (s & call & Hrun & Hrecv & Hc & Hd & Hown).
  exists s. split; [exact Hrun|]. split; [exact Hrecv|].
  destruct (Call_completion_never_blocks _ s 0 call Hrun Hc) as (_ & H2 & _).
  { rewrite Hd, Hown. by left. }
  exact (H2 None Hrecv).
Defined.

(** *** When [receive] has returned *)

Lemma swept_frame s s' :
  swept s →
  recv s' = recv s →
  (∀ c, c ∈ signals (st s) → c ∈ signals (st s')) →
  (∀ k c, pending (client (st s')) !! k = Some c →
          pending (client (st s)) !! k = Some c) →
  swept s'.
Proof.
  intros Hs Hrecv Hsig Hp Hl k c Hk. rewrite Hrecv in Hl |- *.
  destruct (Hs Hl k c (Hp _ _ Hk)); auto.
Qed.

Lemma swept_live s : live (recv s) = true → swept s.
Proof. intros Hl Hl'. congruence. Qed.

Lemma step_swept ev s s' :
  registry_inv s → swept s → step ev s = Some s' → swept s'.
Proof.
  intros Hreg Hs Hstep.
  destruct ev as [n|sm args reply doneq|sm args reply|wres| |hres|bres| |order
                 | | |c0 ctx pick|d|cres].
  - simpl in Hstep. simplify_eq/=. by apply (swept_frame s).
  - apply step_Go_inv in Hstep as (Hidle & c1 & st1 & Hgo & ->).
    apply Go_call_inv in Hgo as (-> & Hcl & Hsig & _).
    destruct (live (recv s)) eqn:Hl.
    { apply swept_live. unfold enter.
      by destruct (registerCall _ st1) as [[? [?|]] ?]. }
    pose proof (inv_live s Hreg) as Hsh. rewrite Hl in Hsh. simpl in Hsh.
    unfold enter. rewrite registerCall_unavailable
      by (rewrite Hcl, Hsh; apply orb_true_r).
    apply (swept_frame s); simpl; rewrite ?Hcl, ?Hsig; auto.
  - apply step_Call_inv in Hstep as (Hidle & c1 & st1 & d0 & Hgo & ->).
    apply Go_call_inv in Hgo as (-> & Hcl & Hsig & _). simpl in *.
    destruct (live (recv s)) eqn:Hl.
    { apply swept_live. unfold enter.
      by destruct (registerCall _ st1) as [[? [?|]] ?]. }
    pose proof (inv_live s Hreg) as Hsh. rewrite Hl in Hsh. simpl in Hsh.
    unfold enter. rewrite registerCall_unavailable
      by (rewrite Hcl, Hsh; apply orb_true_r).
    apply (swept_frame s); simpl; rewrite ?Hcl, ?Hsig; auto.
  - simpl in Hstep. destruct (sender s) as [|c1 n sync|] eqn:Hw; try done.
    pose proof (inv_writing s Hreg _ _ _ Hw) as Hl.
    unfold write in Hstep.
    destruct (heap (st s) !! c1) as [call|]; simpl in Hstep; [|done].
    apply swept_live. destruct wres as [e|]; [|by simplify_eq/=].
    by destruct (pending (client (st s)) !! n); simplify_eq/=.
  - simpl in Hstep. destruct (sender s) as [| |c' c1 sync] eqn:Hw; try done.
    destruct (done c' (st s)) as [st1| |] eqn:Hdone; simplify_eq/=.
    apply done_inv in Hdone as (call & ch & _ & _ & _ & ->).
    apply (swept_frame s); simpl; auto. intros c Hc. apply elem_of_app. auto.
  - simpl in Hstep. destruct (recv s) eqn:Hrecv; try done.
    apply swept_live. by destruct hres as [h|e]; simplify_eq/=.
  - simpl in Hstep. destruct (recv s) as [|h call| | | |] eqn:Hrecv; try done.
    destruct (read_body h call bres (st s)) as [st1 r] eqn:Hbody.
    simplify_eq/=. apply swept_live. simpl.
    by apply read_body_inv in Hbody as (_ & _ & _ & _ & _ & _ & ?).
  - simpl in Hstep. destruct (recv s) as [| |c1 err| | |] eqn:Hrecv; try done.
    destruct (done c1 (st s)) as [st1| |] eqn:Hdone; simplify_eq/=.
    apply swept_live. apply next_live.
  - simpl in Hstep. destruct (recv s) as [| | |e| |] eqn:Hrecv; try done.
    destruct (sender s) eqn:Hsender; try done.
    case_decide as Hperm; simplify_eq/=.
    intros _ k c Hk. right. simpl. rewrite Hperm.
    by apply elem_of_map_to_list.
  - simpl in Hstep.
    destruct (recv s) as [| | | |e [|[k c1] rest]|] eqn:Hrecv; try done.
    destruct (done c1 _) as [st1| |] eqn:Hdone; simplify_eq/=.
    apply done_with_call_inv in Hdone as (call & ch & _ & _ & _ & ->).
    intros _ k' c' Hk. simpl in *. unfold swept in Hs. rewrite Hrecv in Hs.
    destruct (Hs eq_refl k' c' Hk) as [Hc|[[= -> ->]|Hin]%elem_of_cons].
    + left. apply elem_of_app. auto.
    + left. apply elem_of_app. right. by left.
    + by right.
  - simpl in Hstep.
    destruct (recv s) as [| | | |e [|? ?]|] eqn:Hrecv; simplify_eq/=.
    intros _ k c Hk. simpl in *. unfold swept in Hs. rewrite Hrecv in Hs.
    destruct (Hs eq_refl k c Hk) as [Hc|Hin]; [by left|].
    by apply elem_of_nil in Hin.
  - simpl in Hstep. case_decide; [|done].
    destruct (ranging (recv s) && takes_ctx ctx pick c0 (st s)); [done|].
    destruct (Call_select ctx pick c0 (st s)) as [[r st1]| |] eqn:Hsel;
      simplify_eq/=.
    apply Call_select_inv in Hsel as (_ & Hsig & _ & _ & _ & _ & Hp).
    apply (swept_frame s); simpl; rewrite ?Hsig; auto.
    intros k c Hk. destruct Hp as [Hp|[k' Hp]]; rewrite Hp in Hk; [done|].
    by apply lookup_delete_Some in Hk as [_ ?].
  - simpl in Hstep. case_decide; [done|].
    destruct (chans (st s) !! d) as [ch|]; simpl in Hstep; [|done].
    destruct (cbuf ch); simplify_eq/=. by apply (swept_frame s).
  - simpl in Hstep. destruct (ranging (recv s)); simplify_eq/=.
    apply (swept_frame s); try done;
      unfold Close; simpl; by destruct (closing (client (st s))).
Qed.

Lemma run_swept evs s s' :
  registry_inv s → swept s → run evs s = Some s' → swept s'.
Proof.
  revert s. induction evs as [|ev evs IH]; intros s Hreg Hs Hrun.
  - by simplify_eq/=.
  - simpl in Hrun. destruct (step ev s) as [s1|] eqn:Hstep; simplify_eq/=.
    eauto using step_swept, step_inv.
Qed.

(** X21. In every state a client reaches in which [receive] has
    returned, [shutdown] is set and every call that is still in [pending]
    has been completed. *)
Theorem receive_returned_completes_pending (evs : list Event) (s : Sys) :
  run evs init = Some s →
  recv s = RecvReturned →
  shutdown (client (st s)) = true ∧
  ∀ k c, pending (client (st s)) !! k = Some c → c ∈ signals (st s).
Proof.
  intros Hrun Hrecv.
  assert (Hreg : registry_inv s) by (apply reachable_inv; by exists evs).
  split.
  - rewrite (inv_live s Hreg), Hrecv. done.
  - intros k c Hk.
    assert (Hs : swept s).
    { eapply run_swept; [apply registry_inv_init| |done]. by apply swept_live. }
    unfold swept in Hs. rewrite Hrecv in Hs.
    destruct (Hs eq_refl k c Hk) as [?|Hin]; [done|].
    by apply elem_of_nil in Hin.
Qed.

(** The theorem at the run in which call 2 is pending when the
    connection breaks. *)
Lemma receive_returned_completes_pending_witness :
  ∃ s, run sample_run init = Some s ∧
       pending (client (st s)) !! 2%Z = Some 2 ∧
       2 ∈ signals (st s).
Proof.
  assert (Hrun : ∃ s, run sample_run init = Some s ∧
                      pending (client (st s)) !! 2%Z = Some 2 ∧
                      recv s = RecvReturned)
    by (eexists; split; [vm_compute; reflexivity|];
        split; [vm_compute; reflexivity|reflexivity]).
  destruct Hrun as (s & Hrun & Hp & Hrecv). exists s.
  split; [exact Hrun|]. split; [exact Hp|].
  exact (proj2 (receive_returned_completes_pending _ s Hrun Hrecv) _ _ Hp).
Defined.

End ConcMore.
